(** * vcpkg: paragraph parsing and port loading (src/vcpkg/paragraphs.cpp)

    A shallow embedding of [paragraphs.cpp]: the field extraction protocol of
    [ParagraphParser], the comma separated list parsers, the control-file
    grammar of [PghParser], the port directory loader and the two batch
    loaders, followed by the properties proved about them.

    Text is a [string] read one byte at a time; the UTF-8 decoding that the
    scanner performs on multi-byte sequences is outside this development. *)

From Stdlib Require Import Ascii String List Bool Arith Lia.
From stdpp Require Import base strings gmap list sorting pretty.

Local Open Scope string_scope.
Local Open Scope list_scope.

(** ** The position-tracked scanner *)

Module Parse.

(** Modelled from the spec: [TextRowCol] (vcpkg/base/parse.h, not part of
    the sources at hand) is the source position of section 3, a row and a
    column counted from 1; [0] is the unset value of a default-constructed
    pair, for which the parser starts at 1. *)
Record TextRowCol := mkTextRowCol { row : nat; column : nat }.

Definition row_or (rc : TextRowCol) (def : nat) : nat :=
  if Nat.eqb (row rc) 0 then def else row rc.
Definition column_or (rc : TextRowCol) (def : nat) : nat :=
  if Nat.eqb (column rc) 0 then def else column rc.

(** Modelled from the spec: [ParseError] (vcpkg/base/parse.h), the one
    diagnostic a parser keeps: source name, row, column and message. *)
Record ParseError := mkParseError {
  pe_origin : string;
  pe_row : nat;
  pe_column : nat;
  pe_message : string
}.

(** Modelled from the spec: [ParserBase] (vcpkg/base/parse.h) is not part of
    the sources at hand. Section 4.1 describes it as a cursor over a text
    buffer that tracks row and column and keeps at most one diagnostic.
    [m_rest] is the text from the cursor to the end of the buffer. *)
Record ParserBase := mkParserBase {
  m_origin : string;
  m_rest : string;
  m_row : nat;
  m_column : nat;
  m_err : option ParseError
}.

(** Modelled from the spec: the constructor of [ParserBase]. *)
Definition init (text origin : string) (init_rowcol : TextRowCol) : ParserBase :=
  {| m_origin := origin; m_rest := text;
     m_row := row_or init_rowcol 1; m_column := column_or init_rowcol 1;
     m_err := None |}.

Definition LF : ascii := "010"%char.
Definition CR : ascii := "013"%char.
Definition TAB : ascii := "009"%char.

(** Modelled from the spec: the character classes of [ParserBase], as the
    grammar of section 4.2 names them: whitespace, tabs and spaces, line
    ends, letters, digits and the dash. *)
Definition is_whitespace (ch : ascii) : bool :=
  Ascii.eqb ch " " || Ascii.eqb ch TAB || Ascii.eqb ch CR || Ascii.eqb ch LF.
Definition is_tab_space (ch : ascii) : bool :=
  Ascii.eqb ch " " || Ascii.eqb ch TAB.
Definition is_lineend_ch (ch : ascii) : bool :=
  Ascii.eqb ch CR || Ascii.eqb ch LF.
Definition is_lower_alpha (ch : ascii) : bool :=
  Nat.leb 97 (nat_of_ascii ch) && Nat.leb (nat_of_ascii ch) 122.
Definition is_upper_alpha (ch : ascii) : bool :=
  Nat.leb 65 (nat_of_ascii ch) && Nat.leb (nat_of_ascii ch) 90.
Definition is_ascii_digit (ch : ascii) : bool :=
  Nat.leb 48 (nat_of_ascii ch) && Nat.leb (nat_of_ascii ch) 57.
Definition is_alphanumdash (ch : ascii) : bool :=
  is_lower_alpha ch || is_upper_alpha ch || is_ascii_digit ch || Ascii.eqb ch "-".

(** Modelled from the spec: [cur], the character under the cursor; [None]
    stands for the end-of-file character that it gives at the end of input. *)
Definition cur (p : ParserBase) : option ascii :=
  match m_rest p with
  | EmptyString => None
  | String ch _ => Some ch
  end.

(** The test [cur() == ch]. *)
Definition cur_is (p : ParserBase) (ch : ascii) : bool :=
  match cur p with
  | Some c => Ascii.eqb c ch
  | None => false
  end.

(** Modelled from the spec: [is_lineend] on the value of [cur]; the end of
    input counts as a line end ("a paragraph ends at a blank line or
    end-of-input"). *)
Definition is_lineend (c : option ascii) : bool :=
  match c with
  | None => true
  | Some ch => is_lineend_ch ch
  end.

(** Modelled from the spec: [at_eof], "report end-of-input". *)
Definition at_eof (p : ParserBase) : bool :=
  match m_rest p with
  | EmptyString => true
  | String _ _ => false
  end.

(** Modelled from the spec: [cur_loc] and [cur_rowcol], the position of the
    cursor. *)
Definition cur_loc (p : ParserBase) : TextRowCol :=
  {| row := m_row p; column := m_column p |}.
Definition cur_rowcol (p : ParserBase) : TextRowCol := cur_loc p.

(** Modelled from the spec: "tracks row/col"; a line feed starts a new row,
    any other character takes one column. *)
Definition advance_rowcol (ch : ascii) (rc : TextRowCol) : TextRowCol :=
  if Ascii.eqb ch LF then {| row := S (row rc); column := 1 |}
  else {| row := row rc; column := S (column rc) |}.

(** Modelled from the spec: [next], "advance one character"; nothing
    happens at the end of input. *)
Definition next (p : ParserBase) : ParserBase :=
  match m_rest p with
  | EmptyString => p
  | String ch rest =>
      let rc := advance_rowcol ch (cur_loc p) in
      {| m_origin := m_origin p; m_rest := rest;
         m_row := row rc; m_column := column rc; m_err := m_err p |}
  end.

(** The maximal run of characters satisfying [pred] at the front of [s],
    the text after it and the position reached: the loop of
    [match_zero_or_more]. *)
Fixpoint scan (pred : ascii -> bool) (s : string) (rc : TextRowCol)
  : string * (string * TextRowCol) :=
  match s with
  | EmptyString => (EmptyString, (EmptyString, rc))
  | String ch s' =>
      if pred ch
      then let '(m, r) := scan pred s' (advance_rowcol ch rc) in (String ch m, r)
      else (EmptyString, (s, rc))
  end.

(** Modelled from the spec: [match_zero_or_more], "consume a maximal run
    matching a character predicate (returns consumed text)". *)
Definition match_zero_or_more (pred : ascii -> bool) (p : ParserBase)
  : string * ParserBase :=
  let '(m, (rest, rc)) := scan pred (m_rest p) (cur_loc p) in
  (m, {| m_origin := m_origin p; m_rest := rest;
         m_row := row rc; m_column := column rc; m_err := m_err p |}).

(** Modelled from the spec: [match_until], the run up to the first
    character that satisfies [pred]. *)
Definition match_until (pred : ascii -> bool) (p : ParserBase)
  : string * ParserBase :=
  match_zero_or_more (fun ch => negb (pred ch)) p.

(** Modelled from the spec: [skip_whitespace] and [skip_tabs_spaces], "skip
    runs of a predicate"; they return the run, which [get_fieldvalue] appends
    to the value it builds. *)
Definition skip_whitespace (p : ParserBase) : string * ParserBase :=
  match_zero_or_more is_whitespace p.
Definition skip_tabs_spaces (p : ParserBase) : string * ParserBase :=
  match_zero_or_more is_tab_space p.

(** Modelled from the spec: [skip_newline], "recognizes line-ending
    sequences as a single logical newline": a CR, an LF or a CR LF pair. *)
Definition skip_newline (p : ParserBase) : ParserBase :=
  let p1 := if cur_is p CR then next p else p in
  if cur_is p1 LF then next p1 else p1.

(** Modelled from the spec: [skip_line], to the start of the next line. *)
Definition skip_line (p : ParserBase) : ParserBase :=
  skip_newline (snd (match_until is_lineend_ch p)).

(** Modelled from the spec: [add_error], "the first call to add error
    wins, subsequent calls are ignored". The cursor is then put at the end
    of the input: the loops of [get_paragraphs] and [get_paragraph] test
    nothing but the cursor, so this is what ends them after an error. *)
Definition add_error_at (message : string) (loc : TextRowCol) (p : ParserBase)
  : ParserBase :=
  {| m_origin := m_origin p; m_rest := EmptyString;
     m_row := m_row p; m_column := m_column p;
     m_err := match m_err p with
              | Some e => Some e
              | None => Some {| pe_origin := m_origin p; pe_row := row loc;
                                pe_column := column loc; pe_message := message |}
              end |}.

(** Modelled from the spec: [add_error] at the position of the cursor. *)
Definition add_error (message : string) (p : ParserBase) : ParserBase :=
  add_error_at message (cur_loc p) p.

(** Modelled from the spec: [get_error], the diagnostic kept, if any. *)
Definition get_error (p : ParserBase) : option ParseError := m_err p.

(** Modelled from the spec: [ParseError::format] is not part of the sources
    at hand; "diagnostic formatting includes source name, row, col, and
    message" (section 4.1). *)
Definition format (e : ParseError) : string :=
  pe_origin e +:+ ":" +:+ pretty (pe_row e) +:+ ":" +:+ pretty (pe_column e)
    +:+ ": error: " +:+ pe_message e.

End Parse.

(** [ExpectedS<T>]: a value or an error string. *)
Definition ExpectedS (T : Type) : Type := (T + string)%type.

(** ** How a call ends

    A call returns a value, or ends the process ([Checks::check_exit]), or
    does something the language leaves undefined (a null pointer followed,
    the front of an empty vector), or is still inside a loop when the fuel
    given to that loop is spent. *)
Inductive Outcome (A : Type) : Type :=
| Returns (a : A)
| Exits (message : string)
| Undefined (what : string)
| Unfinished.
Arguments Returns {A} a.
Arguments Exits {A} message.
Arguments Undefined {A} what.
Arguments Unfinished {A}.

#[global] Instance Outcome_ret : MRet Outcome := @Returns.
#[global] Instance Outcome_bind : MBind Outcome :=
  fun A B (k : A -> Outcome B) (m : Outcome A) =>
    match m with
    | Returns a => k a
    | Exits message => Exits message
    | Undefined what => Undefined what
    | Unfinished => Unfinished
    end.

(** [Paragraph]: field name to value and position of the value. *)
Abbreviation Paragraph := (gmap string (string * Parse.TextRowCol)).

(** ** The field extraction protocol *)

Module ParseControlErrorInfo.
Record t := mk {
  name : string;
  missing_fields : gmap string (list string);
  extra_fields : gmap string (list string);
  expected_types : list string;
  error : string
}.
End ParseControlErrorInfo.

Module ParagraphParser.

Record t := mk {
  fields : Paragraph;
  missing_fields : list string;
  expected_types : list string
}.

Definition remove_field (fields : Paragraph) (fieldname : string)
  : option (string * Parse.TextRowCol) * Paragraph :=
  match fields !! fieldname with
  | None => (None, fields)
  | Some value => (Some value, delete fieldname fields)
  end.

(** [required_field(fieldname, out)]: [out] is the pair of references the
    caller passes; the result is its new content and the new parser. *)
Definition required_field (fieldname : string) (out : string * Parse.TextRowCol)
  (pp : t) : (string * Parse.TextRowCol) * t :=
  let '(maybe_field, fields') := remove_field (fields pp) fieldname in
  match maybe_field with
  | Some field =>
      (field, {| fields := fields'; missing_fields := missing_fields pp;
                 expected_types := expected_types pp |})
  | None =>
      (out, {| fields := fields';
               missing_fields := missing_fields pp ++ [fieldname];
               expected_types := expected_types pp |})
  end.

Definition optional_field (fieldname : string) (out : string * Parse.TextRowCol)
  (pp : t) : (string * Parse.TextRowCol) * t :=
  let '(maybe_field, fields') := remove_field (fields pp) fieldname in
  match maybe_field with
  | Some field =>
      (field, {| fields := fields'; missing_fields := missing_fields pp;
                 expected_types := expected_types pp |})
  | None =>
      (out, {| fields := fields'; missing_fields := missing_fields pp;
               expected_types := expected_types pp |})
  end.

Definition ignore : Parse.TextRowCol := {| Parse.row := 0; Parse.column := 0 |}.

(** The overloads on a string alone. *)
Definition required_field_to (fieldname : string) (out : string) (pp : t)
  : string * t :=
  let '(o, pp') := required_field fieldname (out, ignore) pp in (fst o, pp').
Definition optional_field_str (fieldname : string) (pp : t) : string * t :=
  let '(o, pp') := optional_field fieldname (EmptyString, ignore) pp in (fst o, pp').
Definition required_field_str (fieldname : string) (pp : t) : string * t :=
  let '(o, pp') := required_field fieldname (EmptyString, ignore) pp in (fst o, pp').

(** [Util::extract_keys]: the keys of the map, in the map's order. *)
Definition extract_keys (fields : Paragraph) : list string :=
  (map_to_list fields).*1.

Definition is_empty (fields : Paragraph) : bool :=
  bool_decide (fields = ∅).

Definition error_info (name : string) (pp : t) : option ParseControlErrorInfo.t :=
  if negb (is_empty (fields pp)) || negb (bool_decide (missing_fields pp = []))
  then Some {| ParseControlErrorInfo.name := name;
               ParseControlErrorInfo.extra_fields :=
                 <["CONTROL" := extract_keys (fields pp)]> ∅;
               ParseControlErrorInfo.missing_fields :=
                 <["CONTROL" := missing_fields pp]> ∅;
               ParseControlErrorInfo.expected_types := expected_types pp;
               ParseControlErrorInfo.error := EmptyString |}
  else None.

End ParagraphParser.

(** ** The dependency-specifier lists *)

Module ParsedQualifiedSpecifier.
Record t (Expr : Type) := mk {
  name : string;
  features : option (list string);
  triplet : option string;
  platform : option Expr
}.
Arguments mk {Expr}.
Arguments name {Expr}.
Arguments features {Expr}.
Arguments triplet {Expr}.
Arguments platform {Expr}.
End ParsedQualifiedSpecifier.

Module Dependency.
Record t (Expr : Type) := mk {
  name : string;
  features : list string;
  platform : Expr
}.
Arguments mk {Expr}.
Arguments name {Expr}.
Arguments features {Expr}.
Arguments platform {Expr}.
End Dependency.

(** An item parser: it moves the parser and returns an item or nothing. *)
Definition ItemParser (T : Type) : Type :=
  Parse.ParserBase -> option T * Parse.ParserBase.

Section ParseListUntilEof.
Import Parse.
Context {T : Type}.
Variable plural_item_name : string.
Variable f : ItemParser T.

(** The [do ... while (true)] loop of [parse_list_until_eof]; one unit of
    fuel is spent per item. *)
Fixpoint parse_list_loop (fuel : nat) (ret : list T) (parser : ParserBase)
  : Outcome (option (list T) * ParserBase) :=
  match fuel with
  | 0 => Unfinished
  | S fuel' =>
      let '(item, parser) := f parser in
      match item with
      | None => Returns (None, parser)
      | Some x =>
          let ret := ret ++ [x] in
          let parser := (skip_whitespace parser).2 in
          if at_eof parser then Returns (Some ret, parser)
          else if negb (cur_is parser ",")
          then Returns (None,
                        add_error ("expected ',' or end of text in "
                                     +:+ plural_item_name +:+ " list") parser)
          else
            let parser := next parser in
            let parser := (skip_whitespace parser).2 in
            parse_list_loop fuel' ret parser
      end
  end.

(** Every turn of the loop but the last consumes a comma, so the length of
    the text plus one bounds the number of turns of an item parser that
    never moves the cursor backwards. *)
Definition parse_list_until_eof (parser : ParserBase)
  : Outcome (option (list T) * ParserBase) :=
  let parser := (skip_whitespace parser).2 in
  if at_eof parser then Returns (Some [], parser)
  else parse_list_loop (S (String.length (m_rest parser))) [] parser.

(** The common end of the three entry points: the list, or the formatted
    diagnostic of the parser, which is followed without a null test. *)
Definition finish_list (opt : option (list T)) (parser : ParserBase)
  : Outcome (ExpectedS (list T)) :=
  match opt with
  | Some v => Returns (inl v)
  | None =>
      match get_error parser with
      | Some e => Returns (inr (format e))
      | None => Undefined "parser.get_error() is null"
      end
  end.
End ParseListUntilEof.

Section ListEntryPoints.
Import Parse.
Context {Expr : Type}.
(** The value of a default-constructed platform expression. *)
Variable expr_empty : Expr.
(** The item parsers of packagespec.cpp, which is not part of the sources at
    hand. *)
Variable parse_feature_name : ItemParser string.
Variable parse_qualified_specifier : ItemParser (ParsedQualifiedSpecifier.t Expr).

Definition parse_default_features_list (str origin : string)
  (textrowcol : TextRowCol) : Outcome (ExpectedS (list string)) :=
  let parser := init str origin textrowcol in
  '(opt, parser) ← parse_list_until_eof "default features" parse_feature_name parser;
  finish_list opt parser.

Definition parse_qualified_specifier_list (str origin : string)
  (textrowcol : TextRowCol)
  : Outcome (ExpectedS (list (ParsedQualifiedSpecifier.t Expr))) :=
  let parser := init str origin textrowcol in
  '(opt, parser) ←
    parse_list_until_eof "dependencies" parse_qualified_specifier parser;
  finish_list opt parser.

(** The item parser that [parse_dependencies_list] passes to the loop. *)
Definition parse_dependency : ItemParser (Dependency.t Expr) :=
  fun parser =>
    let loc := cur_loc parser in
    let '(r, parser) := parse_qualified_specifier parser in
    match r with
    | None => (None, parser)
    | Some pqs =>
        match ParsedQualifiedSpecifier.triplet pqs with
        | Some _ =>
            (None,
             add_error_at "triplet specifier not allowed in this context" loc parser)
        | None =>
            (Some {| Dependency.name := ParsedQualifiedSpecifier.name pqs;
                     Dependency.features :=
                       default [] (ParsedQualifiedSpecifier.features pqs);
                     Dependency.platform :=
                       default expr_empty (ParsedQualifiedSpecifier.platform pqs) |},
             parser)
        end
    end.

Definition parse_dependencies_list (str origin : string)
  (textrowcol : TextRowCol) : Outcome (ExpectedS (list (Dependency.t Expr))) :=
  let parser := init str origin textrowcol in
  '(opt, parser) ← parse_list_until_eof "dependencies" parse_dependency parser;
  finish_list opt parser.
End ListEntryPoints.

(** ** The control-file grammar *)

Module Paragraphs.
Import Parse.

Module PghParser.

Definition dquote : string := String "034"%char EmptyString.
Definition newline : string := String LF EmptyString.

Definition blank_line_message : string :=
  "unexpected end of line, to span a blank line use "
    +:+ dquote +:+ "  ." +:+ dquote.

(** The loop of [get_fieldvalue]; a further turn is taken only after a
    line that starts with a space, which the turn before has consumed. *)
Fixpoint get_fieldvalue_loop (fuel : nat) (fieldvalue : string) (p : ParserBase)
  : Outcome (string * ParserBase) :=
  match fuel with
  | 0 => Unfinished
  | S fuel' =>
      (* scan to end of current line (it is part of the field value) *)
      let '(line, p) := match_until is_lineend_ch p in
      let fieldvalue := fieldvalue +:+ line in
      let p := skip_newline p in
      if negb (cur_is p " ") then Returns (fieldvalue, p)
      else
        let '(spacing, p) := skip_tabs_spaces p in
        if is_lineend (cur p)
        then Returns (fieldvalue, add_error blank_line_message p)
        else get_fieldvalue_loop fuel' (fieldvalue +:+ newline +:+ spacing) p
  end.

Definition get_fieldvalue (p : ParserBase) : Outcome (string * ParserBase) :=
  get_fieldvalue_loop (S (String.length (m_rest p))) EmptyString p.

Definition get_fieldname (p : ParserBase) : string * ParserBase :=
  let '(fieldname, p) := match_zero_or_more is_alphanumdash p in
  if bool_decide (fieldname = EmptyString)
  then (fieldname, add_error "expected fieldname" p)
  else (fieldname, p).

(** [Util::Sets::contains] on the keys of a paragraph. *)
Definition contains (fields : Paragraph) (fieldname : string) : bool :=
  bool_decide (is_Some (fields !! fieldname)).

(** [fields.emplace(k, v)]: a key that is present keeps its value. *)
Definition emplace (fieldname : string) (value : string * TextRowCol)
  (fields : Paragraph) : Paragraph :=
  match fields !! fieldname with
  | Some _ => fields
  | None => <[fieldname := value]> fields
  end.

(** The [do ... while (!is_lineend(cur()))] loop of [get_paragraph];
    [continue] after a comment line goes to the test of the loop. *)
Fixpoint get_paragraph_loop (fuel : nat) (fields : Paragraph) (p : ParserBase)
  : Outcome (Paragraph * ParserBase) :=
  match fuel with
  | 0 => Unfinished
  | S fuel' =>
      if cur_is p "#"
      then
        let p := skip_line p in
        if negb (is_lineend (cur p)) then get_paragraph_loop fuel' fields p
        else Returns (fields, p)
      else
        let loc := cur_loc p in
        let '(fieldname, p) := get_fieldname p in
        if negb (cur_is p ":")
        then Returns (fields, add_error "expected ':' after field name" p)
        else if contains fields fieldname
        then Returns (fields, add_error_at "duplicate field" loc p)
        else
          let p := next p in
          let p := (skip_tabs_spaces p).2 in
          let rowcol := cur_rowcol p in
          '(fieldvalue, p) ← get_fieldvalue p;
          let fields := emplace fieldname (fieldvalue, rowcol) fields in
          if negb (is_lineend (cur p)) then get_paragraph_loop fuel' fields p
          else Returns (fields, p)
  end.

Definition get_paragraph (p : ParserBase) : Outcome (Paragraph * ParserBase) :=
  get_paragraph_loop (S (String.length (m_rest p))) ∅ p.

(** The [while (!at_eof())] loop of [get_paragraphs]. *)
Fixpoint get_paragraphs_loop (fuel : nat) (paragraphs : list Paragraph)
  (p : ParserBase) : Outcome (list Paragraph * ParserBase) :=
  match fuel with
  | 0 => Unfinished
  | S fuel' =>
      if at_eof p then Returns (paragraphs, p)
      else
        '(fields, p) ← get_paragraph p;
        let paragraphs := paragraphs ++ [fields] in
        let p := (match_zero_or_more is_lineend_ch p).2 in
        get_paragraphs_loop fuel' paragraphs p
  end.

(** [PghParser(text, origin).get_paragraphs()]. *)
Definition get_paragraphs (text origin : string)
  : Outcome (ExpectedS (list Paragraph)) :=
  let p := init text origin {| row := 0; column := 0 |} in
  let p := (skip_whitespace p).2 in
  '(paragraphs, p) ← get_paragraphs_loop (S (String.length (m_rest p))) [] p;
  match get_error p with
  | Some e => Returns (inr (format e))
  | None => Returns (inl paragraphs)
  end.

End PghParser.

Definition parse_paragraphs (str origin : string)
  : Outcome (ExpectedS (list Paragraph)) :=
  PghParser.get_paragraphs str origin.

Definition parse_single_paragraph (str origin : string)
  : Outcome (ExpectedS Paragraph) :=
  pghs ← PghParser.get_paragraphs str origin;
  match pghs with
  | inl p =>
      match p with
      | [front] => Returns (inl front)
      | _ => Returns (inr "There should be exactly one paragraph")
      end
  | inr e => Returns (inr e)
  end.

Definition get_paragraphs_text (text origin : string)
  : Outcome (ExpectedS (list Paragraph)) :=
  parse_paragraphs text origin.

(** *** Files and paths *)

(** Modelled from the spec: [Path] and [Filesystem] (vcpkg/base/files.h) are
    not part of the sources at hand. A path is its text, [/] joins two paths
    and [filename] is the last component. The file system is the interface
    of section 6: reading a file gives its contents or the message of an
    error code, and [exists] answers whether a path is there. *)
Definition Path : Type := string.

(** Modelled from the spec: the operator [/] of [Path]. *)
Definition path_join (a b : Path) : Path := a +:+ "/" +:+ b.

(** Modelled from the spec: [Path::filename], what follows the last
    separator. *)
Fixpoint filename_from (s acc : string) : string :=
  match s with
  | EmptyString => acc
  | String ch s' =>
      if Ascii.eqb ch "/" then filename_from s' EmptyString
      else filename_from s' (acc +:+ String ch EmptyString)
  end.
Definition filename (p : Path) : string := filename_from p EmptyString.

(** Modelled from the spec: the [Filesystem] interface of section 6;
    listing the directories of a path that cannot be listed ends the
    process. *)
Record Filesystem := mkFilesystem {
  read_contents : Path -> string + string;
  exists_ : Path -> bool;
  get_directories_non_recursive : Path -> Outcome (list Path)
}.

Definition get_paragraphs (fs : Filesystem) (control_path : Path)
  : Outcome (ExpectedS (list Paragraph)) :=
  match read_contents fs control_path with
  | inr ec_message => Returns (inr ec_message)
  | inl contents => parse_paragraphs contents control_path
  end.

Definition get_single_paragraph (fs : Filesystem) (control_path : Path)
  : Outcome (ExpectedS Paragraph) :=
  match read_contents fs control_path with
  | inr ec_message => Returns (inr ec_message)
  | inl contents => parse_single_paragraph contents control_path
  end.

Definition is_port_directory (fs : Filesystem) (maybe_directory : Path) : bool :=
  exists_ fs (path_join maybe_directory "CONTROL")
  || exists_ fs (path_join maybe_directory "vcpkg.json").

(** Modelled from the spec: [Util::sort] and [Util::sort_unique_erase]
    (vcpkg/base/util.h) are not part of the sources at hand; "deduplicate
    and sort the set" (section 4.6). Strings are ordered byte by byte. *)
Fixpoint insert_sorted (x : string) (l : list string) : list string :=
  match l with
  | [] => [x]
  | y :: l' => if String.leb x y then x :: l else y :: insert_sorted x l'
  end.
Definition sort (l : list string) : list string := foldr insert_sorted [] l.
Fixpoint unique (l : list string) : list string :=
  match l with
  | [] => []
  | x :: l' =>
      match l' with
      | [] => [x]
      | y :: _ => if String.eqb x y then unique l' else x :: unique l'
      end
  end.
Definition sort_unique_erase (l : list string) : list string := unique (sort l).

(** *** Registries *)

(** Modelled from the spec: the registry interfaces of section 6
    (vcpkg/registries.h is not part of the sources at hand), with the
    operations that [try_load_all_registry_ports] calls. *)
Record RegistryImplementation := mkRegistryImplementation {
  get_path_to_baseline_version : string -> option Path;
  get_all_port_names : list string -> list string
}.
Record Registry := mkRegistry {
  packages : list string
}.
Record RegistrySet := mkRegistrySet {
  registries : list Registry;
  default_registry : option RegistryImplementation;
  registry_for_port : string -> option RegistryImplementation
}.

(** *** Loading one port, and all of them *)

(** [ParseExpected<T>]: a record or the error information of one port. *)
Definition ParseExpected (T : Type) : Type := (T + ParseControlErrorInfo.t)%type.

Definition error_named (name error : string) : ParseControlErrorInfo.t :=
  {| ParseControlErrorInfo.name := name;
     ParseControlErrorInfo.missing_fields := ∅;
     ParseControlErrorInfo.extra_fields := ∅;
     ParseControlErrorInfo.expected_types := [];
     ParseControlErrorInfo.error := error |}.

Module LoadResults.
Record t (SourceControlFile : Type) := mk {
  paragraphs : list (SourceControlFile * Path);
  errors : list ParseControlErrorInfo.t
}.
Arguments mk {SourceControlFile}.
Arguments paragraphs {SourceControlFile}.
Arguments errors {SourceControlFile}.
End LoadResults.

Module BinaryControlFile.
Record t (BinaryParagraph : Type) := mk {
  core_paragraph : BinaryParagraph;
  features : list BinaryParagraph
}.
Arguments mk {BinaryParagraph}.
Arguments core_paragraph {BinaryParagraph}.
Arguments features {BinaryParagraph}.
End BinaryControlFile.

Section Loading.
(** The collaborators that section 1 of the spec leaves outside: the JSON
    parser, the two record constructors, the binary paragraph and the
    printing of error information. The statistics timer of every loader
    only measures time and is left out. *)
Context {SourceControlFile JsonValue JsonObject BinaryParagraph PackageSpec : Type}.
(** [Json::parse]: a value, or the formatted parse error. *)
Variable Json_parse : string -> JsonValue + string.
Variable is_object : JsonValue -> bool.
Variable object : JsonValue -> JsonObject.
Variable parse_manifest_object : string -> JsonObject -> ParseExpected SourceControlFile.
Variable parse_control_file : string -> list Paragraph -> ParseExpected SourceControlFile.
Variable BinaryParagraph_of : Paragraph -> BinaryParagraph.
Variable spec_of : BinaryParagraph -> PackageSpec.
Variable spec_eqb : PackageSpec -> PackageSpec -> bool.
Variable spec_to_string : PackageSpec -> string.
Variable g_debugging : bool.
Variable print_error_message : list ParseControlErrorInfo.t -> list string.

Definition try_load_manifest_text (text origin : string)
  : ParseExpected SourceControlFile :=
  let fail (error : string) := inr (error_named origin error) in
  match Json_parse text with
  | inl val =>
      if is_object val then parse_manifest_object origin (object val)
      else fail "Manifest files must have a top-level object"
  | inr res_error => fail res_error
  end.

Definition try_load_port_text (text origin : string) (is_manifest : bool)
  : Outcome (ParseExpected SourceControlFile) :=
  if is_manifest then Returns (try_load_manifest_text text origin)
  else
    pghs ← get_paragraphs_text text origin;
    match pghs with
    | inl vector_pghs => Returns (parse_control_file origin vector_pghs)
    | inr e => Returns (inr (error_named origin e))
    end.

Definition both_files_message (port_directory : Path) : string :=
  "Found both manifest and CONTROL file in port " +:+ port_directory
    +:+ "; please rename one or the other".

(** The part of [try_load_port] after the manifest has been dealt with. *)
Definition try_load_port_control (fs : Filesystem) (port_directory : Path)
  : Outcome (ParseExpected SourceControlFile) :=
  let control_path := path_join port_directory "CONTROL" in
  let port_name := filename port_directory in
  if exists_ fs control_path
  then
    pghs ← get_paragraphs fs control_path;
    match pghs with
    | inl vector_pghs => Returns (parse_control_file control_path vector_pghs)
    | inr e => Returns (inr (error_named port_name e))
    end
  else if exists_ fs port_directory
  then Returns (inr (error_named port_name
                       "Failed to find either a CONTROL file or vcpkg.json file."))
  else Returns (inr (error_named port_name
                       ("The port directory (" +:+ port_directory
                          +:+ ") does not exist"))).

Definition try_load_port (fs : Filesystem) (port_directory : Path)
  : Outcome (ParseExpected SourceControlFile) :=
  let manifest_path := path_join port_directory "vcpkg.json" in
  let control_path := path_join port_directory "CONTROL" in
  let port_name := filename port_directory in
  match read_contents fs manifest_path with
  | inr ec_message =>
      if exists_ fs manifest_path
      then Returns (inr (error_named port_name
                           ("Failed to load manifest file for port: "
                              +:+ manifest_path +:+ PghParser.newline)))
      else try_load_port_control fs port_directory
  | inl manifest_contents =>
      if exists_ fs control_path
      then Exits (both_files_message port_directory)
      else Returns (try_load_manifest_text manifest_contents manifest_path)
  end.

(** [p->front()]: the first element; a vector without one has none. *)
Definition front {A : Type} (v : list A) : Outcome A :=
  match v with
  | [] => Undefined "front() of an empty vector"
  | x :: _ => Returns x
  end.

Definition try_load_cached_package (fs : Filesystem) (package_dir : Path)
  (spec : PackageSpec) : Outcome (ExpectedS (BinaryControlFile.t BinaryParagraph)) :=
  pghs ← get_paragraphs fs (path_join package_dir "CONTROL");
  match pghs with
  | inl p =>
      first ← front p;
      let core_paragraph := BinaryParagraph_of first in
      let p := tail p in
      let bcf := {| BinaryControlFile.core_paragraph := core_paragraph;
                    BinaryControlFile.features := map BinaryParagraph_of p |} in
      if negb (spec_eqb (spec_of core_paragraph) spec)
      then Returns (inr ("Mismatched spec in package at " +:+ package_dir
                           +:+ ": expected " +:+ spec_to_string spec
                           +:+ ", actual " +:+ spec_to_string (spec_of core_paragraph)))
      else Returns (inl bcf)
  | inr e => Returns (inr e)
  end.

(** The names that [try_load_all_registry_ports] goes through. *)
Definition candidate_ports (regs : RegistrySet) : list string :=
  let ports := foldl (fun ports registry => ports ++ packages registry)
                     [] (registries regs) in
  let ports := match default_registry regs with
               | Some registry => get_all_port_names registry ports
               | None => ports
               end in
  sort_unique_erase ports.

(** The [for] loop of [try_load_all_registry_ports]. *)
Fixpoint load_registry_ports_loop (fs : Filesystem) (regs : RegistrySet)
  (ports : list string) (ret : LoadResults.t SourceControlFile)
  : Outcome (LoadResults.t SourceControlFile) :=
  match ports with
  | [] => Returns ret
  | port_name :: ports' =>
      match registry_for_port regs port_name with
      | None =>
          (* this is a port for which no registry is set *)
          load_registry_ports_loop fs regs ports' ret
      | Some impl =>
          match get_path_to_baseline_version impl port_name with
          | Some p =>
              maybe_spgh ← try_load_port fs p;
              match maybe_spgh with
              | inl spgh =>
                  load_registry_ports_loop fs regs ports'
                    {| LoadResults.paragraphs :=
                         LoadResults.paragraphs ret ++ [(spgh, p)];
                       LoadResults.errors := LoadResults.errors ret |}
              | inr err =>
                  load_registry_ports_loop fs regs ports'
                    {| LoadResults.paragraphs := LoadResults.paragraphs ret;
                       LoadResults.errors := LoadResults.errors ret ++ [err] |}
              end
          | None =>
              (* the registry that owns the name of this port does not
                 actually contain the port *)
              load_registry_ports_loop fs regs ports' ret
          end
      end
  end.

Definition empty_results : LoadResults.t SourceControlFile :=
  {| LoadResults.paragraphs := []; LoadResults.errors := [] |}.

Definition try_load_all_registry_ports (fs : Filesystem) (regs : RegistrySet)
  : Outcome (LoadResults.t SourceControlFile) :=
  load_registry_ports_loop fs regs (candidate_ports regs) empty_results.

(** What [load_results_print_error] prints, one string per call of
    [print2]. *)
Definition load_results_print_error (results : LoadResults.t SourceControlFile)
  : list string :=
  match LoadResults.errors results with
  | [] => []
  | _ :: _ =>
      if g_debugging then print_error_message (LoadResults.errors results)
      else
        map (fun error =>
               "Warning: an error occurred while parsing '"
                 +:+ ParseControlErrorInfo.name error +:+ "'" +:+ PghParser.newline)
            (LoadResults.errors results)
        ++ ["Use '--debug' to get more information about the parse failures."
              +:+ PghParser.newline +:+ PghParser.newline]
  end.

(** The functions below return what they print together with their value. *)
Definition load_all_registry_ports (fs : Filesystem) (regs : RegistrySet)
  : Outcome (list string * list (SourceControlFile * Path)) :=
  results ← try_load_all_registry_ports fs regs;
  Returns (load_results_print_error results, LoadResults.paragraphs results).

(** The [for] loop of [load_overlay_ports]. *)
Fixpoint load_overlay_ports_loop (fs : Filesystem) (port_dirs : list Path)
  (ret : LoadResults.t SourceControlFile)
  : Outcome (LoadResults.t SourceControlFile) :=
  match port_dirs with
  | [] => Returns ret
  | path :: port_dirs' =>
      maybe_spgh ← try_load_port fs path;
      match maybe_spgh with
      | inl spgh =>
          load_overlay_ports_loop fs port_dirs'
            {| LoadResults.paragraphs :=
                 LoadResults.paragraphs ret ++ [(spgh, path)];
               LoadResults.errors := LoadResults.errors ret |}
      | inr err =>
          load_overlay_ports_loop fs port_dirs'
            {| LoadResults.paragraphs := LoadResults.paragraphs ret;
               LoadResults.errors := LoadResults.errors ret ++ [err] |}
      end
  end.

(** The directories that [load_overlay_ports] goes through. *)
Definition overlay_port_dirs (fs : Filesystem) (directory : Path)
  : Outcome (list Path) :=
  port_dirs ← get_directories_non_recursive fs directory;
  let port_dirs := sort port_dirs in
  Returns (List.filter (fun port_dir_entry =>
                     negb (String.eqb (filename port_dir_entry) ".DS_Store"))
                  port_dirs).

(** The local [ret] of [load_overlay_ports] when its loop is over. *)
Definition load_overlay_ports_results (fs : Filesystem) (directory : Path)
  : Outcome (LoadResults.t SourceControlFile) :=
  port_dirs ← overlay_port_dirs fs directory;
  load_overlay_ports_loop fs port_dirs empty_results.

Definition load_overlay_ports (fs : Filesystem) (directory : Path)
  : Outcome (list string * list (SourceControlFile * Path)) :=
  ret ← load_overlay_ports_results fs directory;
  Returns (load_results_print_error ret, LoadResults.paragraphs ret).
End Loading.

End Paragraphs.

(** ** An instance of the item parsers *)

(** Modelled from the spec: [parse_feature_name] and
    [parse_qualified_specifier] (packagespec.cpp) are not part of the sources
    at hand. Section 4.4 gives the items of the three lists: a bare feature
    name, and [name[ '[' feature,feature,... ']' ] [ ':' triplet ]
    [ platform-condition ]]. Names are runs of lowercase letters, digits and
    dashes; the platform condition is the text between matching parentheses,
    kept as it is since its grammar is outside the spec. The theorems on the
    list parsers hold for every item parser; this instance serves to run
    them. *)
Module PackageSpec.
Import Parse.

(** Modelled from the spec: the characters of a package, feature or triplet
    name, as in "x64-windows" and "feat1". *)
Definition is_package_name_char (ch : ascii) : bool :=
  is_lower_alpha ch || is_ascii_digit ch || Ascii.eqb ch "-".

(** Modelled from the spec: a name is a run of such characters that is not
    empty; an empty run is the error of the item. *)
Definition parse_name (what : string) : ItemParser string :=
  fun parser =>
    let '(ret, parser) := match_zero_or_more is_package_name_char parser in
    if bool_decide (ret = EmptyString)
    then (None, add_error ("expected " +:+ what
                             +:+ " (must be lowercase, digits, '-')") parser)
    else (Some ret, parser).

(** Modelled from the spec: "items are bare feature-name tokens". *)
Definition parse_feature_name : ItemParser string := parse_name "feature name".
Definition parse_package_name : ItemParser string := parse_name "package name".

(** Modelled from the spec: the features between brackets, [ '['
    feature,feature,... ']' ]; entered on the bracket or on a comma. *)
Fixpoint parse_feature_list (fuel : nat) (features : list string)
  (parser : ParserBase) : option (list string) * ParserBase :=
  match fuel with
  | 0 => (None, add_error "expected ',' or ']' in feature list" parser)
  | S fuel' =>
      let parser := next parser in
      let parser := (skip_tabs_spaces parser).2 in
      let '(feature, parser) := parse_feature_name parser in
      match feature with
      | None => (None, parser)
      | Some f =>
          let features := features ++ [f] in
          let parser := (skip_tabs_spaces parser).2 in
          if cur_is parser "]" then (Some features, next parser)
          else if cur_is parser "," then parse_feature_list fuel' features parser
          else (None, add_error "expected ',' or ']' in feature list" parser)
      end
  end.

(** Modelled from the spec: the platform condition, the text up to the
    parenthesis that closes the one just read. *)
Fixpoint parse_qualifier (fuel depth : nat) (acc : string) (parser : ParserBase)
  : option string * ParserBase :=
  match fuel with
  | 0 => (None, parser)
  | S fuel' =>
      match cur parser with
      | None => (None, parser)
      | Some ch =>
          if Ascii.eqb ch ")"
          then match depth with
               | 0 => (Some acc, next parser)
               | S depth' =>
                   parse_qualifier fuel' depth' (acc +:+ String ch EmptyString)
                                   (next parser)
               end
          else if Ascii.eqb ch "("
          then parse_qualifier fuel' (S depth) (acc +:+ String ch EmptyString)
                               (next parser)
          else parse_qualifier fuel' depth (acc +:+ String ch EmptyString)
                               (next parser)
      end
  end.

(** Modelled from the spec: [ ':' triplet ]; entered on the colon. *)
Definition parse_triplet (parser : ParserBase) : option string * ParserBase :=
  let parser := next parser in
  let '(triplet, parser) := match_zero_or_more is_package_name_char parser in
  if bool_decide (triplet = EmptyString)
  then (None, add_error "expected triplet name (must be lowercase, digits, '-')" parser)
  else (Some triplet, parser).

(** Modelled from the spec: [name[ '[' feature,feature,... ']' ]
    [ ':' triplet ] [ platform-condition ]]. *)
Definition parse_qualified_specifier : ItemParser (ParsedQualifiedSpecifier.t string) :=
  fun parser =>
    let '(name, parser) := parse_package_name parser in
    match name with
    | None => (None, parser)
    | Some name =>
        let '(features, parser) :=
          if cur_is parser "["
          then let '(fs, parser) :=
                 parse_feature_list (String.length (m_rest parser)) [] parser in
               (option_map Some fs, parser)
          else (Some None, parser) in
        match features with
        | None => (None, parser)
        | Some features =>
            let '(triplet, parser) :=
              if cur_is parser ":"
              then let '(tr, parser) := parse_triplet parser in
                   (option_map Some tr, parser)
              else (Some None, parser) in
            match triplet with
            | None => (None, parser)
            | Some triplet =>
                let parser := (skip_tabs_spaces parser).2 in
                let loc := cur_loc parser in
                let '(platform, parser) :=
                  if cur_is parser "("
                  then let '(pl, parser) :=
                         parse_qualifier (String.length (m_rest parser)) 0
                                         EmptyString (next parser) in
                       (option_map Some pl, parser)
                  else (Some None, parser) in
                match platform with
                | None =>
                    (None, add_error_at "unmatched open braces in qualifier" loc parser)
                | Some platform =>
                    let parser := (skip_tabs_spaces parser).2 in
                    (Some {| ParsedQualifiedSpecifier.name := name;
                             ParsedQualifiedSpecifier.features := features;
                             ParsedQualifiedSpecifier.triplet := triplet;
                             ParsedQualifiedSpecifier.platform := platform |},
                     parser)
                end
            end
        end
    end.

End PackageSpec.

(** ** Vocabulary of the statements *)

(** Every character of [s] satisfies [pred]. *)
Fixpoint all_chars (pred : ascii -> bool) (s : string) : bool :=
  match s with
  | EmptyString => true
  | String ch s' => pred ch && all_chars pred s'
  end.

(** [s] is empty or starts with a character that fails [pred]: a run of
    [pred] ends in front of [s]. *)
Definition stops (pred : ascii -> bool) (s : string) : bool :=
  match s with
  | EmptyString => true
  | String ch _ => negb (pred ch)
  end.

(** The position reached from [rc] after the characters of [s]. *)
Fixpoint advance (s : string) (rc : Parse.TextRowCol) : Parse.TextRowCol :=
  match s with
  | EmptyString => rc
  | String ch s' => advance s' (Parse.advance_rowcol ch rc)
  end.

(** The number of characters between the cursor and the end of the text. *)
Definition remaining (p : Parse.ParserBase) : nat := String.length (Parse.m_rest p).

(** The manifest of the directory can be read and a control file is there
    too. *)
Definition both_files (fs : Paragraphs.Filesystem) (port_directory : Paragraphs.Path)
  : bool :=
  match Paragraphs.read_contents fs (Paragraphs.path_join port_directory "vcpkg.json") with
  | inl _ => Paragraphs.exists_ fs (Paragraphs.path_join port_directory "CONTROL")
  | inr _ => false
  end.

(** The directory that the registry loader goes to for a name: the baseline
    path that the owner of the name gives, if there is an owner and it gives
    one. *)
Definition baseline_path (regs : Paragraphs.RegistrySet) (port_name : string)
  : option Paragraphs.Path :=
  match Paragraphs.registry_for_port regs port_name with
  | None => None
  | Some impl => Paragraphs.get_path_to_baseline_version impl port_name
  end.

(** The directories that [try_load_all_registry_ports] attempts, in order. *)
Definition attempted (regs : Paragraphs.RegistrySet) : list Paragraphs.Path :=
  omap (baseline_path regs) (Paragraphs.candidate_ports regs).


(** [reads f p xs p']: from [p] the loop of [parse_list_until_eof] reads the
    items [xs], each followed by a comma and none of them moving the cursor
    backwards, and is about to read one more item at [p']. *)
Inductive reads {T : Type} (f : ItemParser T)
  : Parse.ParserBase -> list T -> Parse.ParserBase -> Prop :=
| reads_nil p : reads f p [] p
| reads_cons p x p1 xs p' :
    f p = (Some x, p1) ->
    (remaining p1 <= remaining p)%nat ->
    Parse.cur_is (Parse.skip_whitespace p1).2 "," = true ->
    reads f (Parse.skip_whitespace (Parse.next (Parse.skip_whitespace p1).2)).2 xs p' ->
    reads f p (x :: xs) p'.

(** The dependency that a qualified specifier without triplet becomes. *)
Definition to_dependency {Expr : Type} (expr_empty : Expr)
  (pqs : ParsedQualifiedSpecifier.t Expr) : Dependency.t Expr :=
  {| Dependency.name := ParsedQualifiedSpecifier.name pqs;
     Dependency.features := default [] (ParsedQualifiedSpecifier.features pqs);
     Dependency.platform := default expr_empty (ParsedQualifiedSpecifier.platform pqs) |}.

(** The parser [p] once it has consumed [consumed] and has [rest] left. *)
Definition moved (p : Parse.ParserBase) (consumed rest : string) : Parse.ParserBase :=
  {| Parse.m_origin := Parse.m_origin p;
     Parse.m_rest := rest;
     Parse.m_row := Parse.row (advance consumed (Parse.cur_loc p));
     Parse.m_column := Parse.column (advance consumed (Parse.cur_loc p));
     Parse.m_err := Parse.m_err p |}.

(** No character of [s] ends a line. *)
Definition no_lineend (s : string) : bool :=
  all_chars (fun ch => negb (Parse.is_lineend_ch ch)) s.

(** A continuation line is given by its leading run of spaces and tabs,
    which starts with a space, and by what follows the run, which is not
    empty. *)
Definition continuation_ok (c : string * string) : bool :=
  match c.1 with
  | String ch _ => Ascii.eqb ch " "
  | EmptyString => false
  end
  && all_chars Parse.is_tab_space c.1
  && negb (String.eqb c.2 EmptyString)
  && no_lineend c.2
  && stops Parse.is_tab_space c.2.

(** The continuation lines as they stand in the text, each after the line
    feed that ends the line before it. *)
Fixpoint continuation_lines (conts : list (string * string)) : string :=
  match conts with
  | [] => EmptyString
  | c :: conts' =>
      Paragraphs.PghParser.newline +:+ c.1 +:+ c.2 +:+ continuation_lines conts'
  end.

(** A field as it stands in the text: the name, the colon, spaces and tabs,
    the rest of the first line, the continuation lines and the line feed
    that ends the last line. *)
Record field_block := mkFieldBlock {
  fb_name : string;
  fb_spacing : string;
  fb_first : string;
  fb_continuations : list (string * string)
}.


(** A field name: letters, digits and dashes, at least one. *)
Definition name_ok (name : string) : bool :=
  negb (String.eqb name EmptyString) && all_chars Parse.is_alphanumdash name.


(** What a paragraph is made of: fields and comment lines. A comment line is
    a hash sign, a text and the line feed. *)
Inductive item :=
| Field (b : field_block)
| Comment (text : string).





(** A character that a field or a comment line starts with. *)
Definition is_item_start (ch : ascii) : bool :=
  Parse.is_alphanumdash ch || Ascii.eqb ch "#".

(** The character that [s] starts with. *)
Definition cur_of (s : string) : option ascii :=
  match s with
  | EmptyString => None
  | String ch _ => Some ch
  end.

(** [s] starts with a character that satisfies [pred]. *)
Definition starts_with (pred : ascii -> bool) (s : string) : bool :=
  match s with
  | EmptyString => false
  | String ch _ => pred ch
  end.



(** *** Texts with any line ends *)

(** The line ends: a line feed, a carriage return with a line feed, a
    carriage return. *)
Definition line_end (e : string) : bool :=
  String.eqb e (String Parse.LF EmptyString)
  || String.eqb e (String Parse.CR (String Parse.LF EmptyString))
  || String.eqb e (String Parse.CR EmptyString).

(** [e] is what ends a line in front of [following]: a line end, where a
    carriage return alone is not followed by a line feed, with which it
    would make one line end; or nothing, at the end of the text. *)
Definition ends_line (e following : string) : bool :=
  if String.eqb e EmptyString then String.eqb following EmptyString
  else line_end e
       && negb (String.eqb e (String Parse.CR EmptyString)
                && starts_with (fun ch => Ascii.eqb ch Parse.LF) following).

(** A continuation line together with the line end in front of it. *)
Definition wrapped_ok (c : string * (string * string)) : bool :=
  line_end c.1 && continuation_ok c.2.

(** The continuation lines as they stand in the text, each after the line
    end of the line before it. *)
Fixpoint wrapped_text (conts : list (string * (string * string))) : string :=
  match conts with
  | [] => EmptyString
  | c :: conts' => c.1 +:+ c.2.1 +:+ c.2.2 +:+ wrapped_text conts'
  end.

(** A field as it stands in a text with any line ends: the name, the colon,
    spaces and tabs, the rest of the first line, the continuation lines
    with the line ends in front of them, and what ends the last line. *)
Record field_lines := mkFieldLines {
  fl_name : string;
  fl_spacing : string;
  fl_first : string;
  fl_continuations : list (string * (string * string));
  fl_end : string
}.

Definition field_text (b : field_lines) : string :=
  fl_name b +:+ ":" +:+ fl_spacing b +:+ fl_first b
    +:+ wrapped_text (fl_continuations b) +:+ fl_end b.

(** The value of a field: its first line and its continuation lines, each
    with its leading spaces and tabs, joined by line feeds whatever the
    line ends of the text are. *)
Definition field_value (b : field_lines) : string :=
  fl_first b +:+ continuation_lines (map snd (fl_continuations b)).

(** The parts of a field are what they are said to be, and its last line
    ends in front of [following]. *)
Definition field_ok (b : field_lines) (following : string) : bool :=
  name_ok (fl_name b)
  && all_chars Parse.is_tab_space (fl_spacing b)
  && no_lineend (fl_first b)
  && stops Parse.is_tab_space (fl_first b)
  && forallb wrapped_ok (fl_continuations b)
  && ends_line (fl_end b) following.

(** What a paragraph is made of, in a text with any line ends: fields, and
    comment lines with what ends them. *)
Inductive entry :=
| FieldEntry (b : field_lines)
| CommentEntry (text line_ending : string).

Definition entry_text (i : entry) : string :=
  match i with
  | FieldEntry b => field_text b
  | CommentEntry text line_ending => "#" +:+ text +:+ line_ending
  end.

Definition entry_ok (i : entry) (following : string) : bool :=
  match i with
  | FieldEntry b => field_ok b following
  | CommentEntry text line_ending =>
      no_lineend text && ends_line line_ending following
  end.

Definition entries_text (entries : list entry) : string :=
  foldr (fun i acc => entry_text i +:+ acc) EmptyString entries.

(** Every entry is well formed in front of the text that follows it. *)
Fixpoint entries_ok (entries : list entry) (following : string) : bool :=
  match entries with
  | [] => true
  | i :: entries' =>
      entry_ok i (entries_text entries' +:+ following) && entries_ok entries' following
  end.

(** The names of the fields among the entries, in order. *)
Definition entry_names (entries : list entry) : list string :=
  omap (fun i => match i with
                 | FieldEntry b => Some (fl_name b)
                 | CommentEntry _ _ => None
                 end) entries.

(** The paragraph that entries add to [fields] when the first of them
    starts at the position [rc]: every field enters with its value and with
    the position where its value starts, after the name, the colon and the
    spacing; a comment line adds nothing. *)
Fixpoint entries_into (fields : Paragraph) (rc : Parse.TextRowCol)
  (entries : list entry) : Paragraph :=
  match entries with
  | [] => fields
  | i :: entries' =>
      entries_into
        match i with
        | FieldEntry b =>
            <[fl_name b := (field_value b,
                            advance (fl_name b +:+ ":" +:+ fl_spacing b) rc)]> fields
        | CommentEntry _ _ => fields
        end
        (advance (entry_text i) rc) entries'
  end.

(** The text of paragraphs, each given by its entries and by the line ends
    that separate it from what follows. *)
Definition blocks_text (pars : list (list entry * string)) : string :=
  foldr (fun par acc => entries_text par.1 +:+ par.2 +:+ acc) EmptyString pars.

(** Complete paragraphs in front of [following]: each has entries, well
    formed where they stand, with different field names, and is separated
    from what follows by line feeds and carriage returns, at least one. *)
Fixpoint blocks_ok (pars : list (list entry * string)) (following : string) : bool :=
  match pars with
  | [] => true
  | par :: pars' =>
      match par.1 with [] => false | _ :: _ => true end
      && entries_ok par.1 (par.2 +:+ blocks_text pars' +:+ following)
      && bool_decide (NoDup (entry_names par.1))
      && starts_with Parse.is_lineend_ch par.2
      && all_chars Parse.is_lineend_ch par.2
      && blocks_ok pars' following
  end.

(** The paragraphs of such a text when the first of them starts at the
    position [rc]. *)
Fixpoint document_of (rc : Parse.TextRowCol) (pars : list (list entry * string))
  : list Paragraph :=
  match pars with
  | [] => []
  | par :: pars' =>
      entries_into ∅ rc par.1
        :: document_of (advance (entries_text par.1 +:+ par.2) rc) pars'
  end.

(** A character that is not whitespace. *)
Definition not_blank (ch : ascii) : bool := negb (Parse.is_whitespace ch).

(** The messages of the four errors of the paragraph grammar. *)
Definition paragraph_messages : list string :=
  ["expected fieldname"; "expected ':' after field name"; "duplicate field";
   Paragraphs.PghParser.blank_line_message].

(** The parser reads the text named [origin], and the error it keeps, if it
    keeps one, is an error of the paragraph grammar in that text. *)
Definition diagnosed (origin : string) (p : Parse.ParserBase) : Prop :=
  Parse.m_origin p = origin
  /\ forall e, Parse.m_err p = Some e ->
               Parse.pe_origin e = origin /\ Parse.pe_message e ∈ paragraph_messages.

(** The parser after each of the names has been asked for as a required
    field, and as an optional one, in order; what the caller passes to
    receive the value plays no part in it. *)
Definition require_all (names : list string) (pp : ParagraphParser.t)
  : ParagraphParser.t :=
  foldl (fun pp fieldname =>
           (ParagraphParser.required_field fieldname
              (EmptyString, ParagraphParser.ignore) pp).2) pp names.
Definition allow_all (names : list string) (pp : ParagraphParser.t)
  : ParagraphParser.t :=
  foldl (fun pp fieldname =>
           (ParagraphParser.optional_field fieldname
              (EmptyString, ParagraphParser.ignore) pp).2) pp names.

(** The paragraph has no field of that name. *)
Definition absent (fields : Paragraph) (fieldname : string) : bool :=
  match fields !! fieldname with
  | None => true
  | Some _ => false
  end.

(** The names that the registries declare, in the order of declaration,
    as the default registry, if there is one, hands them on. *)
Definition declared_ports (regs : Paragraphs.RegistrySet) : list string :=
  let ports := concat (map Paragraphs.packages (Paragraphs.registries regs)) in
  match Paragraphs.default_registry regs with
  | Some registry => Paragraphs.get_all_port_names registry ports
  | None => ports
  end.

(** The entries that [load_overlay_ports] keeps: all but the ones named
    [.DS_Store]. *)
Definition is_overlay_entry (path : Paragraphs.Path) : bool :=
  negb (String.eqb (Paragraphs.filename path) ".DS_Store").

(** ** Inputs of the examples *)

(** Stand-ins for the collaborators of the loaders: a source control file is
    the list of its paragraphs, which must not be empty; no text is a
    manifest. *)
Module Demo.
Definition SourceControlFile : Type := list Paragraph.
Definition Json_parse (text : string) : unit + string := inr "not a JSON text".
Definition is_object (val : unit) : bool := false.
Definition object (val : unit) : unit := val.
Definition parse_manifest_object (origin : string) (obj : unit)
  : Paragraphs.ParseExpected SourceControlFile :=
  inr (Paragraphs.error_named origin "no manifest").
Definition parse_control_file (origin : string) (pghs : list Paragraph)
  : Paragraphs.ParseExpected SourceControlFile :=
  match pghs with
  | [] => inr (Paragraphs.error_named origin "no paragraphs")
  | _ :: _ => inl pghs
  end.
Definition print_error_message (errors : list ParseControlErrorInfo.t) : list string :=
  map ParseControlErrorInfo.error errors.
Definition try_load_port :=
  Paragraphs.try_load_port Json_parse is_object object parse_manifest_object
    parse_control_file.
Definition try_load_all_registry_ports :=
  Paragraphs.try_load_all_registry_ports Json_parse is_object object
    parse_manifest_object parse_control_file.
Definition load_overlay_ports :=
  Paragraphs.load_overlay_ports Json_parse is_object object parse_manifest_object
    parse_control_file false print_error_message.

(** A file system given by the files it holds and the directories it has. *)
Definition lookup_file (files : list (string * string)) (path : string)
  : string + string :=
  match List.find (fun f => String.eqb f.1 path) files with
  | Some f => inl f.2
  | None => inr "No such file or directory"
  end.
Definition filesystem (files : list (string * string)) (dirs : list (string * list string))
  : Paragraphs.Filesystem :=
  {| Paragraphs.read_contents := lookup_file files;
     Paragraphs.exists_ :=
       fun path => existsb (fun f => String.eqb f.1 path) files
                   || existsb (fun d => String.eqb d.1 path) dirs;
     Paragraphs.get_directories_non_recursive :=
       fun path => match List.find (fun d => String.eqb d.1 path) dirs with
                   | Some d => Returns d.2
                   | None => Exits "cannot list the directory"
                   end |}.
End Demo.

(** A file system with one empty CONTROL file, in the directory "pkg". *)
Definition fs_empty_control : Paragraphs.Filesystem :=
  Demo.filesystem [("pkg/CONTROL", EmptyString)] [("pkg", [])].

(** A directory "p" whose manifest exists but cannot be read, next to a
    control file. *)
Definition fs_unreadable_manifest : Paragraphs.Filesystem :=
  {| Paragraphs.read_contents :=
       fun path => if String.eqb path "p/CONTROL"
                   then inl ("Source: p" +:+ Paragraphs.PghParser.newline)
                   else inr "Permission denied";
     Paragraphs.exists_ :=
       fun path => String.eqb path "p" || String.eqb path "p/CONTROL"
                   || String.eqb path "p/vcpkg.json";
     Paragraphs.get_directories_non_recursive := fun _ => Returns ["p"] |}.

(** An overlay directory with a port "a" that has a control file and a
    directory "b" that has nothing, and a registry directory with the port
    "bar". *)
Definition fs_ports : Paragraphs.Filesystem :=
  Demo.filesystem
    [("overlay/a/CONTROL", "Source: a" +:+ Paragraphs.PghParser.newline);
     ("ports/bar/CONTROL", "Source: bar" +:+ Paragraphs.PghParser.newline)]
    [("overlay", ["overlay/b"; "overlay/.DS_Store"; "overlay/a"]);
     ("overlay/a", []); ("overlay/b", []); ("ports/bar", [])].



(** An overlay directory whose port "c" has a manifest next to its control
    file, between the ports "a" and "d", and a registry that finds every
    port under that directory. *)
Definition fs_conflict : Paragraphs.Filesystem :=
  Demo.filesystem
    [("overlay/a/CONTROL", "Source: a" +:+ Paragraphs.PghParser.newline);
     ("overlay/c/CONTROL", "Source: c" +:+ Paragraphs.PghParser.newline);
     ("overlay/c/vcpkg.json", "{}");
     ("overlay/d/CONTROL", "Source: d" +:+ Paragraphs.PghParser.newline)]
    [("overlay", ["overlay/d"; "overlay/c"; "overlay/a"]);
     ("overlay/a", []); ("overlay/c", []); ("overlay/d", [])].
Definition registry_overlay : Paragraphs.RegistryImplementation :=
  {| Paragraphs.get_path_to_baseline_version :=
       fun port_name => Some (Paragraphs.path_join "overlay" port_name);
     Paragraphs.get_all_port_names := fun port_names => port_names |}.
Definition registries_conflict : Paragraphs.RegistrySet :=
  {| Paragraphs.registries := [{| Paragraphs.packages := ["d"; "c"; "a"] |}];
     Paragraphs.default_registry := None;
     Paragraphs.registry_for_port := fun _ => Some registry_overlay |}.

(** The line ends of the examples. *)
Definition lf : string := String Parse.LF EmptyString.
Definition crlf : string := String Parse.CR (String Parse.LF EmptyString).

(** A paragraph made of a comment line and a field, in lines that end with
    a carriage return and a line feed, with a blank line after it; and the
    entries of a paragraph whose last field has two lines, the second of
    which ends with the text. *)
Definition pars_source : list (list entry * string) :=
  [([CommentEntry " the port" crlf;
     FieldEntry (mkFieldLines "Source" " " "zlib" [] crlf)], crlf)].
Definition entries_version : list entry :=
  [FieldEntry (mkFieldLines "Version" " " "1.2" [] lf);
   FieldEntry (mkFieldLines "Description" " " "A compression"
                 [(crlf, ("  ", "library"))] EmptyString)].

(** * Properties *)

(** ** The scanner *)

Section ScannerFacts.
Import Parse.

Lemma append_cons (ch : ascii) (a b : string) :
  String ch a +:+ b = String ch (a +:+ b).
Proof. reflexivity. Qed.

Lemma append_nil_l (b : string) : EmptyString +:+ b = b.
Proof. reflexivity. Qed.

Lemma append_assoc (a b c : string) : (a +:+ b) +:+ c = a +:+ (b +:+ c).
Proof.
  induction a as [|ch a IH]; [reflexivity|].
  rewrite !append_cons. now f_equal.
Qed.

Lemma append_empty_r (a : string) : a +:+ EmptyString = a.
Proof.
  induction a as [|ch a IH]; [reflexivity|]. rewrite append_cons. now f_equal.
Qed.

Lemma length_append (a b : string) :
  String.length (a +:+ b) = String.length a + String.length b.
Proof.
  induction a as [|ch a IH]; [reflexivity|].
  rewrite append_cons. simpl. now rewrite IH.
Qed.

Lemma scan_spec pred a b rc :
  all_chars pred a = true -> stops pred b = true ->
  scan pred (a +:+ b) rc = (a, (b, advance a rc)).
Proof.
  revert rc. induction a as [|ch a IH]; intros rc Ha Hb.
  - rewrite append_nil_l. destruct b as [|c b]; simpl in *; [reflexivity|].
    apply negb_true_iff in Hb. now rewrite Hb.
  - rewrite append_cons. simpl in *.
    apply andb_true_iff in Ha as [Hch Ha]. rewrite Hch.
    now rewrite (IH _ Ha Hb).
Qed.

Lemma scan_split pred s rc :
  s = (scan pred s rc).1 +:+ (scan pred s rc).2.1.
Proof.
  revert rc. induction s as [|ch s IH]; simpl; intros rc; [reflexivity|].
  destruct (pred ch); simpl; [|reflexivity].
  specialize (IH (advance_rowcol ch rc)).
  destruct (scan pred s (advance_rowcol ch rc)) as [m [r rc']]. simpl in *.
  rewrite append_cons. now f_equal.
Qed.

Lemma scan_rest_le pred s rc :
  (String.length (scan pred s rc).2.1 <= String.length s)%nat.
Proof.
  rewrite (scan_split pred s rc) at 2. rewrite length_append. lia.
Qed.

Lemma scan_first pred ch s rc :
  pred ch = true ->
  (String.length (scan pred (String ch s) rc).2.1 <= String.length s)%nat.
Proof.
  intros H. simpl. rewrite H.
  pose proof (scan_rest_le pred s (advance_rowcol ch rc)) as Hle.
  destruct (scan pred s (advance_rowcol ch rc)) as [m [r rc']]. exact Hle.
Qed.

Lemma match_zero_or_more_spec pred p a b :
  m_rest p = a +:+ b -> all_chars pred a = true -> stops pred b = true ->
  match_zero_or_more pred p
  = (a, {| m_origin := m_origin p; m_rest := b;
           m_row := row (advance a (cur_loc p));
           m_column := column (advance a (cur_loc p));
           m_err := m_err p |}).
Proof.
  intros Hr Ha Hb. unfold match_zero_or_more.
  rewrite Hr, (scan_spec _ _ _ _ Ha Hb). reflexivity.
Qed.

Lemma match_zero_or_more_le pred p :
  (remaining (match_zero_or_more pred p).2 <= remaining p)%nat.
Proof.
  unfold match_zero_or_more, remaining.
  pose proof (scan_rest_le pred (m_rest p) (cur_loc p)) as H.
  destruct (scan pred (m_rest p) (cur_loc p)) as [m [r rc']]. exact H.
Qed.

Lemma match_zero_or_more_lt pred p ch :
  cur p = Some ch -> pred ch = true ->
  (remaining (match_zero_or_more pred p).2 < remaining p)%nat.
Proof.
  unfold cur, match_zero_or_more, remaining.
  destruct (m_rest p) as [|c s] eqn:E; [discriminate|].
  intros [= ->] Hp.
  pose proof (scan_first pred ch s (cur_loc p) Hp) as H.
  destruct (scan pred (String ch s) (cur_loc p)) as [m [r rc']].
  simpl in *. lia.
Qed.

Lemma next_le p : (remaining (next p) <= remaining p)%nat.
Proof. destruct p as [o [|ch r] rw c e]; cbv [next remaining m_rest]; simpl; lia. Qed.

Lemma next_lt p : at_eof p = false -> (remaining (next p) < remaining p)%nat.
Proof.
  destruct p as [o [|ch r] rw c e]; cbv [next remaining at_eof m_rest]; simpl;
    [discriminate|lia].
Qed.

Lemma cur_is_not_eof p ch : cur_is p ch = true -> at_eof p = false.
Proof. unfold cur_is, cur, at_eof. destruct (m_rest p); [discriminate|reflexivity]. Qed.

Lemma cur_is_cur p ch : cur_is p ch = true -> cur p = Some ch.
Proof.
  unfold cur_is. destruct (cur p) as [c|]; [|discriminate].
  intros H. apply Ascii.eqb_eq in H. now subst.
Qed.

Lemma skip_newline_le p : (remaining (skip_newline p) <= remaining p)%nat.
Proof.
  unfold skip_newline.
  assert (H1 : (remaining (if cur_is p CR then next p else p) <= remaining p)%nat).
  { destruct (cur_is p CR); [apply next_le|lia]. }
  destruct (cur_is _ LF); [|exact H1].
  etransitivity; [apply next_le|exact H1].
Qed.

Lemma add_error_at_remaining msg loc p : remaining (add_error_at msg loc p) = 0.
Proof. reflexivity. Qed.

Lemma at_eof_remaining p : at_eof p = true <-> remaining p = 0.
Proof.
  unfold at_eof, remaining. destruct (m_rest p); simpl; split; congruence.
Qed.

End ScannerFacts.

(** ** The loops of the paragraph parser end *)

Section ParagraphLoops.
Import Parse Paragraphs.

Lemma get_fieldvalue_loop_returns fuel :
  forall fieldvalue p,
    (remaining p < fuel)%nat ->
    exists v p', PghParser.get_fieldvalue_loop fuel fieldvalue p = Returns (v, p')
                 /\ (remaining p' <= remaining p)%nat.
Proof.
  induction fuel as [|fuel IH]; intros fv p Hlt; [lia|].
  cbn [PghParser.get_fieldvalue_loop]. unfold match_until.
  pose proof (match_zero_or_more_le (fun ch => negb (is_lineend_ch ch)) p) as H1.
  destruct (match_zero_or_more _ p) as [line p1]. simpl in H1.
  pose proof (skip_newline_le p1) as H2.
  destruct (cur_is (skip_newline p1) " ") eqn:Esp; simpl.
  2: { eexists _, _; split; [reflexivity|lia]. }
  pose proof (match_zero_or_more_lt is_tab_space (skip_newline p1) " "
                (cur_is_cur _ _ Esp) eq_refl) as H3.
  unfold skip_tabs_spaces.
  destruct (match_zero_or_more is_tab_space (skip_newline p1)) as [spacing p3].
  simpl in H3.
  destruct (is_lineend (cur p3)).
  - eexists _, _; split; [reflexivity|]. unfold add_error.
    rewrite add_error_at_remaining. lia.
  - destruct (IH ((fv +:+ line) +:+ PghParser.newline +:+ spacing) p3)
      as (v & p' & Hv & Hle); [lia|].
    exists v, p'. split; [exact Hv|lia].
Qed.

Lemma get_fieldvalue_returns p :
  exists v p', PghParser.get_fieldvalue p = Returns (v, p')
               /\ (remaining p' <= remaining p)%nat.
Proof. apply get_fieldvalue_loop_returns. unfold remaining. lia. Qed.

Lemma get_fieldname_le p : (remaining (PghParser.get_fieldname p).2 <= remaining p)%nat.
Proof.
  unfold PghParser.get_fieldname.
  pose proof (match_zero_or_more_le is_alphanumdash p) as H.
  destruct (match_zero_or_more is_alphanumdash p) as [n p1]. simpl in H.
  destruct (bool_decide _); simpl; [|exact H].
  unfold add_error. rewrite add_error_at_remaining. lia.
Qed.

Lemma skip_line_lt p ch :
  cur p = Some ch -> is_lineend_ch ch = false ->
  (remaining (skip_line p) < remaining p)%nat.
Proof.
  intros Hc Hl. unfold skip_line, match_until.
  pose proof (match_zero_or_more_lt (fun c => negb (is_lineend_ch c)) p ch Hc) as H.
  cbv beta in H. rewrite Hl in H. specialize (H eq_refl).
  pose proof (skip_newline_le (match_zero_or_more (fun c => negb (is_lineend_ch c)) p).2).
  lia.
Qed.

(** A turn of [get_paragraph] returns, and it consumes something unless it
    starts at the end of the text. *)
Lemma get_paragraph_loop_returns fuel :
  forall fields p,
    (remaining p < fuel)%nat ->
    exists fields' p',
      PghParser.get_paragraph_loop fuel fields p = Returns (fields', p')
      /\ (remaining p' <= remaining p)%nat
      /\ (at_eof p = false -> (remaining p' < remaining p)%nat).
Proof.
  induction fuel as [|fuel IH]; intros fields p Hlt; [lia|].
  cbn [PghParser.get_paragraph_loop].
  destruct (cur_is p "#") eqn:Ehash.
  - pose proof (skip_line_lt p "#" (cur_is_cur _ _ Ehash) eq_refl) as H1.
    destruct (negb (is_lineend (cur (skip_line p)))).
    + destruct (IH fields (skip_line p)) as (f' & p' & Hr & Hle & _); [lia|].
      exists f', p'. repeat split; [exact Hr|lia|lia].
    + eexists _, _; repeat split; [lia|lia].
  - pose proof (get_fieldname_le p) as H1.
    destruct (PghParser.get_fieldname p) as [fieldname p1]. simpl in H1.
    destruct (cur_is p1 ":") eqn:Ecolon; simpl.
    2: { eexists _, _; split; [reflexivity|]. unfold add_error.
         rewrite add_error_at_remaining. split; [lia|].
         intros Hne. destruct (remaining p) eqn:E; [|lia].
         apply at_eof_remaining in E. congruence. }
    destruct (PghParser.contains fields fieldname).
    { eexists _, _; split; [reflexivity|].
      rewrite add_error_at_remaining. split; [lia|].
      intros Hne. destruct (remaining p) eqn:E; [|lia].
      apply at_eof_remaining in E. congruence. }
    pose proof (next_lt p1 (cur_is_not_eof _ _ Ecolon)) as H2.
    pose proof (match_zero_or_more_le is_tab_space (next p1)) as H3.
    unfold skip_tabs_spaces.
    destruct (get_fieldvalue_returns (match_zero_or_more is_tab_space (next p1)).2)
      as (v & p4 & Hv & H4).
    rewrite Hv. cbn [mbind Outcome_bind].
    destruct (negb (is_lineend (cur p4))).
    + destruct (IH (PghParser.emplace fieldname
                      (v, cur_rowcol (match_zero_or_more is_tab_space (next p1)).2)
                      fields) p4)
        as (f' & p' & Hr & Hle & _); [lia|].
      exists f', p'. repeat split; [exact Hr|lia|lia].
    + eexists _, _; repeat split; [lia|lia].
Qed.

Lemma get_paragraph_returns p :
  exists fields' p',
    PghParser.get_paragraph p = Returns (fields', p')
    /\ (at_eof p = false -> (remaining p' < remaining p)%nat).
Proof.
  destruct (get_paragraph_loop_returns (S (remaining p)) ∅ p) as (f & p' & H & _ & Hlt);
    [lia|].
  exists f, p'. split; [exact H|exact Hlt].
Qed.

Lemma get_paragraphs_loop_returns fuel :
  forall paragraphs p,
    (remaining p < fuel)%nat ->
    exists r, PghParser.get_paragraphs_loop fuel paragraphs p = Returns r.
Proof.
  induction fuel as [|fuel IH]; intros ps p Hlt; [lia|].
  cbn [PghParser.get_paragraphs_loop].
  destruct (at_eof p) eqn:Eeof; [eexists; reflexivity|].
  destruct (get_paragraph_returns p) as (f & p1 & Hr & Hp).
  rewrite Hr. cbn [mbind Outcome_bind].
  apply IH.
  pose proof (match_zero_or_more_le is_lineend_ch p1). specialize (Hp Eeof). lia.
Qed.

(** [get_paragraphs] always returns: the document, or a formatted error. *)
Lemma get_paragraphs_total text origin :
  exists r, PghParser.get_paragraphs text origin = Returns r.
Proof.
  unfold PghParser.get_paragraphs.
  destruct (get_paragraphs_loop_returns
              (S (String.length (m_rest (skip_whitespace
                    (init text origin {| row := 0; column := 0 |})).2))) []
              (skip_whitespace (init text origin {| row := 0; column := 0 |})).2)
    as ([ps p] & Hr); [unfold remaining; lia|].
  rewrite Hr. cbn [mbind Outcome_bind].
  destruct (get_error p); eexists; reflexivity.
Qed.

End ParagraphLoops.

(** ** The field extraction protocol *)

Section FieldExtraction.
Import ParagraphParser.

(** C7. [required_field] removes and returns the field when it is present
    and otherwise appends the name to the missing fields, leaving the fields
    as they are; [error_info] gives an error exactly when fields are left or
    a required field was missing, and that error lists under "CONTROL" the
    names of the fields left and the missing names as recorded. *)
Theorem field_extraction_protocol
  (fieldname name : string) (out : string * Parse.TextRowCol) (pp : ParagraphParser.t) :
  required_field fieldname out pp
  = match fields pp !! fieldname with
    | Some field =>
        (field, {| fields := delete fieldname (fields pp);
                   missing_fields := missing_fields pp;
                   expected_types := expected_types pp |})
    | None =>
        (out, {| fields := fields pp;
                 missing_fields := missing_fields pp ++ [fieldname];
                 expected_types := expected_types pp |})
    end
  /\ match error_info name pp with
     | Some err =>
         (fields pp ≠ ∅ \/ missing_fields pp ≠ [])
         /\ ParseControlErrorInfo.extra_fields err
            = {["CONTROL" := extract_keys (fields pp)]}
         /\ ParseControlErrorInfo.missing_fields err
            = {["CONTROL" := missing_fields pp]}
         /\ ParseControlErrorInfo.name err = name
     | None => fields pp = ∅ /\ missing_fields pp = []
     end
  /\ NoDup (extract_keys (fields pp))
  /\ (forall k, k ∈ extract_keys (fields pp) <-> is_Some (fields pp !! k)).
Proof.
  split; [|split; [|split]].
  - unfold required_field, remove_field. destruct (fields pp !! fieldname); reflexivity.
  - unfold error_info, is_empty.
    destruct (bool_decide (fields pp = ∅)) eqn:Ef;
      destruct (bool_decide (missing_fields pp = [])) eqn:Em; simpl.
    + apply bool_decide_eq_true in Ef, Em. now split.
    + apply bool_decide_eq_false in Em. rewrite !insert_empty. now auto.
    + apply bool_decide_eq_false in Ef. rewrite !insert_empty. now auto.
    + apply bool_decide_eq_false in Ef. rewrite !insert_empty. now auto.
  - apply NoDup_fst_map_to_list.
  - intros k. unfold extract_keys. rewrite list_elem_of_fmap. split.
    + intros ([k' v] & -> & Hin). apply elem_of_map_to_list in Hin. now exists v.
    + intros [v Hv]. exists (k, v). split; [reflexivity|].
      now apply elem_of_map_to_list.
Qed.

End FieldExtraction.

(** ** Texts of whitespace *)

Section Whitespace.
Import Parse Paragraphs.

Lemma skip_whitespace_all text origin rc :
  all_chars is_whitespace text = true ->
  at_eof (skip_whitespace (init text origin rc)).2 = true
  /\ m_err (skip_whitespace (init text origin rc)).2 = None.
Proof.
  intros Hws. unfold skip_whitespace.
  rewrite (match_zero_or_more_spec is_whitespace (init text origin rc) text EmptyString);
    [split; reflexivity| |exact Hws|reflexivity].
  simpl. now rewrite append_empty_r.
Qed.

Lemma parse_list_until_eof_whitespace {T} plural (f : ItemParser T) text origin rc :
  all_chars is_whitespace text = true ->
  parse_list_until_eof plural f (init text origin rc)
  = Returns (Some [], (skip_whitespace (init text origin rc)).2).
Proof.
  intros Hws. unfold parse_list_until_eof.
  now rewrite (proj1 (skip_whitespace_all text origin rc Hws)).
Qed.

Lemma parse_paragraphs_whitespace text origin :
  all_chars is_whitespace text = true ->
  parse_paragraphs text origin = Returns (inl []).
Proof.
  intros Hws. unfold parse_paragraphs, PghParser.get_paragraphs.
  destruct (skip_whitespace_all text origin {| row := 0; column := 0 |} Hws) as [He Hn].
  cbn [PghParser.get_paragraphs_loop]. rewrite He. cbn [mbind Outcome_bind].
  unfold get_error. now rewrite Hn.
Qed.

(** C9. On a text of whitespace only, the empty text included, each of the
    three list parsers returns the empty list, whatever the item parsers
    are. *)
Theorem list_parsers_empty_input
  {Expr : Type} (expr_empty : Expr)
  (parse_feature_name : ItemParser string)
  (parse_qualified_specifier : ItemParser (ParsedQualifiedSpecifier.t Expr))
  (str origin : string) (textrowcol : TextRowCol) :
  all_chars is_whitespace str = true ->
  parse_default_features_list parse_feature_name str origin textrowcol
  = Returns (inl [])
  /\ parse_qualified_specifier_list parse_qualified_specifier str origin textrowcol
     = Returns (inl [])
  /\ parse_dependencies_list expr_empty parse_qualified_specifier str origin textrowcol
     = Returns (inl []).
Proof.
  intros Hws.
  unfold parse_default_features_list, parse_qualified_specifier_list,
    parse_dependencies_list.
  rewrite !parse_list_until_eof_whitespace by exact Hws.
  repeat split; reflexivity.
Qed.

Lemma list_parsers_empty_input_witness :
  all_chars is_whitespace (" " +:+ String TAB (String CR (String LF EmptyString))) = true
  /\ parse_default_features_list PackageSpec.parse_feature_name
       (" " +:+ String TAB (String CR (String LF EmptyString))) "CONTROL"
       {| row := 3; column := 19 |}
     = Returns (inl [])
  /\ parse_dependencies_list EmptyString PackageSpec.parse_qualified_specifier
       EmptyString "CONTROL" {| row := 0; column := 0 |}
     = Returns (inl []).
Proof.
  split; [reflexivity|]. split.
  - apply (list_parsers_empty_input EmptyString PackageSpec.parse_feature_name
             PackageSpec.parse_qualified_specifier
             (" " +:+ String TAB (String CR (String LF EmptyString)))). reflexivity.
  - apply (list_parsers_empty_input EmptyString PackageSpec.parse_feature_name
             PackageSpec.parse_qualified_specifier EmptyString). reflexivity.
Defined.

End Whitespace.

(** ** Loading a cached package *)

Section CachedPackage.
Import Parse Paragraphs.
Context {BinaryParagraph PackageSpec : Type}.
Variable BinaryParagraph_of : Paragraph -> BinaryParagraph.
Variable spec_of : BinaryParagraph -> PackageSpec.
Variable spec_eqb : PackageSpec -> PackageSpec -> bool.
Variable spec_to_string : PackageSpec -> string.

(** C10. When the CONTROL file of the package directory can be read and its
    text holds no paragraph (it parses to the empty document, as every text
    of whitespace only does, the empty file included),
    [try_load_cached_package] takes the front of an empty vector: no branch
    turns this case into an error value. *)
Theorem try_load_cached_package_empty_document
  (fs : Filesystem) (package_dir : Path) (spec : PackageSpec) (text : string) :
  read_contents fs (path_join package_dir "CONTROL") = inl text ->
  parse_paragraphs text (path_join package_dir "CONTROL") = Returns (inl [])
  \/ all_chars is_whitespace text = true ->
  try_load_cached_package BinaryParagraph_of spec_of spec_eqb spec_to_string
    fs package_dir spec
  = Undefined "front() of an empty vector".
Proof.
  intros Hread Hdoc.
  assert (Hp : parse_paragraphs text (path_join package_dir "CONTROL") = Returns (inl [])).
  { destruct Hdoc as [H|H]; [exact H|now apply parse_paragraphs_whitespace]. }
  unfold try_load_cached_package, get_paragraphs. rewrite Hread, Hp. reflexivity.
Qed.

End CachedPackage.

Lemma try_load_cached_package_empty_document_witness :
  Paragraphs.read_contents fs_empty_control (Paragraphs.path_join "pkg" "CONTROL")
  = inl EmptyString
  /\ Paragraphs.try_load_cached_package
       (fun pgh : Paragraph => size pgh) (fun n : nat => n) Nat.eqb
       (fun n : nat => pretty n) fs_empty_control "pkg" 0
     = Undefined "front() of an empty vector".
Proof.
  split; [reflexivity|].
  apply (try_load_cached_package_empty_document
           (fun pgh : Paragraph => size pgh) (fun n : nat => n) Nat.eqb
           (fun n : nat => pretty n) fs_empty_control "pkg" 0 EmptyString).
  - reflexivity.
  - right. reflexivity.
Defined.

(** ** Loading a port directory *)

Section LoadingFacts.
Import Parse Paragraphs.
Context {SourceControlFile JsonValue JsonObject : Type}.
Variable Json_parse : string -> JsonValue + string.
Variable is_object : JsonValue -> bool.
Variable object : JsonValue -> JsonObject.
Variable parse_manifest_object : string -> JsonObject -> ParseExpected SourceControlFile.
Variable parse_control_file : string -> list Paragraph -> ParseExpected SourceControlFile.
Variable g_debugging : bool.
Variable print_error_message : list ParseControlErrorInfo.t -> list string.

Local Abbreviation try_load_port :=
  (try_load_port Json_parse is_object object parse_manifest_object parse_control_file).
Local Abbreviation try_load_port_control := (try_load_port_control parse_control_file).
Local Abbreviation load_overlay_ports_loop :=
  (load_overlay_ports_loop Json_parse is_object object parse_manifest_object
     parse_control_file).
Local Abbreviation load_registry_ports_loop :=
  (load_registry_ports_loop Json_parse is_object object parse_manifest_object
     parse_control_file).
Local Abbreviation try_load_all_registry_ports :=
  (try_load_all_registry_ports Json_parse is_object object parse_manifest_object
     parse_control_file).
Local Abbreviation load_overlay_ports_results :=
  (load_overlay_ports_results Json_parse is_object object parse_manifest_object
     parse_control_file).
Local Abbreviation load_overlay_ports :=
  (load_overlay_ports Json_parse is_object object parse_manifest_object
     parse_control_file g_debugging print_error_message).

Lemma get_paragraphs_file_returns (fs : Filesystem) (control_path : Path) :
  exists r, get_paragraphs fs control_path = Returns r.
Proof.
  unfold get_paragraphs. destruct (read_contents fs control_path).
  - apply get_paragraphs_total.
  - eexists; reflexivity.
Qed.

Lemma try_load_port_control_returns (fs : Filesystem) (port_directory : Path) :
  exists r, try_load_port_control fs port_directory = Returns r.
Proof.
  unfold Paragraphs.try_load_port_control.
  destruct (exists_ fs (path_join port_directory "CONTROL")).
  - destruct (get_paragraphs_file_returns fs (path_join port_directory "CONTROL"))
      as [[pghs|e] Hr]; rewrite Hr; eexists; reflexivity.
  - destruct (exists_ fs port_directory); eexists; reflexivity.
Qed.

(** C1, as the code has it. When the manifest can be read, the run ends if a
    control file is there too, and the manifest is loaded otherwise. When the
    manifest cannot be read but exists, the directory gets an error of its
    own, whether a control file is there or not; in the remaining case the
    loader returns as well. So the run ends exactly when the manifest is
    readable and a control file exists. *)
Theorem try_load_port_both_formats (fs : Filesystem) (port_directory : Path) :
  match read_contents fs (path_join port_directory "vcpkg.json") with
  | inl manifest_contents =>
      if exists_ fs (path_join port_directory "CONTROL")
      then try_load_port fs port_directory = Exits (both_files_message port_directory)
      else try_load_port fs port_directory
           = Returns (try_load_manifest_text Json_parse is_object object
                        parse_manifest_object manifest_contents
                        (path_join port_directory "vcpkg.json"))
  | inr _ =>
      if exists_ fs (path_join port_directory "vcpkg.json")
      then try_load_port fs port_directory
           = Returns (inr (error_named (filename port_directory)
                             ("Failed to load manifest file for port: "
                                +:+ path_join port_directory "vcpkg.json"
                                +:+ PghParser.newline)))
      else exists r, try_load_port fs port_directory = Returns r
  end.
Proof.
  unfold Paragraphs.try_load_port.
  destruct (read_contents fs (path_join port_directory "vcpkg.json")).
  - destruct (exists_ fs (path_join port_directory "CONTROL")); reflexivity.
  - destruct (exists_ fs (path_join port_directory "vcpkg.json")); [reflexivity|].
    apply try_load_port_control_returns.
Qed.

(** Without a readable manifest next to a control file the loader returns. *)
Lemma try_load_port_no_conflict (fs : Filesystem) (port_directory : Path) :
  both_files fs port_directory = false ->
  exists r, try_load_port fs port_directory = Returns r.
Proof.
  unfold both_files, Paragraphs.try_load_port. intros H.
  destruct (read_contents fs (path_join port_directory "vcpkg.json")).
  - rewrite H. eexists; reflexivity.
  - destruct (exists_ fs (path_join port_directory "vcpkg.json"));
      [eexists; reflexivity|apply try_load_port_control_returns].
Qed.

(** *** The batch loaders *)



(** The loop over names is the loop over the directories of the names that
    have an owner and a baseline path. *)
Lemma load_registry_ports_loop_paths (fs : Filesystem) (regs : RegistrySet)
  (ports : list string) :
  forall ret,
    load_registry_ports_loop fs regs ports ret
    = load_overlay_ports_loop fs (omap (baseline_path regs) ports) ret.
Proof.
  induction ports as [|port_name ports IH]; intros ret; [reflexivity|].
  cbn [Paragraphs.load_registry_ports_loop omap list_omap]. unfold baseline_path at 1.
  destruct (registry_for_port regs port_name) as [impl|]; [|apply IH].
  destruct (get_path_to_baseline_version impl port_name) as [path|]; [|apply IH].
  cbn [Paragraphs.load_overlay_ports_loop].
  destruct (try_load_port fs path) as [[spgh|err]| | |]; cbn [mbind Outcome_bind];
    try reflexivity; apply IH.
Qed.



End LoadingFacts.

(** *** The loaders on the example inputs *)

(** C1 as stated fails: both files exist in "p", the manifest cannot be
    read, and the loader returns an error for the directory instead of
    ending the run. *)
Lemma try_load_port_unreadable_manifest :
  Paragraphs.exists_ fs_unreadable_manifest (Paragraphs.path_join "p" "vcpkg.json") = true
  /\ Paragraphs.exists_ fs_unreadable_manifest (Paragraphs.path_join "p" "CONTROL") = true
  /\ Demo.try_load_port fs_unreadable_manifest "p"
     = Returns (inr (Paragraphs.error_named "p"
                       ("Failed to load manifest file for port: p/vcpkg.json"
                          +:+ Paragraphs.PghParser.newline)))
  /\ ~ (exists message, Demo.try_load_port fs_unreadable_manifest "p" = Exits message).
Proof.
  split; [reflexivity|]. split; [reflexivity|].
  assert (H : Demo.try_load_port fs_unreadable_manifest "p"
              = Returns (inr (Paragraphs.error_named "p"
                                ("Failed to load manifest file for port: p/vcpkg.json"
                                   +:+ Paragraphs.PghParser.newline))))
    by reflexivity.
  split; [exact H|]. intros [message Hm]. rewrite H in Hm. discriminate.
Qed.




(** ** The list parsers *)

Section ListFacts.
Import Parse.
Context {T : Type}.
Variable plural_item_name : string.
Variable f : ItemParser T.

Local Abbreviation loop := (parse_list_loop plural_item_name f).

Lemma skip_whitespace_le p : (remaining (skip_whitespace p).2 <= remaining p)%nat.
Proof. apply match_zero_or_more_le. Qed.

(** Reading items consumes at least the commas between them. *)
Lemma reads_remaining p xs p' :
  reads f p xs p' -> (length xs + remaining p' <= remaining p)%nat.
Proof.
  induction 1 as [p|p x p1 xs p' Hf Hle Hcomma _ IH]; [simpl; lia|].
  pose proof (skip_whitespace_le p1) as H1.
  pose proof (next_lt _ (cur_is_not_eof _ _ Hcomma)) as H2.
  pose proof (skip_whitespace_le (next (skip_whitespace p1).2)) as H3.
  simpl. lia.
Qed.

(** The loop follows a reading: it arrives at [p'] with the items appended
    and the fuel of one turn per item spent. *)
Lemma loop_reads p xs p' :
  reads f p xs p' ->
  forall fuel ret, loop (length xs + fuel) ret p = loop fuel (ret ++ xs) p'.
Proof.
  induction 1 as [p|p x p1 xs p' Hf Hle Hcomma _ IH]; intros fuel ret.
  - now rewrite app_nil_r.
  - cbn [length Nat.add parse_list_loop]. rewrite Hf.
    rewrite (cur_is_not_eof _ _ Hcomma), Hcomma. cbn [negb].
    rewrite IH. now rewrite <- app_assoc.
Qed.

(** The vector only grows. *)
Lemma loop_extends fuel :
  forall ret p l pf, loop fuel ret p = Returns (Some l, pf) -> exists rest, l = ret ++ rest.
Proof.
  induction fuel as [|fuel IH]; intros ret p l pf; [discriminate|].
  cbn [parse_list_loop]. destruct (f p) as [[x|] p1]; [|discriminate].
  destruct (at_eof (skip_whitespace p1).2).
  { intros [= <- <-]. now exists [x]. }
  destruct (negb (cur_is (skip_whitespace p1).2 ",")); [discriminate|].
  intros H. apply IH in H as [rest ->]. exists (x :: rest). now rewrite <- app_assoc.
Qed.

(** The last turn of the loop: the item parser fails, or the item is
    followed by the end of the text or by something that is not a comma. *)
Lemma loop_last_turn fuel ret p r p1 :
  f p = (r, p1) ->
  r = None \/ cur_is (skip_whitespace p1).2 "," = false ->
  loop (S fuel) ret p
  = Returns match r with
            | None => (None, p1)
            | Some x =>
                if at_eof (skip_whitespace p1).2
                then (Some (ret ++ [x]), (skip_whitespace p1).2)
                else (None,
                      add_error ("expected ',' or end of text in "
                                   +:+ plural_item_name +:+ " list")
                        (skip_whitespace p1).2)
            end.
Proof.
  intros Hf Hstop. cbn [parse_list_loop]. rewrite Hf.
  destruct r as [x|]; [|reflexivity].
  destruct Hstop as [|Hc]; [discriminate|].
  destruct (at_eof (skip_whitespace p1).2); [reflexivity|].
  now rewrite Hc.
Qed.

(** Readings follow each other. *)
Lemma reads_app p xs p' ys p'' :
  reads f p xs p' -> reads f p' ys p'' -> reads f p (xs ++ ys) p''.
Proof.
  induction 1 as [p|p x p1 xs p' Hf Hle Hcomma _ IH]; intros Hys; [exact Hys|].
  cbn [app]. econstructor; [exact Hf|exact Hle|exact Hcomma|exact (IH Hys)].
Qed.

Lemma at_eof_cur_is p ch : at_eof p = true -> cur_is p ch = false.
Proof. unfold at_eof, cur_is, cur. now destruct (m_rest p). Qed.

(** The loop after a reading, with the fuel that [parse_list_until_eof]
    gives it: its last turn decides. *)
Lemma loop_after_reads (p0 : ParserBase) (xs : list T) (p' : ParserBase)
  (r : option T) (p1 : ParserBase) :
  reads f p0 xs p' ->
  f p' = (r, p1) ->
  r = None \/ cur_is (skip_whitespace p1).2 "," = false ->
  loop (S (String.length (m_rest p0))) [] p0
  = Returns match r with
            | None => (None, p1)
            | Some x =>
                if at_eof (skip_whitespace p1).2
                then (Some (xs ++ [x]), (skip_whitespace p1).2)
                else (None,
                      add_error ("expected ',' or end of text in "
                                   +:+ plural_item_name +:+ " list")
                        (skip_whitespace p1).2)
            end.
Proof.
  intros Hreads Hf Hstop.
  pose proof (reads_remaining _ _ _ Hreads) as Hlen. unfold remaining in Hlen.
  replace (S (String.length (m_rest p0)))
    with (length xs + S (String.length (m_rest p0) - length xs)) by lia.
  rewrite (loop_reads _ _ _ Hreads). cbn [app].
  now apply loop_last_turn.
Qed.

(** C4, as the code has it. After the items [xs], each followed by a comma,
    the item parser is run once more at [p']; the text ends with a comma and
    whitespace exactly when [p'] is at the end of the text. If the item parser
    fails there, the list fails and the parser is as the item parser left
    it, diagnostic included: the loop adds no error of its own, and this is
    so for every failure of an item. The error "expected ',' or end of text
    in ... list" is raised when an item is followed, after whitespace, by a
    character that is not a comma; it is never raised after a trailing
    comma, where the outcome is that of the item parser at the end of the
    text. *)
Theorem list_ends_at_item_or_separator
  (parser : ParserBase) (xs : list T) (p' : ParserBase) (r : option T) (p1 : ParserBase) :
  at_eof (skip_whitespace parser).2 = false ->
  reads f (skip_whitespace parser).2 xs p' ->
  f p' = (r, p1) ->
  r = None \/ cur_is (skip_whitespace p1).2 "," = false ->
  parse_list_until_eof plural_item_name f parser
  = Returns match r with
            | None => (None, p1)
            | Some x =>
                if at_eof (skip_whitespace p1).2
                then (Some (xs ++ [x]), (skip_whitespace p1).2)
                else (None,
                      add_error ("expected ',' or end of text in "
                                   +:+ plural_item_name +:+ " list")
                        (skip_whitespace p1).2)
            end
  /\ (at_eof p' = true ->
      (remaining p1 <= remaining p')%nat ->
      parse_list_until_eof plural_item_name f parser
      = Returns match r with
                | None => (None, p1)
                | Some x => (Some (xs ++ [x]), (skip_whitespace p1).2)
                end).
Proof.
  intros Hne Hreads Hf Hstop.
  assert (Hgen : parse_list_until_eof plural_item_name f parser
                 = Returns match r with
                           | None => (None, p1)
                           | Some x =>
                               if at_eof (skip_whitespace p1).2
                               then (Some (xs ++ [x]), (skip_whitespace p1).2)
                               else (None,
                                     add_error ("expected ',' or end of text in "
                                                  +:+ plural_item_name +:+ " list")
                                       (skip_whitespace p1).2)
                           end).
  { unfold parse_list_until_eof. rewrite Hne.
    destruct r as [x|].
    - destruct Hstop as [Hnone|Hcomma]; [discriminate|].
      now rewrite (loop_after_reads _ _ _ _ _ Hreads Hf (or_intror Hcomma)).
    - now rewrite (loop_after_reads _ _ _ _ _ Hreads Hf (or_introl eq_refl)). }
  split; [exact Hgen|].
  intros Heof Hle. rewrite Hgen. destruct r as [x|]; [|reflexivity].
  assert (Hend : at_eof (skip_whitespace p1).2 = true).
  { apply at_eof_remaining. apply at_eof_remaining in Heof.
    pose proof (skip_whitespace_le p1). lia. }
  now rewrite Hend.
Qed.

End ListFacts.

Section DependencyFacts.
Import Parse.
Context {Expr : Type}.
Variable expr_empty : Expr.
Variable parse_qualified_specifier : ItemParser (ParsedQualifiedSpecifier.t Expr).

Local Abbreviation dependency_item :=
  (parse_dependency expr_empty parse_qualified_specifier).
Local Abbreviation no_triplet :=
  (fun pqs : ParsedQualifiedSpecifier.t Expr => ParsedQualifiedSpecifier.triplet pqs = None).

Lemma parse_dependency_spec parser pqs parser' :
  parse_qualified_specifier parser = (Some pqs, parser') ->
  dependency_item parser
  = match ParsedQualifiedSpecifier.triplet pqs with
    | Some _ =>
        (None, add_error_at "triplet specifier not allowed in this context"
                 (cur_loc parser) parser')
    | None => (Some (to_dependency expr_empty pqs), parser')
    end.
Proof.
  intros H. unfold parse_dependency.
  rewrite H. destruct (ParsedQualifiedSpecifier.triplet pqs); reflexivity.
Qed.

(** A reading of specifiers without triplet is a reading of dependencies. *)
Lemma reads_dependencies p xs p' :
  reads parse_qualified_specifier p xs p' ->
  Forall no_triplet xs ->
  reads dependency_item p (map (to_dependency expr_empty) xs) p'.
Proof.
  induction 1 as [p|p x p1 xs p' Hf Hle Hcomma _ IH]; intros Hall; [constructor|].
  apply Forall_cons in Hall as [Hx Hxs]. simpl.
  econstructor; [|exact Hle|exact Hcomma|exact (IH Hxs)].
  rewrite (parse_dependency_spec _ _ _ Hf). now rewrite Hx.
Qed.

(** On a text that the specifier list accepts without any triplet, the
    dependency loop does the same turns and converts every item. *)
Lemma dependency_loop_converts fuel :
  forall ret p l pf,
    parse_list_loop "dependencies" parse_qualified_specifier fuel ret p
    = Returns (Some l, pf) ->
    Forall no_triplet l ->
    parse_list_loop "dependencies" dependency_item fuel
      (map (to_dependency expr_empty) ret) p
    = Returns (Some (map (to_dependency expr_empty) l), pf).
Proof.
  induction fuel as [|fuel IH]; intros ret p l pf; [discriminate|].
  intros Hloop Hall.
  destruct (loop_extends _ _ _ _ _ _ _ Hloop) as [rest Hl].
  revert Hloop. cbn [parse_list_loop].
  destruct (parse_qualified_specifier p) as [[x|] p1] eqn:Hf; [|discriminate].
  rewrite (parse_dependency_spec _ _ _ Hf).
  destruct (at_eof (skip_whitespace p1).2) eqn:Heof.
  - intros [= <- <-].
    apply Forall_app in Hall as [_ Hx]. apply Forall_cons in Hx as [Hx _].
    rewrite Hx, Heof. now rewrite map_app.
  - destruct (negb (cur_is (skip_whitespace p1).2 ",")) eqn:Hc; [discriminate|].
    intros Hloop.
    destruct (loop_extends _ _ _ _ _ _ _ Hloop) as [rest' Hl'].
    assert (Hx : no_triplet x).
    { rewrite Hl' in Hall. apply Forall_app in Hall as [Hall _].
      apply Forall_app in Hall as [_ Hall]. now apply Forall_cons in Hall as [? _]. }
    rewrite Hx, Heof, Hc.
    specialize (IH _ _ _ _ Hloop Hall). now rewrite map_app in IH.
Qed.

(** C6. At an item that the specifier parser accepts with a triplet, after
    items without one: [parse_dependency] rejects the item with the error
    "triplet specifier not allowed in this context" placed where the item
    starts, and [parse_dependencies_list] fails with that error formatted;
    [parse_qualified_specifier_list] keeps the item, triplet included, in
    every list it returns for the text. An item without triplet becomes the
    dependency with its name, its features or the empty list, its platform
    expression or the empty one; a text that the specifier list accepts
    without any triplet is accepted as a dependency list, item by item.
    And [parse_qualified_specifier_list] accepts the text that
    [parse_dependencies_list] has just rejected: when the text ends after
    the item with the triplet it returns the items read, that one last;
    when a comma and further items follow, the last of them at the end of
    the text, it returns them all, the item with its triplet among them. *)
Theorem dependencies_reject_triplets
  (str origin : string) (textrowcol : TextRowCol)
  (xs : list (ParsedQualifiedSpecifier.t Expr)) (p' : ParserBase)
  (q : ParsedQualifiedSpecifier.t Expr) (p1 : ParserBase) :
  at_eof (skip_whitespace (init str origin textrowcol)).2 = false ->
  reads parse_qualified_specifier (skip_whitespace (init str origin textrowcol)).2 xs p' ->
  Forall no_triplet xs ->
  parse_qualified_specifier p' = (Some q, p1) ->
  is_Some (ParsedQualifiedSpecifier.triplet q) ->
  m_err p1 = None ->
  dependency_item p'
  = (None, add_error_at "triplet specifier not allowed in this context" (cur_loc p') p1)
  /\ parse_dependencies_list expr_empty parse_qualified_specifier str origin textrowcol
     = Returns (inr (format {| pe_origin := m_origin p1;
                               pe_row := row (cur_loc p');
                               pe_column := column (cur_loc p');
                               pe_message :=
                                 "triplet specifier not allowed in this context" |}))
  /\ (forall l,
        parse_qualified_specifier_list parse_qualified_specifier str origin textrowcol
        = Returns (inl l) ->
        exists rest, l = xs ++ q :: rest)
  /\ (forall parser pqs parser',
        parse_qualified_specifier parser = (Some pqs, parser') ->
        ParsedQualifiedSpecifier.triplet pqs = None ->
        dependency_item parser
        = (Some {| Dependency.name := ParsedQualifiedSpecifier.name pqs;
                   Dependency.features :=
                     default [] (ParsedQualifiedSpecifier.features pqs);
                   Dependency.platform :=
                     default expr_empty (ParsedQualifiedSpecifier.platform pqs) |},
           parser'))
  /\ (forall str' origin' textrowcol' l,
        parse_qualified_specifier_list parse_qualified_specifier str' origin' textrowcol'
        = Returns (inl l) ->
        Forall no_triplet l ->
        parse_dependencies_list expr_empty parse_qualified_specifier str' origin' textrowcol'
        = Returns (inl (map (to_dependency expr_empty) l)))
  /\ (at_eof (skip_whitespace p1).2 = true ->
      parse_qualified_specifier_list parse_qualified_specifier str origin textrowcol
      = Returns (inl (xs ++ [q])))
  /\ (forall ys p2 z p3,
        (remaining p1 <= remaining p')%nat ->
        cur_is (skip_whitespace p1).2 "," = true ->
        reads parse_qualified_specifier
          (skip_whitespace (next (skip_whitespace p1).2)).2 ys p2 ->
        parse_qualified_specifier p2 = (Some z, p3) ->
        at_eof (skip_whitespace p3).2 = true ->
        parse_qualified_specifier_list parse_qualified_specifier str origin textrowcol
        = Returns (inl (xs ++ q :: ys ++ [z]))).
Proof.
  intros Hne Hreads Hall Hq [t Ht] Herr.
  set (p0 := (skip_whitespace (init str origin textrowcol)).2) in *.
  pose proof (reads_remaining _ _ _ _ Hreads) as Hlen. unfold remaining in Hlen.
  assert (Hdep : dependency_item p'
                 = (None, add_error_at "triplet specifier not allowed in this context"
                            (cur_loc p') p1)).
  { rewrite (parse_dependency_spec _ _ _ Hq). now rewrite Ht. }
  split; [exact Hdep|]. split; [|split; [|split; [|split; [|split]]]].
  - unfold parse_dependencies_list.
    unfold parse_list_until_eof. fold p0. rewrite Hne.
    rewrite (loop_after_reads "dependencies" dependency_item p0
               (map (to_dependency expr_empty) xs) p' None _
               (reads_dependencies _ _ _ Hreads Hall) Hdep (or_introl eq_refl)).
    cbn [mbind Outcome_bind finish_list get_error add_error_at m_err].
    rewrite Herr. reflexivity.
  - intros l. unfold parse_qualified_specifier_list, parse_list_until_eof.
    fold p0. rewrite Hne.
    replace (S (String.length (m_rest p0)))
      with (length xs + S (String.length (m_rest p0) - length xs)) by lia.
    rewrite (loop_reads _ _ _ _ _ Hreads). cbn [app parse_list_loop]. rewrite Hq.
    destruct (at_eof (skip_whitespace p1).2).
    { cbn [mbind Outcome_bind finish_list]. intros [= <-]. now exists []. }
    destruct (negb (cur_is (skip_whitespace p1).2 ",")).
    { cbn [mbind Outcome_bind finish_list]. destruct (get_error _); discriminate. }
    destruct (parse_list_loop _ _ _ _ _) as [[[l'|] pf]| | |] eqn:Hloop;
      cbn [mbind Outcome_bind finish_list]; try discriminate.
    + intros [= <-]. apply loop_extends in Hloop as [rest ->].
      exists rest. now rewrite <- app_assoc.
    + destruct (get_error pf); discriminate.
  - intros parser pqs parser' Hp Hnone.
    rewrite (parse_dependency_spec _ _ _ Hp). now rewrite Hnone.
  - intros str' origin' rc' l.
    unfold parse_qualified_specifier_list, parse_dependencies_list, parse_list_until_eof.
    destruct (at_eof (skip_whitespace (init str' origin' rc')).2).
    { cbn [mbind Outcome_bind finish_list]. now intros [= <-] _. }
    destruct (parse_list_loop "dependencies" parse_qualified_specifier _ _ _)
      as [[[l'|] pf]| | |] eqn:Hloop; cbn [mbind Outcome_bind finish_list];
      try discriminate.
    + intros [= <-] Hl.
      pose proof (dependency_loop_converts _ [] _ _ _ Hloop Hl) as Hdeps.
      cbn [map] in Hdeps. rewrite Hdeps. reflexivity.
    + destruct (get_error pf); discriminate.
  - intros Heof.
    unfold parse_qualified_specifier_list, parse_list_until_eof. fold p0. rewrite Hne.
    rewrite (loop_after_reads "dependencies" parse_qualified_specifier p0 xs p'
               (Some q) p1 Hreads Hq (or_intror (at_eof_cur_is _ _ Heof))).
    now rewrite Heof.
  - intros ys p2 z p3 Hle Hcomma Hys Hz Heof.
    assert (Hall' : reads parse_qualified_specifier p0 ((xs ++ [q]) ++ ys) p2).
    { apply (reads_app _ _ _ _ _ _ (reads_app _ _ _ _ _ _ Hreads
               (reads_cons _ _ _ _ _ _ Hq Hle Hcomma (reads_nil _ _))) Hys). }
    unfold parse_qualified_specifier_list, parse_list_until_eof. fold p0. rewrite Hne.
    rewrite (loop_after_reads "dependencies" parse_qualified_specifier p0 _ p2
               (Some z) p3 Hall' Hz (or_intror (at_eof_cur_is _ _ Heof))).
    rewrite Heof. cbn [mbind Outcome_bind finish_list].
    now rewrite <- !app_assoc.
Qed.

End DependencyFacts.

(** *** The list parsers on example texts *)

(** C4 as stated fails: on "a," the default-features parser fails with the
    error of the item parser, run at the end of the text, and not with
    "expected ',' or end of text in default features list"; so does the
    specifier list parser. *)
Lemma trailing_comma_item_error :
  parse_default_features_list PackageSpec.parse_feature_name "a," "CONTROL"
    {| Parse.row := 0; Parse.column := 0 |}
  = Returns (inr "CONTROL:1:3: error: expected feature name (must be lowercase, digits, '-')")
  /\ parse_qualified_specifier_list PackageSpec.parse_qualified_specifier "a, " "CONTROL"
       {| Parse.row := 0; Parse.column := 0 |}
     = Returns (inr "CONTROL:1:4: error: expected package name (must be lowercase, digits, '-')")
  /\ (exists parser,
        parse_list_until_eof "default features" PackageSpec.parse_feature_name
          (Parse.init "a," "CONTROL" {| Parse.row := 0; Parse.column := 0 |})
        = Returns (None, parser)
        /\ Parse.pe_message <$> Parse.get_error parser
           = Some "expected feature name (must be lowercase, digits, '-')"
        /\ Parse.pe_message <$> Parse.get_error parser
           <> Some "expected ',' or end of text in default features list").
Proof.
  split; [reflexivity|]. split; [reflexivity|].
  eexists. split; [reflexivity|]. split; [reflexivity|discriminate].
Qed.

Lemma list_ends_at_item_or_separator_witness :
  (reads PackageSpec.parse_feature_name
     (Parse.skip_whitespace (Parse.init "a," "CONTROL" {| Parse.row := 0; Parse.column := 0 |})).2
     ["a"]
     {| Parse.m_origin := "CONTROL"; Parse.m_rest := EmptyString;
        Parse.m_row := 1; Parse.m_column := 3; Parse.m_err := None |}
   /\ parse_list_until_eof "default features" PackageSpec.parse_feature_name
        (Parse.init "a," "CONTROL" {| Parse.row := 0; Parse.column := 0 |})
      = Returns (None,
                 Parse.add_error "expected feature name (must be lowercase, digits, '-')"
                   {| Parse.m_origin := "CONTROL"; Parse.m_rest := EmptyString;
                      Parse.m_row := 1; Parse.m_column := 3; Parse.m_err := None |}))
  /\ parse_list_until_eof "default features" PackageSpec.parse_feature_name
       (Parse.init "a b" "CONTROL" {| Parse.row := 0; Parse.column := 0 |})
     = Returns (None,
                Parse.add_error "expected ',' or end of text in default features list"
                  {| Parse.m_origin := "CONTROL"; Parse.m_rest := "b";
                     Parse.m_row := 1; Parse.m_column := 3; Parse.m_err := None |}).
Proof.
  assert (Hreads : reads PackageSpec.parse_feature_name
            (Parse.skip_whitespace
               (Parse.init "a," "CONTROL" {| Parse.row := 0; Parse.column := 0 |})).2
            ["a"]
            {| Parse.m_origin := "CONTROL"; Parse.m_rest := EmptyString;
               Parse.m_row := 1; Parse.m_column := 3; Parse.m_err := None |}).
  { eapply reads_cons; [reflexivity|vm_compute; lia|reflexivity|apply reads_nil]. }
  split; [split; [exact Hreads|]|].
  - exact (proj1 (list_ends_at_item_or_separator "default features"
                    PackageSpec.parse_feature_name
                    (Parse.init "a," "CONTROL" {| Parse.row := 0; Parse.column := 0 |})
                    ["a"] _ None _ eq_refl Hreads eq_refl (or_introl eq_refl))).
  - exact (proj1 (list_ends_at_item_or_separator "default features"
                    PackageSpec.parse_feature_name
                    (Parse.init "a b" "CONTROL" {| Parse.row := 0; Parse.column := 0 |})
                    [] _ (Some "a")
                    {| Parse.m_origin := "CONTROL"; Parse.m_rest := " b";
                       Parse.m_row := 1; Parse.m_column := 2; Parse.m_err := None |}
                    eq_refl (reads_nil _ _) eq_refl (or_intror eq_refl))).
Defined.

Lemma dependencies_reject_triplets_witness :
  reads PackageSpec.parse_qualified_specifier
    (Parse.skip_whitespace
       (Parse.init "zlib, a:x64-windows" "CONTROL" {| Parse.row := 0; Parse.column := 0 |})).2
    [{| ParsedQualifiedSpecifier.name := "zlib";
        ParsedQualifiedSpecifier.features := None;
        ParsedQualifiedSpecifier.triplet := None;
        ParsedQualifiedSpecifier.platform := None |}]
    {| Parse.m_origin := "CONTROL"; Parse.m_rest := "a:x64-windows";
       Parse.m_row := 1; Parse.m_column := 7; Parse.m_err := None |}
  /\ parse_dependencies_list EmptyString PackageSpec.parse_qualified_specifier
       "zlib, a:x64-windows" "CONTROL" {| Parse.row := 0; Parse.column := 0 |}
     = Returns (inr "CONTROL:1:7: error: triplet specifier not allowed in this context")
  /\ parse_qualified_specifier_list PackageSpec.parse_qualified_specifier
       "zlib, a:x64-windows" "CONTROL" {| Parse.row := 0; Parse.column := 0 |}
     = Returns (inl [{| ParsedQualifiedSpecifier.name := "zlib";
                        ParsedQualifiedSpecifier.features := None;
                        ParsedQualifiedSpecifier.triplet := None;
                        ParsedQualifiedSpecifier.platform := None |};
                     {| ParsedQualifiedSpecifier.name := "a";
                        ParsedQualifiedSpecifier.features := None;
                        ParsedQualifiedSpecifier.triplet := Some "x64-windows";
                        ParsedQualifiedSpecifier.platform := None |}])
  /\ parse_dependencies_list EmptyString PackageSpec.parse_qualified_specifier
       "a, b[feat1,feat2] (windows)" "CONTROL" {| Parse.row := 0; Parse.column := 0 |}
     = Returns (inl [{| Dependency.name := "a"; Dependency.features := [];
                        Dependency.platform := EmptyString |};
                     {| Dependency.name := "b"; Dependency.features := ["feat1"; "feat2"];
                        Dependency.platform := "windows" |}]).
Proof.
  assert (Hreads : reads PackageSpec.parse_qualified_specifier
            (Parse.skip_whitespace
               (Parse.init "zlib, a:x64-windows" "CONTROL"
                  {| Parse.row := 0; Parse.column := 0 |})).2
            [{| ParsedQualifiedSpecifier.name := "zlib";
                ParsedQualifiedSpecifier.features := None;
                ParsedQualifiedSpecifier.triplet := None;
                ParsedQualifiedSpecifier.platform := None |}]
            {| Parse.m_origin := "CONTROL"; Parse.m_rest := "a:x64-windows";
               Parse.m_row := 1; Parse.m_column := 7; Parse.m_err := None |}).
  { eapply reads_cons; [reflexivity|vm_compute; lia|reflexivity|apply reads_nil]. }
  assert (Hall : Forall (fun pqs : ParsedQualifiedSpecifier.t string =>
                           ParsedQualifiedSpecifier.triplet pqs = None)
                   [{| ParsedQualifiedSpecifier.name := "zlib";
                       ParsedQualifiedSpecifier.features := None;
                       ParsedQualifiedSpecifier.triplet := None;
                       ParsedQualifiedSpecifier.platform := None |}])
    by (repeat constructor).
  destruct (dependencies_reject_triplets EmptyString PackageSpec.parse_qualified_specifier
              "zlib, a:x64-windows" "CONTROL" {| Parse.row := 0; Parse.column := 0 |}
              _ _
              {| ParsedQualifiedSpecifier.name := "a";
                 ParsedQualifiedSpecifier.features := None;
                 ParsedQualifiedSpecifier.triplet := Some "x64-windows";
                 ParsedQualifiedSpecifier.platform := None |}
              {| Parse.m_origin := "CONTROL"; Parse.m_rest := EmptyString;
                 Parse.m_row := 1; Parse.m_column := 20; Parse.m_err := None |}
              eq_refl Hreads Hall
              eq_refl (ex_intro _ "x64-windows" eq_refl) eq_refl)
    as (_ & Hlist & _ & _ & Hconv & Haccepts & _).
  split; [exact Hreads|]. split; [exact Hlist|]. split; [exact (Haccepts eq_refl)|].
  apply (Hconv "a, b[feat1,feat2] (windows)" "CONTROL"
           {| Parse.row := 0; Parse.column := 0 |}
           [{| ParsedQualifiedSpecifier.name := "a";
               ParsedQualifiedSpecifier.features := None;
               ParsedQualifiedSpecifier.triplet := None;
               ParsedQualifiedSpecifier.platform := None |};
            {| ParsedQualifiedSpecifier.name := "b";
               ParsedQualifiedSpecifier.features := Some ["feat1"; "feat2"];
               ParsedQualifiedSpecifier.triplet := None;
               ParsedQualifiedSpecifier.platform := Some "windows" |}]).
  - reflexivity.
  - repeat constructor.
Defined.

(** ** Field values *)

Section FieldValueFacts.
Import Parse Paragraphs.

Lemma advance_append a b rc : advance (a +:+ b) rc = advance b (advance a rc).
Proof.
  revert rc. induction a as [|ch a IH]; intros rc; [reflexivity|].
  rewrite append_cons. simpl. apply IH.
Qed.

Lemma moved_moved p a r1 b r2 : moved (moved p a r1) b r2 = moved p (a +:+ b) r2.
Proof.
  unfold moved. cbn [m_origin m_err cur_loc m_row m_column].
  rewrite advance_append. now destruct (advance a (cur_loc p)).
Qed.

Lemma match_zero_or_more_moved pred p a b :
  m_rest p = a +:+ b -> all_chars pred a = true -> stops pred b = true ->
  match_zero_or_more pred p = (a, moved p a b).
Proof. apply match_zero_or_more_spec. Qed.

Lemma next_moved p ch rest :
  m_rest p = String ch rest -> next p = moved p (String ch EmptyString) rest.
Proof. intros H. unfold next, moved. now rewrite H. Qed.

Lemma cur_is_moved p a ch rest ch' :
  cur_is (moved p a (String ch rest)) ch' = Ascii.eqb ch ch'.
Proof. reflexivity. Qed.

(** A line feed at the cursor is the whole line ending. *)
Lemma skip_newline_moved p a rest :
  skip_newline (moved p a (PghParser.newline +:+ rest))
  = moved p (a +:+ PghParser.newline) rest.
Proof.
  change (PghParser.newline +:+ rest) with (String LF rest).
  unfold skip_newline. rewrite !cur_is_moved.
  change (Ascii.eqb LF CR) with false. cbn iota. rewrite cur_is_moved.
  change (Ascii.eqb LF LF) with true. cbn iota.
  rewrite (next_moved _ LF rest) by reflexivity.
  apply moved_moved.
Qed.

Lemma continuation_ok_spec sp r :
  continuation_ok (sp, r) = true ->
  (exists sp', sp = String " " sp')
  /\ all_chars is_tab_space sp = true
  /\ (exists ch r', r = String ch r' /\ is_tab_space ch = false /\ is_lineend_ch ch = false)
  /\ no_lineend r = true.
Proof.
  unfold continuation_ok. cbn [fst snd]. rewrite !andb_true_iff.
  intros [[[[Hsp Hall] Hne] Hnl] Hstop].
  split; [|split; [exact Hall|split; [|exact Hnl]]].
  - destruct sp as [|ch sp']; [discriminate|]. apply Ascii.eqb_eq in Hsp. subst.
    now exists sp'.
  - destruct r as [|ch r']; [discriminate|]. exists ch, r'. split; [reflexivity|].
    simpl in Hstop, Hnl. apply andb_true_iff in Hnl as [Hch _].
    split; [now apply negb_true_iff|now apply negb_true_iff].
Qed.

(** The loop goes through the continuation lines, one turn for each, adding
    each line as it stands to the value, line feed and leading spaces
    included; [last_turn] is what the turn on the last line gives. *)
Lemma get_fieldvalue_loop_continuations
  (p : ParserBase) (X : string) (fuel : nat)
  (last_turn : string -> string -> Outcome (string * ParserBase))
  (conts : list (string * string)) :
  (forall fieldvalue consumed line,
      no_lineend line = true ->
      PghParser.get_fieldvalue_loop (S fuel) fieldvalue (moved p consumed (line +:+ X))
      = last_turn (fieldvalue +:+ line) (consumed +:+ line)) ->
  forall fieldvalue consumed first,
    forallb continuation_ok conts = true ->
    no_lineend first = true ->
    PghParser.get_fieldvalue_loop (length conts + S fuel) fieldvalue
      (moved p consumed (first +:+ continuation_lines conts +:+ X))
    = last_turn (fieldvalue +:+ first +:+ continuation_lines conts)
                (consumed +:+ first +:+ continuation_lines conts).
Proof.
  intros Hlast.
  induction conts as [|[sp r] conts IH]; intros fv consumed first Hconts Hfirst.
  - cbn [length Nat.add continuation_lines]. rewrite append_nil_l, !append_empty_r.
    now apply Hlast.
  - cbn [forallb] in Hconts. apply andb_true_iff in Hconts as [Hc Hconts].
    destruct (continuation_ok_spec _ _ Hc)
      as ([sp' ->] & Hsp & (ch & r' & -> & Hts & Hle) & Hr).
    cbn [length Nat.add PghParser.get_fieldvalue_loop continuation_lines fst snd].
    unfold match_until.
    rewrite !append_assoc.
    rewrite (match_zero_or_more_moved _ _ first
               (PghParser.newline +:+ String " " sp' +:+ String ch r'
                  +:+ continuation_lines conts +:+ X));
      [|reflexivity|exact Hfirst|reflexivity].
    rewrite moved_moved, skip_newline_moved.
    rewrite append_cons, cur_is_moved. change (Ascii.eqb " " " ") with true.
    cbn [negb]. unfold skip_tabs_spaces. rewrite <- append_cons.
    rewrite (match_zero_or_more_moved _ _ (String " " sp')
               (String ch r' +:+ continuation_lines conts +:+ X));
      [|reflexivity|exact Hsp|rewrite append_cons; simpl; now rewrite Hts].
    rewrite moved_moved.
    assert (Hcur : is_lineend (cur (moved p (((consumed +:+ first) +:+ PghParser.newline)
                                               +:+ String " " sp')
                                      (String ch r' +:+ continuation_lines conts +:+ X)))
                   = false).
    { rewrite append_cons. exact Hle. }
    rewrite Hcur.
    rewrite (IH _ _ (String ch r') Hconts Hr).
    f_equal; now rewrite !append_assoc.
Qed.


(** The last turn when the next line holds spaces and tabs only. *)
Lemma get_fieldvalue_loop_blank p sp ending fuel fieldvalue consumed line :
  all_chars is_tab_space sp = true ->
  stops (fun ch => negb (is_lineend_ch ch)) ending = true ->
  no_lineend line = true ->
  PghParser.get_fieldvalue_loop (S fuel) fieldvalue
    (moved p consumed (line +:+ PghParser.newline +:+ String " " sp +:+ ending))
  = Returns (fieldvalue +:+ line,
             add_error PghParser.blank_line_message
               (moved p (((consumed +:+ line) +:+ PghParser.newline) +:+ String " " sp)
                  ending)).
Proof.
  intros Hsp Hend Hline. cbn [PghParser.get_fieldvalue_loop]. unfold match_until.
  rewrite (match_zero_or_more_moved _ _ line
             (PghParser.newline +:+ String " " sp +:+ ending));
    [|reflexivity|exact Hline|reflexivity].
  rewrite moved_moved, skip_newline_moved.
  rewrite append_cons, cur_is_moved. change (Ascii.eqb " " " ") with true.
  cbn [negb]. unfold skip_tabs_spaces. rewrite <- append_cons.
  rewrite (match_zero_or_more_moved _ _ (String " " sp) ending);
    [|reflexivity|exact Hsp|].
  2: { destruct ending as [|ch e]; [reflexivity|]. simpl in *.
       apply negb_true_iff, negb_false_iff in Hend.
       unfold is_tab_space. unfold is_lineend_ch in Hend.
       destruct (Ascii.eqb ch " ") eqn:E1.
       { apply Ascii.eqb_eq in E1. subst. discriminate. }
       destruct (Ascii.eqb ch TAB) eqn:E2; [|reflexivity].
       apply Ascii.eqb_eq in E2. subst. discriminate. }
  rewrite moved_moved.
  assert (Hcur : is_lineend (cur (moved p (((consumed +:+ line) +:+ PghParser.newline)
                                             +:+ String " " sp) ending)) = true).
  { destruct ending as [|ch e]; [reflexivity|]. simpl in Hend.
    now apply negb_true_iff, negb_false_iff in Hend. }
  now rewrite Hcur.
Qed.

Lemma continuation_lines_length conts :
  (length conts <= String.length (continuation_lines conts))%nat.
Proof.
  induction conts as [|c conts IH]; [simpl; lia|].
  cbn [length continuation_lines]. rewrite !length_append. simpl. lia.
Qed.

Lemma moved_nothing p : moved p EmptyString (m_rest p) = p.
Proof. now destruct p. Qed.


Lemma get_fieldvalue_blank (p : ParserBase) (first : string)
  (conts : list (string * string)) (sp ending : string) :
  forallb continuation_ok conts = true ->
  no_lineend first = true ->
  m_rest p = first +:+ continuation_lines conts +:+ PghParser.newline
               +:+ String " " sp +:+ ending ->
  all_chars is_tab_space sp = true ->
  stops (fun ch => negb (is_lineend_ch ch)) ending = true ->
  PghParser.get_fieldvalue p
  = Returns (first +:+ continuation_lines conts,
             add_error PghParser.blank_line_message
               (moved p (first +:+ continuation_lines conts +:+ PghParser.newline
                           +:+ String " " sp) ending)).
Proof.
  intros Hconts Hfirst Hrest Hsp Hend. unfold PghParser.get_fieldvalue.
  assert (Hlen : (length conts <= String.length (m_rest p))%nat).
  { rewrite Hrest, !length_append.
    pose proof (continuation_lines_length conts). lia. }
  replace (S (String.length (m_rest p)))
    with (length conts + S (String.length (m_rest p) - length conts)) by lia.
  rewrite <- (moved_nothing p) at 2. rewrite Hrest.
  rewrite (get_fieldvalue_loop_continuations p
             (PghParser.newline +:+ String " " sp +:+ ending) _
             (fun v c => Returns (v, add_error PghParser.blank_line_message
                                       (moved p ((c +:+ PghParser.newline)
                                                   +:+ String " " sp) ending))));
    [|intros; now apply get_fieldvalue_loop_blank|exact Hconts|exact Hfirst].
  rewrite !append_nil_l. now rewrite !append_assoc.
Qed.

(** *** Any line ends *)

Lemma line_end_cases e :
  line_end e = true ->
  e = String LF EmptyString \/ e = String CR (String LF EmptyString)
  \/ e = String CR EmptyString.
Proof.
  unfold line_end. rewrite !orb_true_iff, !String.eqb_eq. tauto.
Qed.

Lemma ends_line_cases e following :
  ends_line e following = true ->
  (e = EmptyString /\ following = EmptyString)
  \/ e = String LF EmptyString
  \/ e = String CR (String LF EmptyString)
  \/ (e = String CR EmptyString
      /\ starts_with (fun ch => Ascii.eqb ch LF) following = false).
Proof.
  unfold ends_line. destruct (String.eqb_spec e EmptyString) as [->|Hne].
  { rewrite String.eqb_eq. intros ->. now left. }
  rewrite andb_true_iff. intros [He Hcr].
  destruct (line_end_cases _ He) as [ -> | [ -> | -> ]]; [now right; left|now right; right; left|].
  right; right; right. split; [reflexivity|].
  rewrite String.eqb_refl in Hcr. cbn [andb] in Hcr. now apply negb_true_iff in Hcr.
Qed.

(** A line end in front of a space ends the line. *)
Lemma line_end_ends e sp rest :
  line_end e = true -> ends_line e (String " " sp +:+ rest) = true.
Proof.
  intros He. unfold ends_line. rewrite He.
  destruct (line_end_cases _ He) as [ -> | [ -> | -> ]]; reflexivity.
Qed.

(** [skip_newline] takes what ends the line, all of it and no more. *)
Lemma skip_newline_ends p a e rest :
  ends_line e rest = true ->
  skip_newline (moved p a (e +:+ rest)) = moved p (a +:+ e) rest.
Proof.
  intros He. destruct (ends_line_cases _ _ He) as [[-> ->] | [ -> | [ -> | [-> Hlf]]]].
  - rewrite append_nil_l, append_empty_r. reflexivity.
  - apply skip_newline_moved.
  - change (String CR (String LF EmptyString) +:+ rest) with (String CR (String LF rest)).
    unfold skip_newline. rewrite cur_is_moved.
    change (Ascii.eqb CR CR) with true. cbn iota.
    rewrite (next_moved _ CR (String LF rest)) by reflexivity.
    rewrite moved_moved, cur_is_moved. change (Ascii.eqb LF LF) with true. cbn iota.
    rewrite (next_moved _ LF rest) by reflexivity.
    rewrite moved_moved. now rewrite append_assoc.
  - change (String CR EmptyString +:+ rest) with (String CR rest).
    unfold skip_newline. rewrite cur_is_moved.
    change (Ascii.eqb CR CR) with true. cbn iota.
    rewrite (next_moved _ CR rest) by reflexivity. rewrite moved_moved.
    assert (Hcur : cur_is (moved p (a +:+ String CR EmptyString) rest) LF = false).
    { destruct rest as [|ch rest]; [reflexivity|]. rewrite cur_is_moved. exact Hlf. }
    now rewrite Hcur.
Qed.

(** The scan of a line stops at what ends the line. *)
Lemma ends_line_stops e rest :
  ends_line e rest = true ->
  stops (fun ch => negb (is_lineend_ch ch)) (e +:+ rest) = true.
Proof.
  intros He. destruct (ends_line_cases _ _ He) as [[-> ->] | [ -> | [ -> | [-> _]]]]; reflexivity.
Qed.

Lemma ends_line_not_tab_space e rest :
  ends_line e rest = true -> stops is_tab_space (e +:+ rest) = true.
Proof.
  intros He. destruct (ends_line_cases _ _ He) as [[-> ->] | [ -> | [ -> | [-> _]]]]; reflexivity.
Qed.

Lemma wrapped_ok_spec e sp r :
  wrapped_ok (e, (sp, r)) = true ->
  line_end e = true /\ continuation_ok (sp, r) = true.
Proof. unfold wrapped_ok. cbn [fst snd]. now rewrite andb_true_iff. Qed.

(** The loop goes through the continuation lines whatever their line ends
    are, one turn for each, adding each line to the value after a line
    feed, leading spaces and tabs included. *)
Lemma get_fieldvalue_loop_wrapped
  (p : ParserBase) (X : string) (fuel : nat)
  (last_turn : string -> string -> Outcome (string * ParserBase))
  (conts : list (string * (string * string))) :
  (forall fieldvalue consumed line,
      no_lineend line = true ->
      PghParser.get_fieldvalue_loop (S fuel) fieldvalue (moved p consumed (line +:+ X))
      = last_turn (fieldvalue +:+ line) (consumed +:+ line)) ->
  forall fieldvalue consumed first,
    forallb wrapped_ok conts = true ->
    no_lineend first = true ->
    PghParser.get_fieldvalue_loop (length conts + S fuel) fieldvalue
      (moved p consumed (first +:+ wrapped_text conts +:+ X))
    = last_turn (fieldvalue +:+ first +:+ continuation_lines (map snd conts))
                (consumed +:+ first +:+ wrapped_text conts).
Proof.
  intros Hlast.
  induction conts as [|[e [sp r]] conts IH]; intros fv consumed first Hconts Hfirst.
  - cbn [length Nat.add wrapped_text continuation_lines map].
    rewrite append_nil_l, !append_empty_r. now apply Hlast.
  - cbn [forallb] in Hconts. apply andb_true_iff in Hconts as [Hc Hconts].
    destruct (wrapped_ok_spec _ _ _ Hc) as [He Hc'].
    destruct (continuation_ok_spec _ _ Hc')
      as ([sp' ->] & Hsp & (ch & r' & -> & Hts & Hle) & Hr).
    cbn [length Nat.add PghParser.get_fieldvalue_loop wrapped_text continuation_lines
           map fst snd].
    unfold match_until.
    pose proof (line_end_ends e sp' (String ch r' +:+ wrapped_text conts +:+ X) He)
      as Hends.
    rewrite (match_zero_or_more_moved _ _ first
               (e +:+ String " " sp' +:+ String ch r' +:+ wrapped_text conts +:+ X));
      [|now rewrite !append_assoc|exact Hfirst|].
    2: { now apply ends_line_stops. }
    rewrite moved_moved, (skip_newline_ends _ _ _ _ Hends).
    rewrite append_cons, cur_is_moved. change (Ascii.eqb " " " ") with true.
    cbn [negb]. unfold skip_tabs_spaces. rewrite <- append_cons.
    rewrite (match_zero_or_more_moved _ _ (String " " sp')
               (String ch r' +:+ wrapped_text conts +:+ X));
      [|reflexivity|exact Hsp|rewrite append_cons; simpl; now rewrite Hts].
    rewrite moved_moved.
    assert (Hcur : is_lineend (cur (moved p (((consumed +:+ first) +:+ e)
                                               +:+ String " " sp')
                                      (String ch r' +:+ wrapped_text conts +:+ X)))
                   = false).
    { rewrite append_cons. exact Hle. }
    rewrite Hcur.
    rewrite (IH _ _ (String ch r') Hconts Hr).
    f_equal; now rewrite !append_assoc.
Qed.

(** The last turn when the line after the end of the line does not start
    with a space, or when the text ends with the line. *)
Lemma get_fieldvalue_loop_ends p e tail fuel fieldvalue consumed line :
  ends_line e tail = true ->
  stops (fun ch => Ascii.eqb ch " ") tail = true ->
  no_lineend line = true ->
  PghParser.get_fieldvalue_loop (S fuel) fieldvalue
    (moved p consumed (line +:+ e +:+ tail))
  = Returns (fieldvalue +:+ line, moved p ((consumed +:+ line) +:+ e) tail).
Proof.
  intros He Htail Hline. cbn [PghParser.get_fieldvalue_loop]. unfold match_until.
  rewrite (match_zero_or_more_moved _ _ line (e +:+ tail));
    [|reflexivity|exact Hline|now apply ends_line_stops].
  rewrite moved_moved, (skip_newline_ends _ _ _ _ He).
  assert (Hsp : cur_is (moved p ((consumed +:+ line) +:+ e) tail) " " = false).
  { destruct tail as [|ch tail]; [reflexivity|].
    rewrite cur_is_moved. simpl in Htail. now apply negb_true_iff in Htail. }
  now rewrite Hsp.
Qed.

(** The last turn when the next line holds spaces and tabs only. *)
Lemma get_fieldvalue_loop_blank_line p e sp ending fuel fieldvalue consumed line :
  line_end e = true ->
  all_chars is_tab_space sp = true ->
  stops (fun ch => negb (is_lineend_ch ch)) ending = true ->
  no_lineend line = true ->
  PghParser.get_fieldvalue_loop (S fuel) fieldvalue
    (moved p consumed (line +:+ e +:+ String " " sp +:+ ending))
  = Returns (fieldvalue +:+ line,
             add_error PghParser.blank_line_message
               (moved p (((consumed +:+ line) +:+ e) +:+ String " " sp) ending)).
Proof.
  intros He Hsp Hend Hline. cbn [PghParser.get_fieldvalue_loop]. unfold match_until.
  pose proof (line_end_ends e sp ending He) as Hends.
  rewrite (match_zero_or_more_moved _ _ line (e +:+ String " " sp +:+ ending));
    [|reflexivity|exact Hline|now apply ends_line_stops].
  rewrite moved_moved, (skip_newline_ends _ _ _ _ Hends).
  rewrite append_cons, cur_is_moved. change (Ascii.eqb " " " ") with true.
  cbn [negb]. unfold skip_tabs_spaces. rewrite <- append_cons.
  rewrite (match_zero_or_more_moved _ _ (String " " sp) ending);
    [|reflexivity|exact Hsp|].
  2: { destruct ending as [|ch e']; [reflexivity|]. simpl in *.
       apply negb_true_iff, negb_false_iff in Hend.
       unfold is_tab_space. unfold is_lineend_ch in Hend.
       destruct (Ascii.eqb ch " ") eqn:E1.
       { apply Ascii.eqb_eq in E1. subst. discriminate. }
       destruct (Ascii.eqb ch TAB) eqn:E2; [|reflexivity].
       apply Ascii.eqb_eq in E2. subst. discriminate. }
  rewrite moved_moved.
  assert (Hcur : is_lineend (cur (moved p (((consumed +:+ line) +:+ e)
                                             +:+ String " " sp) ending)) = true).
  { destruct ending as [|ch e']; [reflexivity|]. simpl in Hend.
    now apply negb_true_iff, negb_false_iff in Hend. }
  now rewrite Hcur.
Qed.

Lemma wrapped_text_length conts :
  forallb wrapped_ok conts = true ->
  (length conts <= String.length (wrapped_text conts))%nat.
Proof.
  induction conts as [|[e [sp r]] conts IH]; intros Hok; [simpl; lia|].
  cbn [forallb] in Hok. apply andb_true_iff in Hok as [Hc Hok].
  destruct (wrapped_ok_spec _ _ _ Hc) as [_ Hc'].
  destruct (continuation_ok_spec _ _ Hc') as ([sp' ->] & _).
  cbn [length wrapped_text fst snd]. rewrite !length_append. specialize (IH Hok).
  simpl. lia.
Qed.

Lemma get_fieldvalue_any_lines (p : ParserBase) (first : string)
  (conts : list (string * (string * string))) (e tail : string) :
  forallb wrapped_ok conts = true ->
  no_lineend first = true ->
  m_rest p = first +:+ wrapped_text conts +:+ e +:+ tail ->
  ends_line e tail = true ->
  stops (fun ch => Ascii.eqb ch " ") tail = true ->
  PghParser.get_fieldvalue p
  = Returns (first +:+ continuation_lines (map snd conts),
             moved p (first +:+ wrapped_text conts +:+ e) tail).
Proof.
  intros Hconts Hfirst Hrest He Htail. unfold PghParser.get_fieldvalue.
  assert (Hlen : (length conts <= String.length (m_rest p))%nat).
  { rewrite Hrest, !length_append.
    pose proof (wrapped_text_length conts Hconts). lia. }
  replace (S (String.length (m_rest p)))
    with (length conts + S (String.length (m_rest p) - length conts)) by lia.
  rewrite <- (moved_nothing p) at 2. rewrite Hrest.
  rewrite (get_fieldvalue_loop_wrapped p (e +:+ tail) _
             (fun v c => Returns (v, moved p (c +:+ e) tail)));
    [|intros; now apply get_fieldvalue_loop_ends|exact Hconts|exact Hfirst].
  rewrite !append_nil_l. now rewrite !append_assoc.
Qed.

Lemma get_fieldvalue_any_blank (p : ParserBase) (first : string)
  (conts : list (string * (string * string))) (e sp ending : string) :
  forallb wrapped_ok conts = true ->
  no_lineend first = true ->
  m_rest p = first +:+ wrapped_text conts +:+ e +:+ String " " sp +:+ ending ->
  line_end e = true ->
  all_chars is_tab_space sp = true ->
  stops (fun ch => negb (is_lineend_ch ch)) ending = true ->
  PghParser.get_fieldvalue p
  = Returns (first +:+ continuation_lines (map snd conts),
             add_error PghParser.blank_line_message
               (moved p (first +:+ wrapped_text conts +:+ e +:+ String " " sp) ending)).
Proof.
  intros Hconts Hfirst Hrest He Hsp Hend. unfold PghParser.get_fieldvalue.
  assert (Hlen : (length conts <= String.length (m_rest p))%nat).
  { rewrite Hrest, !length_append.
    pose proof (wrapped_text_length conts Hconts). lia. }
  replace (S (String.length (m_rest p)))
    with (length conts + S (String.length (m_rest p) - length conts)) by lia.
  rewrite <- (moved_nothing p) at 2. rewrite Hrest.
  rewrite (get_fieldvalue_loop_wrapped p (e +:+ String " " sp +:+ ending) _
             (fun v c => Returns (v, add_error PghParser.blank_line_message
                                       (moved p (((c +:+ e)) +:+ String " " sp)
                                          ending))));
    [|intros; now apply get_fieldvalue_loop_blank_line|exact Hconts|exact Hfirst].
  rewrite !append_nil_l. now rewrite !append_assoc.
Qed.

(** C3, as the code has it. Take a first line and continuation lines, each
    made of a run of spaces and tabs that starts with a space and of a rest
    that is not empty; every line may end with a line feed, with a carriage
    return and a line feed, or with a carriage return, and the last of them
    may also end with the text. If what follows does not start with a
    space, [get_fieldvalue] returns the first line and the continuation
    lines, the leading spaces and tabs of every continuation line included,
    joined by line feeds whatever the line ends of the text are, and stops
    after the end of the last line. If the line after them holds nothing
    but one space and further spaces and tabs, up to a line end or to the
    end of the text, the value read so far comes with the error
    [blank_line_message], whose text ends with two spaces and a dot between
    double quotes, placed after these spaces. *)
Theorem continuation_lines_are_kept_whole
  (p : ParserBase) (first : string) (conts : list (string * (string * string))) :
  forallb wrapped_ok conts = true ->
  no_lineend first = true ->
  (forall e tail,
      m_rest p = first +:+ wrapped_text conts +:+ e +:+ tail ->
      ends_line e tail = true ->
      stops (fun ch => Ascii.eqb ch " ") tail = true ->
      PghParser.get_fieldvalue p
      = Returns (first +:+ continuation_lines (map snd conts),
                 moved p (first +:+ wrapped_text conts +:+ e) tail))
  /\ (forall e sp ending,
        m_rest p = first +:+ wrapped_text conts +:+ e +:+ String " " sp +:+ ending ->
        line_end e = true ->
        all_chars is_tab_space sp = true ->
        stops (fun ch => negb (is_lineend_ch ch)) ending = true ->
        PghParser.get_fieldvalue p
        = Returns (first +:+ continuation_lines (map snd conts),
                   add_error PghParser.blank_line_message
                     (moved p (first +:+ wrapped_text conts +:+ e +:+ String " " sp)
                        ending))).
Proof.
  intros Hconts Hfirst. split.
  - intros e tail Hrest He Htail. now apply get_fieldvalue_any_lines.
  - intros e sp ending Hrest He Hsp Hend. now apply get_fieldvalue_any_blank.
Qed.

End FieldValueFacts.

(** *** Field values on example texts *)

(** C3 as stated fails: the space that marks the continuation line stays in
    the value, and the message of the error names two spaces and a dot. *)
Lemma continuation_whitespace_is_kept :
  (exists p',
     Paragraphs.PghParser.get_fieldvalue
       (Parse.init ("x" +:+ Paragraphs.PghParser.newline +:+ " y"
                      +:+ Paragraphs.PghParser.newline)
          "CONTROL" {| Parse.row := 0; Parse.column := 0 |})
     = Returns ("x" +:+ Paragraphs.PghParser.newline +:+ " y", p'))
  /\ "x" +:+ Paragraphs.PghParser.newline +:+ " y"
     <> "x" +:+ Paragraphs.PghParser.newline +:+ "y"
  /\ Paragraphs.parse_paragraphs
       ("Description: x" +:+ Paragraphs.PghParser.newline +:+ "  y"
          +:+ Paragraphs.PghParser.newline) "CONTROL"
     = Returns (inl [{["Description" :=
                         ("x" +:+ Paragraphs.PghParser.newline +:+ "  y",
                          {| Parse.row := 1; Parse.column := 14 |})]}])
  /\ Paragraphs.PghParser.blank_line_message
     <> "unexpected end of line, to span a blank line use "
          +:+ Paragraphs.PghParser.dquote +:+ " ." +:+ Paragraphs.PghParser.dquote.
Proof.
  split; [eexists; reflexivity|]. split; [discriminate|].
  split; [reflexivity|discriminate].
Qed.

Lemma continuation_lines_are_kept_whole_witness :
  Paragraphs.PghParser.get_fieldvalue
    (Parse.init ("x" +:+ crlf +:+ " " +:+ String Parse.TAB "y" +:+ lf +:+ "  z"
                   +:+ crlf +:+ "Next: z")
       "CONTROL" {| Parse.row := 0; Parse.column := 0 |})
  = Returns ("x" +:+ lf +:+ " " +:+ String Parse.TAB "y" +:+ lf +:+ "  z",
             {| Parse.m_origin := "CONTROL"; Parse.m_rest := "Next: z";
                Parse.m_row := 4; Parse.m_column := 1; Parse.m_err := None |})
  /\ Paragraphs.PghParser.get_fieldvalue
       (Parse.init ("x" +:+ crlf +:+ " y") "CONTROL"
          {| Parse.row := 0; Parse.column := 0 |})
     = Returns ("x" +:+ lf +:+ " y",
                {| Parse.m_origin := "CONTROL"; Parse.m_rest := EmptyString;
                   Parse.m_row := 2; Parse.m_column := 3; Parse.m_err := None |})
  /\ Paragraphs.PghParser.get_fieldvalue
       (Parse.init ("x" +:+ crlf +:+ " " +:+ crlf +:+ "Next: z")
          "CONTROL" {| Parse.row := 0; Parse.column := 0 |})
     = Returns ("x",
                {| Parse.m_origin := "CONTROL"; Parse.m_rest := EmptyString;
                   Parse.m_row := 2; Parse.m_column := 2;
                   Parse.m_err :=
                     Some {| Parse.pe_origin := "CONTROL"; Parse.pe_row := 2;
                             Parse.pe_column := 2;
                             Parse.pe_message :=
                               Paragraphs.PghParser.blank_line_message |} |}).
Proof.
  split; [|split].
  - apply (proj1 (continuation_lines_are_kept_whole
                    (Parse.init ("x" +:+ crlf +:+ " " +:+ String Parse.TAB "y" +:+ lf
                                   +:+ "  z" +:+ crlf +:+ "Next: z")
                       "CONTROL" {| Parse.row := 0; Parse.column := 0 |})
                    "x" [(crlf, (" " +:+ String Parse.TAB EmptyString, "y"));
                         (lf, ("  ", "z"))] eq_refl eq_refl)
                 crlf "Next: z" eq_refl eq_refl eq_refl).
  - apply (proj1 (continuation_lines_are_kept_whole
                    (Parse.init ("x" +:+ crlf +:+ " y") "CONTROL"
                       {| Parse.row := 0; Parse.column := 0 |})
                    "x" [(crlf, (" ", "y"))] eq_refl eq_refl)
                 EmptyString EmptyString eq_refl eq_refl eq_refl).
  - apply (proj2 (continuation_lines_are_kept_whole
                    (Parse.init ("x" +:+ crlf +:+ " " +:+ crlf +:+ "Next: z")
                       "CONTROL" {| Parse.row := 0; Parse.column := 0 |})
                    "x" [] eq_refl eq_refl)
                 crlf EmptyString (crlf +:+ "Next: z")
                 eq_refl eq_refl eq_refl eq_refl).
Defined.

(** ** Paragraphs *)

Section ParagraphFacts.
Import Parse Paragraphs.

Lemma name_char ch :
  is_alphanumdash ch = true ->
  Ascii.eqb ch "#" = false /\ Ascii.eqb ch " " = false
  /\ is_lineend_ch ch = false /\ is_whitespace ch = false.
Proof.
  intros H.
  assert (Hne : forall c, is_alphanumdash c = false -> Ascii.eqb ch c = false).
  { intros c Hc. destruct (Ascii.eqb ch c) eqn:E; [|reflexivity].
    apply Ascii.eqb_eq in E. subst. congruence. }
  pose proof (Hne "#"%char eq_refl) as H1. pose proof (Hne " "%char eq_refl) as H2.
  pose proof (Hne TAB eq_refl) as H3. pose proof (Hne CR eq_refl) as H4.
  pose proof (Hne LF eq_refl) as H5.
  unfold is_lineend_ch, is_whitespace. now rewrite H1, H2, H3, H4, H5.
Qed.

Lemma name_ok_spec name :
  name_ok name = true ->
  all_chars is_alphanumdash name = true
  /\ exists ch name', name = String ch name' /\ is_alphanumdash ch = true.
Proof.
  unfold name_ok. intros H. apply andb_true_iff in H as [Hne Hall].
  split; [exact Hall|]. destruct name as [|ch name']; [discriminate|].
  exists ch, name'. split; [reflexivity|]. simpl in Hall.
  now apply andb_true_iff in Hall as [? _].
Qed.


Lemma is_item_start_spec ch :
  is_item_start ch = true ->
  Ascii.eqb ch " " = false /\ is_lineend_ch ch = false /\ is_whitespace ch = false.
Proof.
  unfold is_item_start. intros H. apply orb_true_iff in H as [H|H].
  - now destruct (name_char _ H) as (_ & ? & ? & ?).
  - apply Ascii.eqb_eq in H. now subst.
Qed.




Lemma starts_with_spec pred s :
  starts_with pred s = true -> exists ch s', s = String ch s' /\ pred ch = true.
Proof. destruct s as [|ch s']; [discriminate|]. intros H. now exists ch, s'. Qed.

Lemma item_start_stops rest :
  starts_with is_item_start rest = true ->
  stops (fun ch => Ascii.eqb ch " ") rest = true
  /\ is_lineend (cur_of rest) = false.
Proof.
  intros H. destruct (starts_with_spec _ _ H) as (ch & s' & -> & Hch).
  destruct (is_item_start_spec _ Hch) as (Hsp & Hle & _).
  split; [simpl; now rewrite Hsp|exact Hle].
Qed.


Lemma cur_moved_of p a rest : cur (moved p a rest) = cur_of rest.
Proof. reflexivity. Qed.


















End ParagraphFacts.

(** *** Paragraphs on example texts *)


(** ** Whole documents *)

Section DocumentFacts.
Import Parse Paragraphs.

Lemma cur_loc_moved p a rest : cur_loc (moved p a rest) = advance a (cur_loc p).
Proof. unfold moved, cur_loc at 1. cbn [m_row m_column]. now destruct (advance a (cur_loc p)). Qed.

Lemma not_blank_stops rest :
  starts_with not_blank rest = true ->
  stops (fun ch => Ascii.eqb ch " ") rest = true
  /\ is_lineend (cur_of rest) = false
  /\ stops is_whitespace rest = true
  /\ stops is_lineend_ch rest = true
  /\ exists ch rest', rest = String ch rest'.
Proof.
  intros H. destruct (starts_with_spec _ _ H) as (ch & s' & -> & Hch).
  unfold not_blank in Hch. apply negb_true_iff in Hch.
  unfold is_whitespace in Hch. rewrite !orb_false_iff in Hch.
  destruct Hch as [[[H1 H2] H3] H4].
  cbn [stops cur_of is_lineend]. unfold is_lineend_ch, is_whitespace.
  rewrite H1, H2, H3, H4. repeat split; try reflexivity. now exists ch, s'.
Qed.

Lemma item_start_not_blank rest :
  starts_with is_item_start rest = true -> starts_with not_blank rest = true.
Proof.
  intros H. destruct (starts_with_spec _ _ H) as (ch & s' & -> & Hch).
  destruct (is_item_start_spec _ Hch) as (_ & _ & Hws).
  cbn [starts_with]. unfold not_blank. now rewrite Hws.
Qed.

Lemma entries_text_cons i entries :
  entries_text (i :: entries) = entry_text i +:+ entries_text entries.
Proof. reflexivity. Qed.

Lemma entry_names_cons i entries :
  entry_names (i :: entries) = entry_names [i] ++ entry_names entries.
Proof. destruct i; reflexivity. Qed.

Lemma blocks_text_cons par pars :
  blocks_text (par :: pars) = entries_text par.1 +:+ par.2 +:+ blocks_text pars.
Proof. reflexivity. Qed.

Lemma field_ok_spec b following :
  field_ok b following = true ->
  name_ok (fl_name b) = true
  /\ all_chars is_tab_space (fl_spacing b) = true
  /\ no_lineend (fl_first b) = true
  /\ stops is_tab_space (fl_first b) = true
  /\ forallb wrapped_ok (fl_continuations b) = true
  /\ ends_line (fl_end b) following = true.
Proof. unfold field_ok. rewrite !andb_true_iff. tauto. Qed.

Lemma entry_text_starts i following rest :
  entry_ok i following = true ->
  starts_with is_item_start (entry_text i +:+ rest) = true.
Proof.
  destruct i as [b|text e]; cbn [entry_ok entry_text]; [|reflexivity].
  intros Hb. destruct (field_ok_spec _ _ Hb) as (Hn & _).
  destruct (name_ok_spec _ Hn) as (_ & ch & n' & Hname & Hch).
  unfold field_text. rewrite Hname, !append_cons. cbn [starts_with].
  unfold is_item_start. now rewrite Hch.
Qed.

Lemma entries_text_item_start entries following tail :
  entries <> [] -> entries_ok entries following = true ->
  starts_with is_item_start (entries_text entries +:+ tail) = true.
Proof.
  destruct entries as [|i entries]; intros Hne Hok; [congruence|].
  cbn [entries_ok] in Hok. apply andb_true_iff in Hok as [Hi _].
  rewrite entries_text_cons, append_assoc. now apply (entry_text_starts i _ _ Hi).
Qed.

Lemma entries_text_not_blank entries following tail :
  entries_ok entries following = true ->
  starts_with not_blank tail = true ->
  starts_with not_blank (entries_text entries +:+ tail) = true.
Proof.
  destruct entries as [|i entries]; intros Hok Ht; [exact Ht|].
  now apply item_start_not_blank, (entries_text_item_start (i :: entries) following).
Qed.

Lemma blocks_ok_cons par pars following :
  blocks_ok (par :: pars) following = true ->
  par.1 <> []
  /\ entries_ok par.1 (par.2 +:+ blocks_text pars +:+ following) = true
  /\ NoDup (entry_names par.1)
  /\ starts_with is_lineend_ch par.2 = true
  /\ all_chars is_lineend_ch par.2 = true
  /\ blocks_ok pars following = true.
Proof.
  cbn [blocks_ok]. rewrite !andb_true_iff.
  intros [[[[[Hne Hok] Hnd] Hs1] Hs] Hrest].
  apply bool_decide_eq_true in Hnd.
  repeat split; try assumption. now destruct par.1.
Qed.

Lemma blocks_text_not_blank pars following tail :
  blocks_ok pars following = true ->
  starts_with not_blank tail = true ->
  starts_with not_blank (blocks_text pars +:+ tail) = true.
Proof.
  destruct pars as [|par pars]; intros Hok Ht; [exact Ht|].
  destruct (blocks_ok_cons _ _ _ Hok) as (Hne & Hentries & _).
  rewrite blocks_text_cons, !append_assoc.
  now apply item_start_not_blank, (entries_text_item_start par.1 _ _ Hne Hentries).
Qed.

(** The turn of [get_paragraph] on a field whose name is new, with the
    entry that it adds, whatever the line ends of the field are. *)
Lemma get_paragraph_loop_field fuel fields p consumed b rest :
  field_ok b rest = true ->
  fields !! fl_name b = None ->
  stops (fun ch => Ascii.eqb ch " ") rest = true ->
  PghParser.get_paragraph_loop (S fuel) fields
    (moved p consumed (field_text b +:+ rest))
  = if is_lineend (cur_of rest)
    then Returns (entries_into fields (advance consumed (cur_loc p)) [FieldEntry b],
                  moved p (consumed +:+ field_text b) rest)
    else PghParser.get_paragraph_loop fuel
           (entries_into fields (advance consumed (cur_loc p)) [FieldEntry b])
           (moved p (consumed +:+ field_text b) rest).
Proof.
  intros Hb Hnew Hrest.
  destruct (field_ok_spec _ _ Hb) as (Hn & Hsp & Hfirst & Hstop & Hconts & Hend).
  destruct (name_ok_spec _ Hn) as (Hall & ch & n' & Hname & Hch).
  destruct (name_char _ Hch) as (Hhash & _ & _ & _).
  set (after_colon := fl_spacing b +:+ fl_first b
                        +:+ wrapped_text (fl_continuations b)
                        +:+ fl_end b +:+ rest).
  assert (Htext : field_text b +:+ rest = fl_name b +:+ String ":" after_colon).
  { unfold field_text, after_colon. now rewrite !append_assoc. }
  rewrite Htext.
  cbn [PghParser.get_paragraph_loop].
  assert (Hcur : cur_is (moved p consumed (fl_name b +:+ String ":" after_colon)) "#"
                 = false).
  { rewrite Hname, append_cons, cur_is_moved. exact Hhash. }
  rewrite Hcur. unfold PghParser.get_fieldname.
  rewrite (match_zero_or_more_moved _ _ (fl_name b) (String ":" after_colon));
    [|reflexivity|exact Hall|reflexivity].
  rewrite moved_moved.
  assert (Hne : bool_decide (fl_name b = EmptyString) = false).
  { apply bool_decide_eq_false. now rewrite Hname. }
  rewrite Hne, cur_is_moved. change (Ascii.eqb ":" ":") with true. cbn [negb].
  assert (Hcont : PghParser.contains fields (fl_name b) = false).
  { unfold PghParser.contains. apply bool_decide_eq_false. rewrite Hnew.
    intros [? ?]; discriminate. }
  rewrite Hcont.
  rewrite (next_moved _ ":" after_colon) by reflexivity. rewrite moved_moved.
  unfold skip_tabs_spaces, after_colon.
  rewrite (match_zero_or_more_moved _ _ (fl_spacing b)
             (fl_first b +:+ wrapped_text (fl_continuations b)
                +:+ fl_end b +:+ rest));
    [|reflexivity|exact Hsp|].
  2: { destruct (fl_first b) as [|c1 f1]; [|exact Hstop].
       rewrite append_nil_l.
       destruct (fl_continuations b) as [|[e [sp r]] conts2].
       - rewrite append_nil_l. now apply ends_line_not_tab_space.
       - cbn [forallb] in Hconts. apply andb_true_iff in Hconts as [Hc _].
         destruct (wrapped_ok_spec _ _ _ Hc) as [He _].
         cbn [wrapped_text fst snd].
         destruct (line_end_cases _ He) as [ -> | [ -> | -> ]]; reflexivity. }
  cbn [snd]. rewrite moved_moved.
  rewrite (get_fieldvalue_any_lines _ (fl_first b) (fl_continuations b) (fl_end b) rest
             Hconts Hfirst); [|reflexivity|exact Hend|exact Hrest].
  cbn [mbind Outcome_bind]. rewrite moved_moved.
  rewrite cur_moved_of.
  unfold PghParser.emplace. rewrite Hnew.
  unfold cur_rowcol. rewrite cur_loc_moved.
  assert (Hconsumed : ((consumed +:+ fl_name b) +:+ String ":" EmptyString)
                        +:+ fl_spacing b
                        +:+ (fl_first b +:+ wrapped_text (fl_continuations b)
                               +:+ fl_end b)
                      = consumed +:+ field_text b).
  { unfold field_text. now rewrite !append_assoc. }
  assert (Hpos : advance (((consumed +:+ fl_name b) +:+ String ":" EmptyString)
                            +:+ fl_spacing b) (cur_loc p)
                 = advance (fl_name b +:+ ":" +:+ fl_spacing b)
                     (advance consumed (cur_loc p))).
  { rewrite <- advance_append. now rewrite !append_assoc. }
  rewrite Hpos. cbn [entries_into]. unfold field_value.
  destruct (is_lineend (cur_of rest)); cbn [negb]; rewrite <- Hconsumed;
    rewrite !append_assoc; reflexivity.
Qed.

(** The turn of [get_paragraph] on a comment line, whatever ends it. *)
Lemma get_paragraph_loop_comment_line fuel (fields : Paragraph) p consumed text e rest :
  no_lineend text = true ->
  ends_line e rest = true ->
  PghParser.get_paragraph_loop (S fuel) fields
    (moved p consumed (entry_text (CommentEntry text e) +:+ rest))
  = if is_lineend (cur_of rest)
    then Returns (fields, moved p (consumed +:+ entry_text (CommentEntry text e)) rest)
    else PghParser.get_paragraph_loop fuel fields
           (moved p (consumed +:+ entry_text (CommentEntry text e)) rest).
Proof.
  intros Htext He. cbn [entry_text PghParser.get_paragraph_loop].
  rewrite !append_assoc.
  change ("#" +:+ text +:+ e +:+ rest) with (String "#" (text +:+ e +:+ rest)).
  rewrite cur_is_moved. change (Ascii.eqb "#" "#") with true. cbn iota.
  unfold skip_line, match_until.
  change (String "#" (text +:+ e +:+ rest)) with (String "#" text +:+ e +:+ rest).
  rewrite (match_zero_or_more_moved _ _ (String "#" text) (e +:+ rest));
    [|reflexivity|exact Htext|now apply ends_line_stops].
  cbn [snd]. rewrite moved_moved, (skip_newline_ends _ _ _ _ He), cur_moved_of.
  assert (Hconsumed : (consumed +:+ String "#" text) +:+ e
                      = consumed +:+ "#" +:+ text +:+ e).
  { now rewrite !append_assoc. }
  rewrite Hconsumed. now destruct (is_lineend (cur_of rest)).
Qed.

(** The turn on any entry whose field, if it is one, is new. *)
Lemma get_paragraph_loop_entry fuel (fields : Paragraph) p consumed i rest :
  entry_ok i rest = true ->
  (forall name, name ∈ entry_names [i] -> fields !! name = None) ->
  stops (fun ch => Ascii.eqb ch " ") rest = true ->
  PghParser.get_paragraph_loop (S fuel) fields
    (moved p consumed (entry_text i +:+ rest))
  = if is_lineend (cur_of rest)
    then Returns (entries_into fields (advance consumed (cur_loc p)) [i],
                  moved p (consumed +:+ entry_text i) rest)
    else PghParser.get_paragraph_loop fuel
           (entries_into fields (advance consumed (cur_loc p)) [i])
           (moved p (consumed +:+ entry_text i) rest).
Proof.
  intros Hok Hnew Hrest. destruct i as [b|text e].
  - apply get_paragraph_loop_field; [exact Hok| |exact Hrest].
    apply Hnew, list_elem_of_here.
  - cbn [entry_ok] in Hok. apply andb_true_iff in Hok as [Htext He].
    now apply get_paragraph_loop_comment_line.
Qed.

Lemma entries_into_cons fields rc i entries :
  entries_into fields rc (i :: entries)
  = entries_into (entries_into fields rc [i]) (advance (entry_text i) rc) entries.
Proof. reflexivity. Qed.

(** A name that is not among the fields of the entries is left as it is. *)
Lemma entries_into_other entries :
  forall (fields : Paragraph) rc name,
    name ∉ entry_names entries ->
    entries_into fields rc entries !! name = fields !! name.
Proof.
  induction entries as [|i entries IH]; intros fields rc name Hnot; [reflexivity|].
  rewrite entry_names_cons in Hnot. cbn [entries_into].
  rewrite IH by (intros H; apply Hnot, elem_of_app; now right).
  destruct i as [b|text e]; [|reflexivity].
  apply lookup_insert_ne. intros Heq. apply Hnot, elem_of_app. left.
  rewrite <- Heq. apply list_elem_of_here.
Qed.

(** A field among entries with different names is found under its name,
    with its value. *)
Lemma entries_into_field entries :
  forall (fields : Paragraph) rc b,
    NoDup (entry_names entries) ->
    FieldEntry b ∈ entries ->
    exists rc', entries_into fields rc entries !! fl_name b = Some (field_value b, rc').
Proof.
  induction entries as [|i entries IH]; intros fields rc b Hnd Hin; [inversion Hin|].
  rewrite entry_names_cons in Hnd. apply NoDup_app in Hnd as (_ & Hdisj & Hnd).
  apply elem_of_cons in Hin as [<-|Hin].
  - cbn [entries_into]. rewrite entries_into_other.
    + rewrite lookup_insert_eq. now eexists.
    + intros H. exact (Hdisj _ (list_elem_of_here _ _) H).
  - cbn [entries_into]. now apply IH.
Qed.

(** The turns on the entries of a paragraph when something that is not
    whitespace follows them. *)
Lemma get_paragraph_loop_entries entries :
  forall fuel (fields : Paragraph) p consumed tail,
    entries_ok entries tail = true ->
    NoDup (entry_names entries) ->
    (forall name, name ∈ entry_names entries -> fields !! name = None) ->
    starts_with not_blank tail = true ->
    PghParser.get_paragraph_loop (length entries + fuel) fields
      (moved p consumed (entries_text entries +:+ tail))
    = PghParser.get_paragraph_loop fuel
        (entries_into fields (advance consumed (cur_loc p)) entries)
        (moved p (consumed +:+ entries_text entries) tail).
Proof.
  induction entries as [|i entries IH]; intros fuel fields p consumed tail Hok Hnd Hnew Ht.
  - cbn [length Nat.add entries_text foldr entries_into].
    now rewrite append_nil_l, append_empty_r.
  - cbn [entries_ok] in Hok. apply andb_true_iff in Hok as [Hi Hok].
    rewrite entry_names_cons in Hnd, Hnew. apply NoDup_app in Hnd as (_ & Hdisj & Hnd).
    cbn [length Nat.add]. rewrite !entries_text_cons, append_assoc.
    pose proof (entries_text_not_blank _ _ _ Hok Ht) as Hstart.
    destruct (not_blank_stops _ Hstart) as (Hstop & Hle & _).
    rewrite (get_paragraph_loop_entry (length entries + fuel) fields p consumed i
               (entries_text entries +:+ tail) Hi);
      [|intros name Hin; apply Hnew, elem_of_app; now left|exact Hstop].
    rewrite Hle.
    rewrite (IH fuel _ p (consumed +:+ entry_text i) tail Hok Hnd); [| |exact Ht].
    + rewrite entries_into_cons, advance_append. now rewrite !append_assoc.
    + intros name Hin. rewrite entries_into_other.
      * apply Hnew, elem_of_app. now right.
      * intros Hin1. exact (Hdisj _ Hin1 Hin).
Qed.

(** The turns on the entries of a paragraph that is complete: the loop
    returns at the line end, or at the end of the text, after the last
    entry. *)
Lemma get_paragraph_loop_whole entries :
  forall fuel (fields : Paragraph) p consumed rest,
    entries <> [] ->
    entries_ok entries rest = true ->
    NoDup (entry_names entries) ->
    (forall name, name ∈ entry_names entries -> fields !! name = None) ->
    stops (fun ch => negb (is_lineend_ch ch)) rest = true ->
    PghParser.get_paragraph_loop (length entries + fuel) fields
      (moved p consumed (entries_text entries +:+ rest))
    = Returns (entries_into fields (advance consumed (cur_loc p)) entries,
               moved p (consumed +:+ entries_text entries) rest).
Proof.
  induction entries as [|i entries IH];
    intros fuel fields p consumed rest Hne Hok Hnd Hnew Hr; [congruence|].
  cbn [entries_ok] in Hok. apply andb_true_iff in Hok as [Hi Hok].
  rewrite entry_names_cons in Hnd, Hnew. apply NoDup_app in Hnd as (_ & Hdisj & Hnd).
  cbn [length Nat.add]. rewrite !entries_text_cons, append_assoc.
  destruct entries as [|j entries].
  - assert (Hrest : stops (fun ch => Ascii.eqb ch " ") rest = true
                    /\ is_lineend (cur_of rest) = true).
    { destruct rest as [|ch rest]; [now split|]. cbn [stops cur_of is_lineend] in *.
      apply negb_true_iff, negb_false_iff in Hr. split; [|exact Hr].
      destruct (Ascii.eqb ch " ") eqn:E; [|reflexivity].
      apply Ascii.eqb_eq in E. subst. discriminate. }
    destruct Hrest as [Hstop Hle].
    cbn [entries_text foldr length Nat.add] in *.
    rewrite append_nil_l in *. rewrite append_empty_r.
    rewrite (get_paragraph_loop_entry fuel fields p consumed i rest Hi);
      [|intros name Hin; apply Hnew, elem_of_app; now left|exact Hstop].
    now rewrite Hle.
  - pose proof (entries_text_item_start (j :: entries) rest rest
                  ltac:(discriminate) Hok) as Hstart.
    destruct (item_start_stops _ Hstart) as [Hstop Hle].
    rewrite (get_paragraph_loop_entry (length (j :: entries) + fuel) fields p consumed i
               (entries_text (j :: entries) +:+ rest) Hi);
      [|intros name Hin; apply Hnew, elem_of_app; now left|exact Hstop].
    rewrite Hle.
    rewrite (IH fuel _ p (consumed +:+ entry_text i) rest);
      [|discriminate|exact Hok|exact Hnd| |exact Hr].
    + rewrite (entries_into_cons fields _ i (j :: entries)), advance_append.
      now rewrite !append_assoc.
    + intros name Hin. rewrite entries_into_other.
      * apply Hnew, elem_of_app. now right.
      * intros Hin1. exact (Hdisj _ Hin1 Hin).
Qed.

Lemma document_of_app pars : forall rc pars',
  document_of rc (pars ++ pars')
  = document_of rc pars ++ document_of (advance (blocks_text pars) rc) pars'.
Proof.
  induction pars as [|par pars IH]; intros rc pars'; [reflexivity|].
  cbn [app document_of]. rewrite IH. rewrite blocks_text_cons.
  rewrite <- advance_append. now rewrite !append_assoc.
Qed.

Lemma document_of_lookup pars : forall rc k entries sep,
  pars !! k = Some (entries, sep) ->
  exists rc', document_of rc pars !! k = Some (entries_into ∅ rc' entries).
Proof.
  induction pars as [|par pars IH]; intros rc k entries sep Hk; [discriminate|].
  destruct k as [|k].
  - injection Hk as ->. now exists rc.
  - cbn [document_of]. now apply (IH _ k entries sep).
Qed.

Lemma document_of_length rc pars : length (document_of rc pars) = length pars.
Proof.
  revert rc. induction pars as [|par pars IH]; intros rc; [reflexivity|].
  cbn. now rewrite IH.
Qed.

Lemma entry_text_length i : (1 <= String.length (entry_text i))%nat.
Proof.
  destruct i as [b|text e]; cbn [entry_text]; [unfold field_text|];
    rewrite !length_append; simpl; lia.
Qed.

Lemma entries_text_length entries :
  (length entries <= String.length (entries_text entries))%nat.
Proof.
  induction entries as [|i entries IH]; [simpl; lia|].
  rewrite entries_text_cons, length_append. pose proof (entry_text_length i).
  cbn [length]. lia.
Qed.

Lemma blocks_text_length pars following :
  blocks_ok pars following = true ->
  (length pars <= String.length (blocks_text pars))%nat.
Proof.
  induction pars as [|par pars IH]; intros Hok; [simpl; lia|].
  destruct (blocks_ok_cons _ _ _ Hok) as (_ & _ & _ & Hsep & _ & Hrest).
  destruct (starts_with_spec _ _ Hsep) as (c & sep' & Hs & _).
  rewrite blocks_text_cons, Hs. rewrite !length_append.
  specialize (IH Hrest). cbn [length String.length]. lia.
Qed.

Lemma match_zero_or_more_eof pred p :
  at_eof p = true -> (match_zero_or_more pred p).2 = p.
Proof. destruct p as [o [|ch r] rw c e]; [reflexivity|discriminate]. Qed.

(** The turns of [get_paragraphs] on complete paragraphs, with the
    paragraphs that they add. *)
Lemma get_paragraphs_loop_document pars :
  forall fuel acc p consumed tail,
    blocks_ok pars tail = true ->
    starts_with not_blank tail = true ->
    PghParser.get_paragraphs_loop (length pars + fuel) acc
      (moved p consumed (blocks_text pars +:+ tail))
    = PghParser.get_paragraphs_loop fuel
        (acc ++ document_of (advance consumed (cur_loc p)) pars)
        (moved p (consumed +:+ blocks_text pars) tail).
Proof.
  induction pars as [|[entries sep] pars IH]; intros fuel acc p consumed tail Hok Ht.
  - cbn [length Nat.add blocks_text foldr document_of].
    now rewrite append_nil_l, append_empty_r, app_nil_r.
  - pose proof Hok as Hall.
    destruct (blocks_ok_cons _ _ _ Hok) as (Hne & Hentries & Hnd & Hsep1 & Hsep & Hrest).
    cbn [fst snd] in *.
    pose proof (blocks_text_not_blank _ _ _ Hall Ht) as Hstart0.
    pose proof (blocks_text_not_blank _ _ _ Hrest Ht) as Hstart.
    rewrite blocks_text_cons in *. cbn [fst snd] in *.
    rewrite !append_assoc in *.
    cbn [length Nat.add PghParser.get_paragraphs_loop].
    destruct (starts_with_spec _ _ Hstart0) as (c0 & T0 & HT0 & _).
    assert (Heof : at_eof (moved p consumed
                             (entries_text entries +:+ sep +:+ blocks_text pars +:+ tail))
                   = false).
    { unfold at_eof, moved. cbn [m_rest]. now rewrite HT0. }
    rewrite Heof. unfold PghParser.get_paragraph.
    cbn [moved m_rest].
    change {| m_origin := m_origin p;
              m_rest := entries_text entries +:+ sep +:+ blocks_text pars +:+ tail;
              m_row := row (advance consumed (cur_loc p));
              m_column := column (advance consumed (cur_loc p));
              m_err := m_err p |}
      with (moved p consumed
              (entries_text entries +:+ sep +:+ blocks_text pars +:+ tail)).
    pose proof (entries_text_length entries) as Hlen.
    replace (S (String.length
                  (entries_text entries +:+ sep +:+ blocks_text pars +:+ tail)))
      with (length entries
            + S (String.length
                   (entries_text entries +:+ sep +:+ blocks_text pars +:+ tail)
                 - length entries))
      by (rewrite length_append; lia).
    rewrite (get_paragraph_loop_whole entries _ ∅ p consumed
               (sep +:+ blocks_text pars +:+ tail));
      [|exact Hne|exact Hentries|exact Hnd|intros; apply lookup_empty|].
    2: { destruct (starts_with_spec _ _ Hsep1) as (c1 & s1 & -> & Hc1).
         rewrite append_cons. cbn [stops]. now rewrite Hc1. }
    cbn [mbind Outcome_bind].
    rewrite (match_zero_or_more_moved _ _ sep (blocks_text pars +:+ tail));
      [|reflexivity|exact Hsep|].
    2: { now destruct (not_blank_stops _ Hstart) as (_ & _ & _ & ? & _). }
    cbn [snd]. rewrite moved_moved.
    rewrite (IH fuel _ p ((consumed +:+ entries_text entries) +:+ sep) tail Hrest Ht).
    cbn [document_of fst snd]. rewrite <- app_assoc. cbn [app].
    rewrite <- advance_append. now rewrite !append_assoc.
Qed.

(** The turn of [get_paragraphs] on the last paragraph of a text, which the
    end of the text may follow at once. *)
Lemma get_paragraphs_loop_last fuel acc p consumed last last_sep :
  last <> [] ->
  entries_ok last last_sep = true ->
  NoDup (entry_names last) ->
  all_chars is_lineend_ch last_sep = true ->
  PghParser.get_paragraphs_loop (S (S fuel)) acc
    (moved p consumed (entries_text last +:+ last_sep))
  = Returns (acc ++ [entries_into ∅ (advance consumed (cur_loc p)) last],
             moved p ((consumed +:+ entries_text last) +:+ last_sep) EmptyString).
Proof.
  intros Hne Hok Hnd Hsep.
  pose proof (entries_text_item_start last last_sep last_sep Hne Hok) as Hstart.
  destruct (starts_with_spec _ _ Hstart) as (c0 & T0 & HT0 & _).
  cbn [PghParser.get_paragraphs_loop].
  assert (Heof : at_eof (moved p consumed (entries_text last +:+ last_sep)) = false).
  { unfold at_eof, moved. cbn [m_rest]. now rewrite HT0. }
  rewrite Heof. unfold PghParser.get_paragraph.
  cbn [moved m_rest].
  change {| m_origin := m_origin p;
            m_rest := entries_text last +:+ last_sep;
            m_row := row (advance consumed (cur_loc p));
            m_column := column (advance consumed (cur_loc p));
            m_err := m_err p |}
    with (moved p consumed (entries_text last +:+ last_sep)).
  pose proof (entries_text_length last) as Hlen.
  replace (S (String.length (entries_text last +:+ last_sep)))
    with (length last
          + S (String.length (entries_text last +:+ last_sep) - length last))
    by (rewrite length_append; lia).
  rewrite (get_paragraph_loop_whole last _ ∅ p consumed last_sep);
    [|exact Hne|exact Hok|exact Hnd|intros; apply lookup_empty|].
  2: { destruct last_sep as [|ch r]; [reflexivity|]. cbn [all_chars stops] in *.
       apply andb_true_iff in Hsep as [-> _]. reflexivity. }
  cbn [mbind Outcome_bind].
  rewrite (match_zero_or_more_moved _ _ last_sep EmptyString);
    [|cbn [moved m_rest]; now rewrite append_empty_r|exact Hsep|reflexivity].
  cbn [snd]. now rewrite moved_moved.
Qed.

(** What [parse_paragraphs] does after the white space at the front of the
    text. *)
Lemma parse_paragraphs_leading origin leading body :
  all_chars is_whitespace leading = true ->
  stops is_whitespace body = true ->
  parse_paragraphs (leading +:+ body) origin
  = '(paragraphs, p) ←
      PghParser.get_paragraphs_loop (S (String.length body)) []
        (moved (init (leading +:+ body) origin {| row := 0; column := 0 |}) leading body);
    match get_error p with
    | Some e => Returns (inr (format e))
    | None => Returns (inl paragraphs)
    end.
Proof.
  intros Hlead Hbody. unfold parse_paragraphs, PghParser.get_paragraphs.
  unfold skip_whitespace.
  rewrite (match_zero_or_more_moved _ _ leading body); [|reflexivity|exact Hlead|exact Hbody].
  reflexivity.
Qed.

(** A text whose last paragraph makes a turn of [get_paragraph] stop with an
    error: the parse returns that error. The text before the turn is white
    space, complete paragraphs and the entries of the last paragraph. *)
Lemma parse_fails_after_prefix origin leading pars entries tail e :
  all_chars is_whitespace leading = true ->
  blocks_ok pars (entries_text entries +:+ tail) = true ->
  entries_ok entries tail = true ->
  NoDup (entry_names entries) ->
  starts_with not_blank tail = true ->
  (forall fuel p,
      m_origin p = origin -> m_err p = None -> cur_loc p = {| row := 1; column := 1 |} ->
      exists fields' pe,
        PghParser.get_paragraph_loop (S fuel)
          (entries_into ∅ (advance (leading +:+ blocks_text pars) (cur_loc p)) entries)
          (moved p (leading +:+ blocks_text pars +:+ entries_text entries) tail)
        = Returns (fields', pe)
        /\ at_eof pe = true /\ get_error pe = Some e) ->
  parse_paragraphs (leading +:+ blocks_text pars +:+ entries_text entries +:+ tail) origin
  = Returns (inr (format e)).
Proof.
  intros Hlead Hpars Hok Hnd Htail Hturn.
  pose proof (entries_text_not_blank _ _ _ Hok Htail) as Hstart1.
  pose proof (blocks_text_not_blank _ _ _ Hpars Hstart1) as Hstart.
  destruct (not_blank_stops _ Hstart) as (_ & _ & Hws & _ & _).
  rewrite (parse_paragraphs_leading _ _ _ Hlead Hws).
  set (P0 := init _ origin _).
  pose proof (blocks_text_length _ _ Hpars) as Hlen1.
  pose proof (entries_text_length entries) as Hlen2.
  destruct (not_blank_stops _ Htail) as (_ & _ & _ & _ & c & T' & HT).
  assert (Hlen3 : (1 <= String.length tail)%nat) by (rewrite HT; simpl; lia).
  replace (S (String.length (blocks_text pars +:+ entries_text entries +:+ tail)))
    with (length pars
          + S (S (String.length (blocks_text pars +:+ entries_text entries +:+ tail)
                  - length pars - 1)))
    by (rewrite !length_append; lia).
  rewrite (get_paragraphs_loop_document pars _ [] P0 leading
             (entries_text entries +:+ tail) Hpars Hstart1).
  cbn [PghParser.get_paragraphs_loop].
  destruct (not_blank_stops _ Hstart1) as (_ & _ & _ & _ & c1 & T1 & HT1).
  assert (Heof : at_eof (moved P0 (leading +:+ blocks_text pars)
                           (entries_text entries +:+ tail)) = false).
  { unfold at_eof, moved. cbn [m_rest]. now rewrite HT1. }
  rewrite Heof. unfold PghParser.get_paragraph.
  change (m_rest (moved P0 (leading +:+ blocks_text pars)
                    (entries_text entries +:+ tail)))
    with (entries_text entries +:+ tail).
  replace (S (String.length (entries_text entries +:+ tail)))
    with (length entries
          + S (String.length (entries_text entries +:+ tail) - length entries))
    by (rewrite length_append; lia).
  rewrite (get_paragraph_loop_entries entries _ ∅ P0 (leading +:+ blocks_text pars) tail
             Hok Hnd (fun _ _ => lookup_empty _) Htail).
  destruct (Hturn (String.length (entries_text entries +:+ tail) - length entries) P0
              eq_refl eq_refl eq_refl) as (fields' & pe & Hpe & Heofpe & Herr).
  rewrite append_assoc, Hpe.
  cbn [mbind Outcome_bind]. rewrite (match_zero_or_more_eof _ _ Heofpe).
  rewrite Heofpe. cbn [mbind Outcome_bind]. now rewrite Herr.
Qed.

(** The turn of [get_paragraph] on a line that starts with a character which
    is neither of a name nor the hash sign. *)
Lemma get_paragraph_loop_no_name fuel (fields : Paragraph) p consumed ch rest :
  is_alphanumdash ch = false ->
  Ascii.eqb ch "#" = false ->
  PghParser.get_paragraph_loop (S fuel) fields (moved p consumed (String ch rest))
  = Returns (fields,
             add_error "expected ':' after field name"
               (add_error "expected fieldname" (moved p consumed (String ch rest)))).
Proof.
  intros Hch Hhash. cbn [PghParser.get_paragraph_loop].
  rewrite cur_is_moved, Hhash. unfold PghParser.get_fieldname.
  rewrite (match_zero_or_more_moved _ _ EmptyString (String ch rest));
    [|reflexivity|reflexivity|cbn [stops]; now rewrite Hch].
  rewrite moved_moved, append_empty_r.
  rewrite bool_decide_eq_true_2 by reflexivity.
  reflexivity.
Qed.

(** The turn of [get_paragraph] on a name that no colon follows. *)
Lemma get_paragraph_loop_no_colon fuel (fields : Paragraph) p consumed name rest :
  name_ok name = true ->
  stops is_alphanumdash rest = true ->
  starts_with (fun ch => Ascii.eqb ch ":") rest = false ->
  PghParser.get_paragraph_loop (S fuel) fields (moved p consumed (name +:+ rest))
  = Returns (fields,
             add_error "expected ':' after field name"
               (moved p (consumed +:+ name) rest)).
Proof.
  intros Hn Hstop Hcolon.
  destruct (name_ok_spec _ Hn) as (Hall & ch & n' & Hname & Hch).
  destruct (name_char _ Hch) as (Hhash & _ & _ & _).
  cbn [PghParser.get_paragraph_loop].
  assert (Hcur : cur_is (moved p consumed (name +:+ rest)) "#" = false).
  { rewrite Hname, append_cons, cur_is_moved. exact Hhash. }
  rewrite Hcur. unfold PghParser.get_fieldname.
  rewrite (match_zero_or_more_moved _ _ name rest); [|reflexivity|exact Hall|exact Hstop].
  rewrite moved_moved.
  assert (Hne : bool_decide (name = EmptyString) = false).
  { apply bool_decide_eq_false. now rewrite Hname. }
  rewrite Hne.
  assert (Hc : cur_is (moved p (consumed +:+ name) rest) ":" = false).
  { destruct rest as [|c r]; [reflexivity|]. rewrite cur_is_moved. exact Hcolon. }
  now rewrite Hc.
Qed.

(** The turn of [get_paragraph] on a field with a new name whose lines are
    followed by a line of spaces and tabs that starts with a space. *)
Lemma get_paragraph_loop_blank_line fuel (fields : Paragraph) p consumed b sp ending :
  field_ok b (String " " sp +:+ ending) = true ->
  fields !! fl_name b = None ->
  all_chars is_tab_space sp = true ->
  stops (fun ch => negb (is_lineend_ch ch)) ending = true ->
  PghParser.get_paragraph_loop (S fuel) fields
    (moved p consumed (field_text b +:+ String " " sp +:+ ending))
  = Returns (entries_into fields (advance consumed (cur_loc p)) [FieldEntry b],
             add_error PghParser.blank_line_message
               (moved p (consumed +:+ field_text b +:+ String " " sp) ending)).
Proof.
  intros Hb Hnew Hsp Hend.
  destruct (field_ok_spec _ _ Hb) as (Hn & Hspacing & Hfirst & Hstop & Hconts & He).
  assert (Hle : line_end (fl_end b) = true).
  { unfold ends_line in He. destruct (String.eqb (fl_end b) EmptyString);
      [discriminate|]. now apply andb_true_iff in He as [? _]. }
  destruct (name_ok_spec _ Hn) as (Hall & ch & n' & Hname & Hch).
  destruct (name_char _ Hch) as (Hhash & _ & _ & _).
  set (after_colon := fl_spacing b +:+ fl_first b
                        +:+ wrapped_text (fl_continuations b)
                        +:+ fl_end b +:+ String " " sp +:+ ending).
  assert (Htext : field_text b +:+ String " " sp +:+ ending
                  = fl_name b +:+ String ":" after_colon).
  { unfold field_text, after_colon. now rewrite !append_assoc. }
  rewrite Htext.
  cbn [PghParser.get_paragraph_loop].
  assert (Hcur : cur_is (moved p consumed (fl_name b +:+ String ":" after_colon)) "#"
                 = false).
  { rewrite Hname, append_cons, cur_is_moved. exact Hhash. }
  rewrite Hcur. unfold PghParser.get_fieldname.
  rewrite (match_zero_or_more_moved _ _ (fl_name b) (String ":" after_colon));
    [|reflexivity|exact Hall|reflexivity].
  rewrite moved_moved.
  assert (Hne : bool_decide (fl_name b = EmptyString) = false).
  { apply bool_decide_eq_false. now rewrite Hname. }
  rewrite Hne, cur_is_moved. change (Ascii.eqb ":" ":") with true. cbn [negb].
  assert (Hcont : PghParser.contains fields (fl_name b) = false).
  { unfold PghParser.contains. apply bool_decide_eq_false. rewrite Hnew.
    intros [? ?]; discriminate. }
  rewrite Hcont.
  rewrite (next_moved _ ":" after_colon) by reflexivity. rewrite moved_moved.
  unfold skip_tabs_spaces, after_colon.
  rewrite (match_zero_or_more_moved _ _ (fl_spacing b)
             (fl_first b +:+ wrapped_text (fl_continuations b)
                +:+ fl_end b +:+ String " " sp +:+ ending));
    [|reflexivity|exact Hspacing|].
  2: { destruct (fl_first b) as [|c1 f1]; [|exact Hstop].
       rewrite append_nil_l.
       destruct (fl_continuations b) as [|[e [sp1 r]] conts2].
       - rewrite append_nil_l. now apply ends_line_not_tab_space.
       - cbn [forallb] in Hconts. apply andb_true_iff in Hconts as [Hc _].
         destruct (wrapped_ok_spec _ _ _ Hc) as [He' _].
         cbn [wrapped_text fst snd].
         destruct (line_end_cases _ He') as [ -> | [ -> | -> ]]; reflexivity. }
  cbn [snd]. rewrite moved_moved.
  rewrite (get_fieldvalue_any_blank _ (fl_first b) (fl_continuations b) (fl_end b)
             sp ending Hconts Hfirst); [|reflexivity|exact Hle|exact Hsp|exact Hend].
  cbn [mbind Outcome_bind]. rewrite moved_moved.
  unfold PghParser.emplace. rewrite Hnew.
  unfold cur_rowcol. rewrite cur_loc_moved.
  assert (Hpos : advance (((consumed +:+ fl_name b) +:+ String ":" EmptyString)
                            +:+ fl_spacing b) (cur_loc p)
                 = advance (fl_name b +:+ ":" +:+ fl_spacing b)
                     (advance consumed (cur_loc p))).
  { rewrite <- advance_append. now rewrite !append_assoc. }
  rewrite Hpos. cbn [entries_into]. unfold field_value.
  change (is_lineend (cur (add_error PghParser.blank_line_message _))) with true.
  cbn [negb]. unfold field_text. now rewrite !append_assoc.
Qed.

(** The error that [add_error] leaves in a parser that had none. *)
Lemma get_error_add_error message p :
  m_err p = None ->
  at_eof (add_error message p) = true
  /\ get_error (add_error message p)
     = Some {| pe_origin := m_origin p; pe_row := m_row p; pe_column := m_column p;
               pe_message := message |}.
Proof.
  intros He. split; [reflexivity|].
  unfold get_error, add_error, add_error_at. cbn [m_err]. now rewrite He.
Qed.

Lemma get_error_add_error_moved message p consumed rest :
  m_err p = None ->
  at_eof (add_error message (moved p consumed rest)) = true
  /\ get_error (add_error message (moved p consumed rest))
     = Some {| pe_origin := m_origin p;
               pe_row := row (advance consumed (cur_loc p));
               pe_column := column (advance consumed (cur_loc p));
               pe_message := message |}.
Proof. intros He. now apply (get_error_add_error message (moved p consumed rest)). Qed.

(** The three turns that fail, in any state of the parser. *)
Lemma turn_without_field_name fuel (fields : Paragraph) p ch rest :
  m_rest p = String ch rest ->
  is_alphanumdash ch = false ->
  Ascii.eqb ch "#" = false ->
  m_err p = None ->
  exists pe,
    PghParser.get_paragraph_loop (S fuel) fields p = Returns (fields, pe)
    /\ at_eof pe = true
    /\ get_error pe
       = Some {| pe_origin := m_origin p; pe_row := m_row p; pe_column := m_column p;
                 pe_message := "expected fieldname" |}.
Proof.
  intros Hrest Hch Hhash He.
  pose proof (get_paragraph_loop_no_name fuel fields p EmptyString ch rest Hch Hhash)
    as Hturn.
  rewrite <- Hrest, moved_nothing in Hturn.
  eexists. split; [exact Hturn|]. split; [reflexivity|].
  unfold get_error, add_error, add_error_at. cbn [m_err m_origin cur_loc row column].
  now rewrite He.
Qed.

Lemma turn_without_colon fuel (fields : Paragraph) p name rest :
  m_rest p = name +:+ rest ->
  name_ok name = true ->
  stops is_alphanumdash rest = true ->
  starts_with (fun ch => Ascii.eqb ch ":") rest = false ->
  m_err p = None ->
  exists pe,
    PghParser.get_paragraph_loop (S fuel) fields p = Returns (fields, pe)
    /\ at_eof pe = true
    /\ get_error pe
       = Some {| pe_origin := m_origin p;
                 pe_row := row (advance name (cur_loc p));
                 pe_column := column (advance name (cur_loc p));
                 pe_message := "expected ':' after field name" |}.
Proof.
  intros Hrest Hn Hstop Hcolon He.
  pose proof (get_paragraph_loop_no_colon fuel fields p EmptyString name rest
                Hn Hstop Hcolon) as Hturn.
  rewrite <- Hrest, moved_nothing, append_nil_l in Hturn.
  eexists. split; [exact Hturn|]. now apply get_error_add_error_moved.
Qed.

Lemma turn_with_blank_line fuel (fields : Paragraph) p b sp ending :
  m_rest p = field_text b +:+ String " " sp +:+ ending ->
  field_ok b (String " " sp +:+ ending) = true ->
  fields !! fl_name b = None ->
  all_chars is_tab_space sp = true ->
  stops (fun ch => negb (is_lineend_ch ch)) ending = true ->
  m_err p = None ->
  exists pe,
    PghParser.get_paragraph_loop (S fuel) fields p
    = Returns (<[fl_name b := (field_value b,
                               advance (fl_name b +:+ ":" +:+ fl_spacing b) (cur_loc p))]>
                 fields, pe)
    /\ at_eof pe = true
    /\ get_error pe
       = Some {| pe_origin := m_origin p;
                 pe_row := row (advance (field_text b +:+ String " " sp) (cur_loc p));
                 pe_column :=
                   column (advance (field_text b +:+ String " " sp) (cur_loc p));
                 pe_message := PghParser.blank_line_message |}.
Proof.
  intros Hrest Hb Hnew Hsp Hend He.
  pose proof (get_paragraph_loop_blank_line fuel fields p EmptyString b sp ending
                Hb Hnew Hsp Hend) as Hturn.
  rewrite <- Hrest, moved_nothing, append_nil_l in Hturn.
  cbn [entries_into advance] in Hturn.
  eexists. split; [exact Hturn|]. now apply get_error_add_error_moved.
Qed.

(** The parse of a text made of white space, complete paragraphs and a last
    paragraph that line ends may follow. *)
Lemma parse_paragraphs_document origin leading pars last last_sep :
  all_chars is_whitespace leading = true ->
  blocks_ok pars (entries_text last +:+ last_sep) = true ->
  last <> [] ->
  entries_ok last last_sep = true ->
  NoDup (entry_names last) ->
  all_chars is_lineend_ch last_sep = true ->
  parse_paragraphs
    (leading +:+ blocks_text pars +:+ entries_text last +:+ last_sep) origin
  = Returns (inl (document_of (advance leading {| row := 1; column := 1 |})
                    (pars ++ [(last, last_sep)]))).
Proof.
  intros Hlead Hpars Hne Hok Hnd Hsep.
  pose proof (item_start_not_blank _
                (entries_text_item_start last last_sep last_sep Hne Hok)) as Hstart1.
  pose proof (blocks_text_not_blank _ _ _ Hpars Hstart1) as Hstart.
  destruct (not_blank_stops _ Hstart) as (_ & _ & Hws & _ & _).
  rewrite (parse_paragraphs_leading _ _ _ Hlead Hws).
  set (P0 := init _ origin _).
  pose proof (blocks_text_length _ _ Hpars) as Hlen1.
  pose proof (entries_text_length last) as Hlen2.
  assert (Hlen3 : (1 <= length last)%nat) by (destruct last; [congruence|simpl; lia]).
  replace (S (String.length (blocks_text pars +:+ entries_text last +:+ last_sep)))
    with (length pars
          + S (S (String.length (blocks_text pars +:+ entries_text last +:+ last_sep)
                  - length pars - 1)))
    by (rewrite !length_append; lia).
  rewrite (get_paragraphs_loop_document pars _ [] P0 leading
             (entries_text last +:+ last_sep) Hpars Hstart1).
  rewrite (get_paragraphs_loop_last _ _ P0 _ last last_sep Hne Hok Hnd Hsep).
  cbn [mbind Outcome_bind app]. unfold get_error. cbn [moved m_err P0 init].
  rewrite document_of_app. cbn [document_of fst snd].
  now rewrite advance_append.
Qed.

(** The paragraphs of well formed paragraphs have different names. *)
Lemma blocks_ok_names pars following k entries sep :
  blocks_ok pars following = true ->
  pars !! k = Some (entries, sep) ->
  NoDup (entry_names entries).
Proof.
  revert k. induction pars as [|par pars IH]; intros k Hok Hk; [discriminate|].
  destruct (blocks_ok_cons _ _ _ Hok) as (_ & _ & Hnd & _ & _ & Hrest).
  destruct k as [|k]; [injection Hk as ->; exact Hnd|]. exact (IH k Hrest Hk).
Qed.

(** X1. Take a text made of white space, of complete paragraphs and of a
    last paragraph. A paragraph is made of fields with their continuation
    lines and of comment lines, the fields of a paragraph having different
    names; each of its lines ends with a line feed, with a carriage return
    and a line feed, or with a carriage return, and the last line of the
    text may end with the text. Line feeds and carriage returns, at least
    one, separate a paragraph from the next; any number of them, none
    included, follows the last paragraph. Such a text parses to a document
    with one paragraph for each of them, in order. The paragraph of given
    entries holds exactly the names of their fields, each with its value,
    which is the first line and the continuation lines, leading spaces and
    tabs included, joined by line feeds whatever the line ends of the text
    are, and with the position where its value starts; comment lines leave
    nothing. *)
Theorem well_formed_document_is_parsed
  (origin leading : string) (pars : list (list entry * string))
  (last : list entry) (last_sep : string) :
  all_chars is_whitespace leading = true ->
  blocks_ok pars (entries_text last +:+ last_sep) = true ->
  last <> [] ->
  entries_ok last last_sep = true ->
  NoDup (entry_names last) ->
  all_chars is_lineend_ch last_sep = true ->
  exists doc,
    parse_paragraphs
      (leading +:+ blocks_text pars +:+ entries_text last +:+ last_sep) origin
    = Returns (inl doc)
    /\ doc = document_of (advance leading {| row := 1; column := 1 |})
               (pars ++ [(last, last_sep)])
    /\ length doc = S (length pars)
    /\ forall k entries sep,
         (pars ++ [(last, last_sep)]) !! k = Some (entries, sep) ->
         exists fields,
           doc !! k = Some fields
           /\ (forall b, FieldEntry b ∈ entries ->
                         exists rc, fields !! fl_name b = Some (field_value b, rc))
           /\ (forall name, name ∉ entry_names entries -> fields !! name = None).
Proof.
  intros Hlead Hpars Hne Hok Hnd Hsep.
  eexists. split; [now apply parse_paragraphs_document|]. split; [reflexivity|].
  split; [rewrite document_of_length, length_app; simpl; lia|].
  intros k entries sep Hk.
  destruct (document_of_lookup _ (advance leading {| row := 1; column := 1 |}) _ _ _ Hk)
    as (rc' & Hdoc).
  exists (entries_into ∅ rc' entries). split; [exact Hdoc|]. split.
  - intros b Hb. apply entries_into_field; [|exact Hb].
    apply lookup_app_Some in Hk as [Hk|[_ Hk]].
    + exact (blocks_ok_names _ _ _ _ _ Hpars Hk).
    + apply list_lookup_singleton_Some in Hk as [_ [= <- <-]]. exact Hnd.
  - intros name Hname. rewrite entries_into_other by exact Hname. apply lookup_empty.
Qed.

(** X2. A line in the place of a field that starts with a character which
    is neither a letter, a digit or a dash, nor the hash sign of a comment,
    nor white space. In every state of the parser without error, the turn
    of [get_paragraph] on such a line leaves the paragraph as it is and
    ends with the error "expected fieldname" at the cursor. And after a
    text of white space, complete paragraphs and entries of a paragraph,
    with any of the line ends, the parse fails with that error at the
    position of the character, whatever follows. *)
Theorem line_without_field_name
  (origin leading : string) (pars : list (list entry * string)) (entries : list entry)
  (ch : ascii) (rest : string) :
  all_chars is_whitespace leading = true ->
  blocks_ok pars (entries_text entries +:+ String ch rest) = true ->
  entries_ok entries (String ch rest) = true ->
  NoDup (entry_names entries) ->
  not_blank ch = true ->
  is_alphanumdash ch = false ->
  Ascii.eqb ch "#" = false ->
  parse_paragraphs
    (leading +:+ blocks_text pars +:+ entries_text entries +:+ String ch rest) origin
  = Returns (inr (format
       {| pe_origin := origin;
          pe_row := row (advance (leading +:+ blocks_text pars +:+ entries_text entries)
                           {| row := 1; column := 1 |});
          pe_column :=
            column (advance (leading +:+ blocks_text pars +:+ entries_text entries)
                      {| row := 1; column := 1 |});
          pe_message := "expected fieldname" |}))
  /\ (forall fuel (fields : Paragraph) p ch' rest',
        m_rest p = String ch' rest' ->
        is_alphanumdash ch' = false ->
        Ascii.eqb ch' "#" = false ->
        m_err p = None ->
        exists pe,
          PghParser.get_paragraph_loop (S fuel) fields p = Returns (fields, pe)
          /\ at_eof pe = true
          /\ get_error pe
             = Some {| pe_origin := m_origin p; pe_row := m_row p;
                       pe_column := m_column p;
                       pe_message := "expected fieldname" |}).
Proof.
  intros Hlead Hpars Hok Hnd Hnb Hch Hhash.
  split; [|intros; now apply (turn_without_field_name _ _ _ ch' rest')].
  apply parse_fails_after_prefix; [exact Hlead|exact Hpars|exact Hok|exact Hnd|exact Hnb|].
  intros fuel p Ho He Hloc. eexists _, _.
  split; [now apply get_paragraph_loop_no_name|]. split; [reflexivity|].
  unfold get_error, add_error, add_error_at. cbn [m_err m_origin].
  rewrite !cur_loc_moved. cbn [m_err m_origin moved]. now rewrite He, Ho, Hloc.
Qed.

(** X3. A name in the place of a field that no colon follows. In every
    state of the parser without error, the turn of [get_paragraph] on it
    leaves the paragraph as it is and ends with the error "expected ':'
    after field name" at the position after the name. And after a text of
    white space, complete paragraphs and entries of a paragraph, with any
    of the line ends, the parse fails with that error at that position. *)
Theorem field_name_without_colon
  (origin leading : string) (pars : list (list entry * string)) (entries : list entry)
  (name rest : string) :
  all_chars is_whitespace leading = true ->
  blocks_ok pars (entries_text entries +:+ name +:+ rest) = true ->
  entries_ok entries (name +:+ rest) = true ->
  NoDup (entry_names entries) ->
  name_ok name = true ->
  stops is_alphanumdash rest = true ->
  starts_with (fun ch => Ascii.eqb ch ":") rest = false ->
  parse_paragraphs
    (leading +:+ blocks_text pars +:+ entries_text entries +:+ name +:+ rest) origin
  = Returns (inr (format
       {| pe_origin := origin;
          pe_row :=
            row (advance (leading +:+ blocks_text pars +:+ entries_text entries +:+ name)
                   {| row := 1; column := 1 |});
          pe_column :=
            column (advance (leading +:+ blocks_text pars +:+ entries_text entries
                               +:+ name)
                      {| row := 1; column := 1 |});
          pe_message := "expected ':' after field name" |}))
  /\ (forall fuel (fields : Paragraph) p name' rest',
        m_rest p = name' +:+ rest' ->
        name_ok name' = true ->
        stops is_alphanumdash rest' = true ->
        starts_with (fun ch => Ascii.eqb ch ":") rest' = false ->
        m_err p = None ->
        exists pe,
          PghParser.get_paragraph_loop (S fuel) fields p = Returns (fields, pe)
          /\ at_eof pe = true
          /\ get_error pe
             = Some {| pe_origin := m_origin p;
                       pe_row := row (advance name' (cur_loc p));
                       pe_column := column (advance name' (cur_loc p));
                       pe_message := "expected ':' after field name" |}).
Proof.
  intros Hlead Hpars Hok Hnd Hn Hstop Hcolon.
  split; [|intros; now apply (turn_without_colon _ _ _ name' rest')].
  destruct (name_ok_spec _ Hn) as (_ & ch & n' & Hname & Hch).
  destruct (name_char _ Hch) as (_ & _ & _ & Hws).
  apply parse_fails_after_prefix; [exact Hlead|exact Hpars|exact Hok|exact Hnd| |].
  { rewrite Hname, append_cons. cbn [starts_with]. unfold not_blank. now rewrite Hws. }
  intros fuel p Ho He Hloc. eexists _, _.
  split; [now apply get_paragraph_loop_no_colon|].
  destruct (get_error_add_error_moved "expected ':' after field name" p
              ((leading +:+ blocks_text pars +:+ entries_text entries) +:+ name) rest He)
    as [H1 H2].
  split; [exact H1|]. rewrite H2, Ho, Hloc. now rewrite !append_assoc.
Qed.

(** X4. A field with a new name whose lines, with any of the line ends, are
    followed by a line that starts with a space and holds spaces and tabs
    only, up to a line end or the end of the text. In every state of the
    parser without error, the turn of [get_paragraph] on it ends with the
    error on blank lines, placed at the end of that line, the field entered
    with the value read so far. And after a text of white space, complete
    paragraphs and entries of a paragraph, the parse fails with that error
    at that position. *)
Theorem blank_line_inside_field
  (origin leading : string) (pars : list (list entry * string)) (entries : list entry)
  (b : field_lines) (sp ending : string) :
  all_chars is_whitespace leading = true ->
  blocks_ok pars (entries_text entries +:+ field_text b +:+ String " " sp +:+ ending)
  = true ->
  entries_ok entries (field_text b +:+ String " " sp +:+ ending) = true ->
  NoDup (entry_names entries) ->
  field_ok b (String " " sp +:+ ending) = true ->
  fl_name b ∉ entry_names entries ->
  all_chars is_tab_space sp = true ->
  stops (fun ch => negb (is_lineend_ch ch)) ending = true ->
  parse_paragraphs
    (leading +:+ blocks_text pars +:+ entries_text entries
       +:+ field_text b +:+ String " " sp +:+ ending) origin
  = Returns (inr (format
       {| pe_origin := origin;
          pe_row :=
            row (advance (leading +:+ blocks_text pars +:+ entries_text entries
                            +:+ field_text b +:+ String " " sp)
                   {| row := 1; column := 1 |});
          pe_column :=
            column (advance (leading +:+ blocks_text pars +:+ entries_text entries
                               +:+ field_text b +:+ String " " sp)
                      {| row := 1; column := 1 |});
          pe_message := PghParser.blank_line_message |}))
  /\ (forall fuel (fields : Paragraph) p b' sp' ending',
        m_rest p = field_text b' +:+ String " " sp' +:+ ending' ->
        field_ok b' (String " " sp' +:+ ending') = true ->
        fields !! fl_name b' = None ->
        all_chars is_tab_space sp' = true ->
        stops (fun ch => negb (is_lineend_ch ch)) ending' = true ->
        m_err p = None ->
        exists pe,
          PghParser.get_paragraph_loop (S fuel) fields p
          = Returns (<[fl_name b' :=
                         (field_value b',
                          advance (fl_name b' +:+ ":" +:+ fl_spacing b') (cur_loc p))]>
                       fields, pe)
          /\ at_eof pe = true
          /\ get_error pe
             = Some {| pe_origin := m_origin p;
                       pe_row :=
                         row (advance (field_text b' +:+ String " " sp') (cur_loc p));
                       pe_column :=
                         column (advance (field_text b' +:+ String " " sp') (cur_loc p));
                       pe_message := PghParser.blank_line_message |}).
Proof.
  intros Hlead Hpars Hok Hnd Hb Hnew Hsp Hend.
  split; [|intros fuel fields p b' sp' ending' H1 H2 H3 H4 H5 H6;
           exact (turn_with_blank_line fuel fields p b' sp' ending' H1 H2 H3 H4 H5 H6)].
  apply parse_fails_after_prefix; [exact Hlead|exact Hpars|exact Hok|exact Hnd| |].
  { apply item_start_not_blank, (entry_text_starts (FieldEntry b) _ _ Hb). }
  intros fuel p Ho He Hloc. eexists _, _.
  split.
  { apply get_paragraph_loop_blank_line; [exact Hb| |exact Hsp|exact Hend].
    rewrite entries_into_other by exact Hnew. apply lookup_empty. }
  destruct (get_error_add_error_moved PghParser.blank_line_message p
              ((leading +:+ blocks_text pars +:+ entries_text entries)
                 +:+ field_text b +:+ String " " sp) ending He)
    as [H1 H2].
  split; [exact H1|]. rewrite H2, Ho, Hloc. now rewrite !append_assoc.
Qed.

Lemma diagnosed_match_zero_or_more origin pred p :
  diagnosed origin p -> diagnosed origin (match_zero_or_more pred p).2.
Proof.
  unfold match_zero_or_more. destruct (scan pred (m_rest p) (cur_loc p)) as [m [r rc]].
  exact (fun H => H).
Qed.

Lemma diagnosed_next origin p : diagnosed origin p -> diagnosed origin (next p).
Proof. unfold next. destruct (m_rest p); exact (fun H => H). Qed.

Lemma diagnosed_skip_newline origin p :
  diagnosed origin p -> diagnosed origin (skip_newline p).
Proof.
  intros H. unfold skip_newline.
  assert (H1 : diagnosed origin (if cur_is p CR then next p else p)).
  { destruct (cur_is p CR); [now apply diagnosed_next|exact H]. }
  destruct (cur_is _ LF); [now apply diagnosed_next|exact H1].
Qed.

Lemma diagnosed_add_error_at origin message loc p :
  message ∈ paragraph_messages ->
  diagnosed origin p -> diagnosed origin (add_error_at message loc p).
Proof.
  intros Hm [Ho He]. split; [exact Ho|]. intros e. cbn [add_error_at m_err].
  destruct (m_err p) as [e0|] eqn:E.
  - intros [= <-]. now apply He.
  - intros [= <-]. cbn [pe_origin pe_message]. now split.
Qed.

Lemma get_fieldvalue_loop_diagnosed origin fuel :
  forall fieldvalue p v p',
    PghParser.get_fieldvalue_loop fuel fieldvalue p = Returns (v, p') ->
    diagnosed origin p -> diagnosed origin p'.
Proof.
  induction fuel as [|fuel IH]; intros fv p v p'; [discriminate|].
  cbn [PghParser.get_fieldvalue_loop]. unfold match_until. intros Hr Hp.
  pose proof (diagnosed_match_zero_or_more origin
                (fun ch => negb (is_lineend_ch ch)) p Hp) as H1.
  destruct (match_zero_or_more _ p) as [line p1]. cbn [snd] in H1.
  apply diagnosed_skip_newline in H1.
  destruct (negb (cur_is (skip_newline p1) " ")); [now injection Hr as <- <-|].
  unfold skip_tabs_spaces in Hr.
  pose proof (diagnosed_match_zero_or_more origin is_tab_space _ H1) as H2.
  destruct (match_zero_or_more is_tab_space (skip_newline p1)) as [spacing p3].
  cbn [snd] in H2.
  destruct (is_lineend (cur p3)).
  - injection Hr as <- <-. apply diagnosed_add_error_at; [|exact H2].
    unfold paragraph_messages. set_solver.
  - exact (IH _ _ _ _ Hr H2).
Qed.

Lemma get_paragraph_loop_diagnosed origin fuel :
  forall fields p fields' p',
    PghParser.get_paragraph_loop fuel fields p = Returns (fields', p') ->
    diagnosed origin p -> diagnosed origin p'.
Proof.
  induction fuel as [|fuel IH]; intros fields p fields' p'; [discriminate|].
  cbn [PghParser.get_paragraph_loop]. intros Hr Hp.
  destruct (cur_is p "#").
  { assert (H1 : diagnosed origin (skip_line p)).
    { unfold skip_line, match_until.
      now apply diagnosed_skip_newline, diagnosed_match_zero_or_more. }
    destruct (negb (is_lineend (cur (skip_line p)))); [exact (IH _ _ _ _ Hr H1)|].
    now injection Hr as <- <-. }
  assert (H1 : diagnosed origin (PghParser.get_fieldname p).2).
  { unfold PghParser.get_fieldname.
    pose proof (diagnosed_match_zero_or_more origin is_alphanumdash p Hp) as H.
    destruct (match_zero_or_more is_alphanumdash p) as [n q]. cbn [snd] in H.
    destruct (bool_decide _); cbn [snd]; [|exact H].
    apply diagnosed_add_error_at; [|exact H]. unfold paragraph_messages. set_solver. }
  destruct (PghParser.get_fieldname p) as [fieldname p1]. cbn [snd] in H1.
  destruct (negb (cur_is p1 ":")).
  { injection Hr as <- <-. apply diagnosed_add_error_at; [|exact H1].
    unfold paragraph_messages. set_solver. }
  destruct (PghParser.contains fields fieldname).
  { injection Hr as <- <-. apply diagnosed_add_error_at; [|exact H1].
    unfold paragraph_messages. set_solver. }
  assert (H2 : diagnosed origin (skip_tabs_spaces (next p1)).2).
  { now apply diagnosed_match_zero_or_more, diagnosed_next. }
  destruct (PghParser.get_fieldvalue _) as [[v p4]| | |] eqn:Ev;
    cbn [mbind Outcome_bind] in Hr; try discriminate.
  apply (get_fieldvalue_loop_diagnosed origin) in Ev; [|exact H2].
  destruct (negb (is_lineend (cur p4))); [exact (IH _ _ _ _ Hr Ev)|].
  now injection Hr as <- <-.
Qed.

Lemma get_paragraphs_loop_diagnosed origin fuel :
  forall paragraphs p paragraphs' p',
    PghParser.get_paragraphs_loop fuel paragraphs p = Returns (paragraphs', p') ->
    diagnosed origin p -> diagnosed origin p'.
Proof.
  induction fuel as [|fuel IH]; intros ps p ps' p'; [discriminate|].
  cbn [PghParser.get_paragraphs_loop]. intros Hr Hp.
  destruct (at_eof p); [now injection Hr as <- <-|].
  destruct (PghParser.get_paragraph p) as [[f p1]| | |] eqn:Ef;
    cbn [mbind Outcome_bind] in Hr; try discriminate.
  apply (get_paragraph_loop_diagnosed origin) in Ef; [|exact Hp].
  apply (IH _ _ _ _ Hr). now apply diagnosed_match_zero_or_more.
Qed.

(** X5. [parse_paragraphs] returns on every text: a document, or the
    formatted text of one error, which names the origin that was given and
    carries one of the four messages of the grammar. *)
Theorem parse_paragraphs_returns (text origin : string) :
  (exists doc, parse_paragraphs text origin = Returns (inl doc))
  \/ (exists e, parse_paragraphs text origin = Returns (inr (format e))
                /\ pe_origin e = origin
                /\ pe_message e ∈ paragraph_messages).
Proof.
  unfold parse_paragraphs, PghParser.get_paragraphs.
  set (p0 := (skip_whitespace (init text origin {| row := 0; column := 0 |})).2).
  assert (H0 : diagnosed origin p0).
  { apply diagnosed_match_zero_or_more. split; [reflexivity|discriminate]. }
  destruct (get_paragraphs_loop_returns (S (String.length (m_rest p0))) [] p0)
    as ([ps p] & Hr); [unfold remaining; lia|].
  rewrite Hr. cbn [mbind Outcome_bind].
  apply (get_paragraphs_loop_diagnosed origin) in Hr; [|exact H0].
  unfold get_error. destruct (m_err p) as [e|] eqn:E.
  - right. exists e. split; [reflexivity|]. now apply (proj2 Hr).
  - left. now eexists.
Qed.

Lemma scan_all pred s rc : all_chars pred (scan pred s rc).1 = true.
Proof.
  revert rc. induction s as [|ch s IH]; intros rc; [reflexivity|].
  cbn [scan]. destruct (pred ch) eqn:E; [|reflexivity].
  specialize (IH (advance_rowcol ch rc)).
  destruct (scan pred s (advance_rowcol ch rc)) as [m r]. cbn [fst all_chars] in *.
  now rewrite E, IH.
Qed.

Lemma get_paragraphs_loop_extends fuel :
  forall acc p ps p',
    PghParser.get_paragraphs_loop fuel acc p = Returns (ps, p') ->
    exists more, ps = acc ++ more.
Proof.
  induction fuel as [|fuel IH]; intros acc p ps p'; [discriminate|].
  cbn [PghParser.get_paragraphs_loop].
  destruct (at_eof p).
  { intros [= <- <-]. exists []. now rewrite app_nil_r. }
  destruct (PghParser.get_paragraph p) as [[f p1]| | |];
    cbn [mbind Outcome_bind]; try discriminate.
  intros Hr. destruct (IH _ _ _ _ Hr) as [more ->].
  exists (f :: more). now rewrite <- app_assoc.
Qed.

(** A text that parses to the document without paragraphs is white space. *)
Lemma empty_document_whitespace (text origin : string) :
  parse_paragraphs text origin = Returns (inl []) ->
  all_chars is_whitespace text = true.
Proof.
  unfold parse_paragraphs, PghParser.get_paragraphs, skip_whitespace, match_zero_or_more.
  cbn [init m_rest].
  pose proof (scan_split is_whitespace text
                (cur_loc (init text origin {| row := 0; column := 0 |}))) as Hsplit.
  pose proof (scan_all is_whitespace text
                (cur_loc (init text origin {| row := 0; column := 0 |}))) as Hall.
  destruct (scan is_whitespace text _) as [m [rest rc]]. cbn [fst snd] in *.
  cbn [snd m_rest]. destruct rest as [|ch rest].
  { intros _. rewrite append_empty_r in Hsplit. now rewrite Hsplit. }
  cbn [PghParser.get_paragraphs_loop at_eof m_rest].
  destruct (PghParser.get_paragraph _) as [[f p1]| | |];
    cbn [mbind Outcome_bind]; try discriminate.
  destruct (PghParser.get_paragraphs_loop _ _ _) as [[ps p']| | |] eqn:Hr;
    cbn [mbind Outcome_bind]; try discriminate.
  destruct (get_paragraphs_loop_extends _ _ _ _ _ Hr) as [more ->].
  destruct (get_error p'); [discriminate|]. intros [=].
Qed.

(** X6. The texts that parse to the document without paragraphs are the
    texts of white space: any other character gives a paragraph or an
    error. *)
Theorem empty_document_iff_whitespace (text origin : string) :
  parse_paragraphs text origin = Returns (inl [])
  <-> all_chars is_whitespace text = true.
Proof.
  split; [apply empty_document_whitespace|apply parse_paragraphs_whitespace].
Qed.

(** X7. [parse_single_paragraph] returns the paragraph of a text that holds
    exactly one, with any of the line ends and whether or not the last line
    is ended, and the error "There should be exactly one paragraph" for a
    well formed text with more of them and for a text of white space, the
    empty text included. *)
Theorem single_paragraph_is_required
  (origin leading : string) (pars : list (list entry * string))
  (last : list entry) (last_sep : string) :
  all_chars is_whitespace leading = true ->
  blocks_ok pars (entries_text last +:+ last_sep) = true ->
  last <> [] ->
  entries_ok last last_sep = true ->
  NoDup (entry_names last) ->
  all_chars is_lineend_ch last_sep = true ->
  parse_single_paragraph
    (leading +:+ blocks_text pars +:+ entries_text last +:+ last_sep) origin
  = Returns (match pars with
             | [] => inl (entries_into ∅ (advance leading {| row := 1; column := 1 |}) last)
             | _ :: _ => inr "There should be exactly one paragraph"
             end)
  /\ parse_single_paragraph leading origin
     = Returns (inr "There should be exactly one paragraph").
Proof.
  intros Hlead Hpars Hne Hok Hnd Hsep. split.
  - unfold parse_single_paragraph.
    pose proof (parse_paragraphs_document origin leading pars last last_sep
                  Hlead Hpars Hne Hok Hnd Hsep) as Hp.
    unfold parse_paragraphs in Hp. rewrite Hp. cbn [mbind Outcome_bind].
    destruct pars as [|par pars]; [reflexivity|].
    cbn [app document_of]. rewrite document_of_app. cbn [document_of].
    now destruct (document_of _ pars).
  - unfold parse_single_paragraph.
    pose proof (parse_paragraphs_whitespace leading origin Hlead) as Hp.
    unfold parse_paragraphs in Hp. now rewrite Hp.
Qed.

End DocumentFacts.

(** *** Whole documents on example texts *)

Lemma well_formed_document_is_parsed_witness :
  Paragraphs.parse_paragraphs
    (crlf
       +:+ "# the port" +:+ crlf
       +:+ "Source: zlib" +:+ crlf
       +:+ crlf
       +:+ "Version: 1.2" +:+ lf
       +:+ "Description: A compression" +:+ crlf
       +:+ "  library")
    "CONTROL"
  = Returns (inl [ {["Source" := ("zlib", {| Parse.row := 3; Parse.column := 9 |})]};
                   {["Version" := ("1.2", {| Parse.row := 5; Parse.column := 10 |});
                     "Description" :=
                       ("A compression" +:+ lf +:+ "  library",
                        {| Parse.row := 6; Parse.column := 14 |})]} ]).
Proof.
  destruct (well_formed_document_is_parsed "CONTROL" crlf
              pars_source entries_version EmptyString)
    as (doc & Hparse & Hdoc & _).
  - reflexivity.
  - reflexivity.
  - discriminate.
  - reflexivity.
  - apply NoDup_cons_2; [|apply NoDup_singleton].
    intros H. apply list_elem_of_singleton in H. discriminate.
  - reflexivity.
  - etransitivity; [exact Hparse|]. rewrite Hdoc. reflexivity.
Defined.

Lemma line_without_field_name_witness :
  Paragraphs.parse_paragraphs
    ("Source: zlib" +:+ crlf +:+ " tools" +:+ crlf +:+ "=Version: 1.2" +:+ crlf)
    "CONTROL"
  = Returns (inr "CONTROL:3:1: error: expected fieldname").
Proof.
  apply (proj1 (line_without_field_name "CONTROL" EmptyString []
                  [FieldEntry (mkFieldLines "Source" " " "zlib"
                                 [(crlf, (" ", "tools"))] crlf)]
                  "="%char ("Version: 1.2" +:+ crlf)
                  eq_refl eq_refl eq_refl (NoDup_singleton _) eq_refl eq_refl eq_refl)).
Defined.

Lemma field_name_without_colon_witness :
  Paragraphs.parse_paragraphs
    ("# the port" +:+ crlf +:+ "Source zlib") "CONTROL"
  = Returns (inr "CONTROL:2:7: error: expected ':' after field name").
Proof.
  apply (proj1 (field_name_without_colon "CONTROL" EmptyString []
                  [CommentEntry " the port" crlf] "Source" " zlib"
                  eq_refl eq_refl eq_refl (NoDup_nil_2) eq_refl eq_refl eq_refl)).
Defined.

Lemma blank_line_inside_field_witness :
  Paragraphs.parse_paragraphs
    ("Source: zlib" +:+ crlf
       +:+ "Description: A compression" +:+ crlf
       +:+ " " +:+ crlf
       +:+ " library" +:+ crlf)
    "CONTROL"
  = Returns (inr ("CONTROL:3:2: error: " +:+ Paragraphs.PghParser.blank_line_message)).
Proof.
  apply (proj1 (blank_line_inside_field "CONTROL" EmptyString []
                  [FieldEntry (mkFieldLines "Source" " " "zlib" [] crlf)]
                  (mkFieldLines "Description" " " "A compression" [] crlf)
                  EmptyString (crlf +:+ " library" +:+ crlf)
                  eq_refl eq_refl eq_refl (NoDup_singleton _) eq_refl
                  ltac:(intros H; apply list_elem_of_singleton in H; discriminate)
                  eq_refl eq_refl)).
Defined.

Lemma single_paragraph_is_required_witness :
  Paragraphs.parse_single_paragraph "Source: zlib" "CONTROL"
  = Returns (inl {["Source" := ("zlib", {| Parse.row := 1; Parse.column := 9 |})]})
  /\ Paragraphs.parse_single_paragraph
       ("Version: 1.2" +:+ lf
          +:+ "Description: A compression" +:+ crlf
          +:+ "  library")
       "CONTROL"
     = Returns (inl {["Version" := ("1.2", {| Parse.row := 1; Parse.column := 10 |});
                      "Description" :=
                        ("A compression" +:+ lf +:+ "  library",
                         {| Parse.row := 2; Parse.column := 14 |})]})
  /\ Paragraphs.parse_single_paragraph
       ("# the port" +:+ crlf
          +:+ "Source: zlib" +:+ crlf
          +:+ crlf
          +:+ "Version: 1.2" +:+ lf
          +:+ "Description: A compression" +:+ crlf
          +:+ "  library")
       "CONTROL"
     = Returns (inr "There should be exactly one paragraph")
  /\ Paragraphs.parse_single_paragraph EmptyString "CONTROL"
     = Returns (inr "There should be exactly one paragraph").
Proof.
  assert (Hnd : NoDup (entry_names entries_version)).
  { apply NoDup_cons_2; [|apply NoDup_singleton].
    intros H. apply list_elem_of_singleton in H. discriminate. }
  split; [|split; [|split]].
  - apply (proj1 (single_paragraph_is_required "CONTROL" EmptyString []
                    [FieldEntry (mkFieldLines "Source" " " "zlib" [] EmptyString)]
                    EmptyString eq_refl eq_refl ltac:(discriminate) eq_refl
                    (NoDup_singleton _) eq_refl)).
  - apply (proj1 (single_paragraph_is_required "CONTROL" EmptyString [] entries_version
                    EmptyString eq_refl eq_refl ltac:(discriminate) eq_refl Hnd eq_refl)).
  - apply (proj1 (single_paragraph_is_required "CONTROL" EmptyString pars_source
                    entries_version EmptyString eq_refl eq_refl ltac:(discriminate)
                    eq_refl Hnd eq_refl)).
  - apply (proj2 (single_paragraph_is_required "CONTROL" EmptyString [] entries_version
                    EmptyString eq_refl eq_refl ltac:(discriminate) eq_refl Hnd eq_refl)).
Defined.

(** ** The list parsers return *)

Section ListReturns.
Import Parse.
Context {T : Type}.
Variable plural_item_name : string.
Variable f : ItemParser T.
(** The item parser never moves the cursor backwards, and it leaves an error
    whenever it gives no item. *)
Hypothesis f_forward : forall p, (remaining (f p).2 <= remaining p)%nat.
Hypothesis f_error : forall p, (f p).1 = None -> m_err (f p).2 <> None.

Lemma add_error_at_err message loc p : m_err (add_error_at message loc p) <> None.
Proof. cbn [add_error_at m_err]. now destruct (m_err p). Qed.

(** The loop returns before its fuel is spent, and with an error when it
    returns no list. *)
Lemma parse_list_loop_returns fuel :
  forall ret p,
    (remaining p < fuel)%nat ->
    exists opt pf,
      parse_list_loop plural_item_name f fuel ret p = Returns (opt, pf)
      /\ (opt = None -> m_err pf <> None).
Proof.
  induction fuel as [|fuel IH]; intros ret p Hlt; [lia|].
  cbn [parse_list_loop].
  pose proof (f_forward p) as Hfw. pose proof (f_error p) as Herr.
  destruct (f p) as [[x|] p1]; cbn [fst snd] in *.
  2: { eexists _, _. split; [reflexivity|]. intros _. now apply Herr. }
  pose proof (match_zero_or_more_le is_whitespace p1) as H1.
  fold (skip_whitespace p1) in H1.
  destruct (at_eof (skip_whitespace p1).2) eqn:Heof.
  { eexists _, _. split; [reflexivity|discriminate]. }
  destruct (negb (cur_is (skip_whitespace p1).2 ",")).
  { eexists _, _. split; [reflexivity|]. intros _. apply add_error_at_err. }
  pose proof (next_lt _ Heof) as H2.
  pose proof (match_zero_or_more_le is_whitespace (next (skip_whitespace p1).2)) as H3.
  fold (skip_whitespace (next (skip_whitespace p1).2)) in H3.
  apply IH. lia.
Qed.

Lemma parse_list_until_eof_returns parser :
  exists opt pf,
    parse_list_until_eof plural_item_name f parser = Returns (opt, pf)
    /\ (opt = None -> m_err pf <> None).
Proof.
  unfold parse_list_until_eof.
  destruct (at_eof (skip_whitespace parser).2).
  { eexists _, _. split; [reflexivity|discriminate]. }
  apply parse_list_loop_returns. unfold remaining. lia.
Qed.

(** What an entry point makes of the loop: a list or a message. *)
Lemma finish_list_returns parser :
  exists r : ExpectedS (list T),
    ('(opt, pf) ← parse_list_until_eof plural_item_name f parser; finish_list opt pf)
    = Returns r.
Proof.
  destruct (parse_list_until_eof_returns parser) as (opt & pf & Hr & Herr).
  rewrite Hr. cbn [mbind Outcome_bind]. destruct opt as [v|]; [now eexists|].
  unfold finish_list, get_error. destruct (m_err pf) as [e|]; [now eexists|].
  now destruct (Herr eq_refl).
Qed.

End ListReturns.

Section ListEntryFacts.
Import Parse.
Context {Expr : Type}.
Variable expr_empty : Expr.
Variable parse_feature_name : ItemParser string.
Variable parse_qualified_specifier : ItemParser (ParsedQualifiedSpecifier.t Expr).

Local Abbreviation dependency_of_specifier :=
  (parse_dependency expr_empty parse_qualified_specifier).

Lemma parse_dependency_forward :
  (forall p, (remaining (parse_qualified_specifier p).2 <= remaining p)%nat) ->
  forall p, (remaining (dependency_of_specifier p).2 <= remaining p)%nat.
Proof.
  intros Hfw p. unfold parse_dependency. specialize (Hfw p).
  destruct (parse_qualified_specifier p) as [[pqs|] p1]; cbn [snd] in *; [|exact Hfw].
  destruct (ParsedQualifiedSpecifier.triplet pqs); cbn [snd]; [|exact Hfw].
  rewrite add_error_at_remaining. lia.
Qed.

Lemma parse_dependency_error :
  (forall p, (parse_qualified_specifier p).1 = None ->
             m_err (parse_qualified_specifier p).2 <> None) ->
  forall p, (dependency_of_specifier p).1 = None ->
            m_err (dependency_of_specifier p).2 <> None.
Proof.
  intros Herr p. unfold parse_dependency. specialize (Herr p).
  destruct (parse_qualified_specifier p) as [[pqs|] p1]; cbn [fst snd] in *;
    [|intros _; now apply Herr].
  destruct (ParsedQualifiedSpecifier.triplet pqs); cbn [fst snd]; [|discriminate].
  intros _. apply add_error_at_err.
Qed.

(** X8. With item parsers that never move the cursor backwards and that
    leave an error whenever they give no item, each of the three list
    parsers returns on every text, a list or an error message: the loop
    ends, and the error that is formatted is there. *)
Theorem list_parsers_return (str origin : string) (textrowcol : TextRowCol) :
  (forall p, (remaining (parse_feature_name p).2 <= remaining p)%nat) ->
  (forall p, (parse_feature_name p).1 = None -> m_err (parse_feature_name p).2 <> None) ->
  (forall p, (remaining (parse_qualified_specifier p).2 <= remaining p)%nat) ->
  (forall p, (parse_qualified_specifier p).1 = None ->
             m_err (parse_qualified_specifier p).2 <> None) ->
  (exists r, parse_default_features_list parse_feature_name str origin textrowcol
             = Returns r)
  /\ (exists r, parse_qualified_specifier_list parse_qualified_specifier
                  str origin textrowcol = Returns r)
  /\ (exists r, parse_dependencies_list expr_empty parse_qualified_specifier
                  str origin textrowcol = Returns r).
Proof.
  intros Hfw1 Herr1 Hfw2 Herr2.
  unfold parse_default_features_list, parse_qualified_specifier_list,
    parse_dependencies_list.
  split; [|split].
  - now apply finish_list_returns.
  - now apply finish_list_returns.
  - apply finish_list_returns;
      [now apply parse_dependency_forward|now apply parse_dependency_error].
Qed.

(** The dependency loop does the turns of the specifier loop: a list of
    dependencies comes from a list of specifiers without triplet. *)
Lemma dependency_loop_specifiers fuel :
  forall ret p deps pf,
    parse_list_loop "dependencies" dependency_of_specifier fuel
      (map (to_dependency expr_empty) ret) p
    = Returns (Some deps, pf) ->
    exists more,
      parse_list_loop "dependencies" parse_qualified_specifier fuel ret p
      = Returns (Some (ret ++ more), pf)
      /\ Forall (fun pqs => ParsedQualifiedSpecifier.triplet pqs = None) more
      /\ deps = map (to_dependency expr_empty) (ret ++ more).
Proof.
  induction fuel as [|fuel IH]; intros ret p deps pf; [discriminate|].
  cbn [parse_list_loop]. unfold parse_dependency at 1.
  destruct (parse_qualified_specifier p) as [[q|] p1]; [|discriminate].
  destruct (ParsedQualifiedSpecifier.triplet q) eqn:Ht; [discriminate|].
  fold (to_dependency expr_empty q).
  destruct (at_eof (skip_whitespace p1).2).
  { intros [= <- <-]. exists [q]. split; [reflexivity|].
    split; [now repeat constructor|]. now rewrite map_app. }
  destruct (negb (cur_is (skip_whitespace p1).2 ",")); [discriminate|].
  intros Hloop.
  replace (map (to_dependency expr_empty) ret ++ [to_dependency expr_empty q])
    with (map (to_dependency expr_empty) (ret ++ [q])) in Hloop
    by now rewrite map_app.
  destruct (IH _ _ _ _ Hloop) as (more & Hspec & Hall & Hdeps).
  exists (q :: more). rewrite <- app_assoc in Hspec, Hdeps. cbn [app] in Hspec, Hdeps.
  split; [exact Hspec|]. split; [now constructor|exact Hdeps].
Qed.

(** X9. A text that [parse_dependencies_list] accepts is accepted by
    [parse_qualified_specifier_list] too, with specifiers that have no
    triplet and that are, item by item, what the dependencies were made
    from. *)
Theorem dependencies_come_from_specifiers
  (str origin : string) (textrowcol : TextRowCol) (deps : list (Dependency.t Expr)) :
  parse_dependencies_list expr_empty parse_qualified_specifier str origin textrowcol
  = Returns (inl deps) ->
  exists l,
    parse_qualified_specifier_list parse_qualified_specifier str origin textrowcol
    = Returns (inl l)
    /\ Forall (fun pqs => ParsedQualifiedSpecifier.triplet pqs = None) l
    /\ deps = map (to_dependency expr_empty) l.
Proof.
  unfold parse_dependencies_list, parse_qualified_specifier_list, parse_list_until_eof.
  destruct (at_eof (skip_whitespace (init str origin textrowcol)).2).
  { cbn [mbind Outcome_bind finish_list]. intros [= <-]. exists []. now repeat split. }
  destruct (parse_list_loop "dependencies" dependency_of_specifier _ _ _)
    as [[[l'|] pf]| | |] eqn:Hloop; cbn [mbind Outcome_bind finish_list];
    try discriminate.
  - intros [= <-].
    destruct (dependency_loop_specifiers _ [] _ _ _ Hloop) as (more & Hspec & Hall & Hd).
    rewrite Hspec. cbn [mbind Outcome_bind finish_list app]. now exists more.
  - destruct (get_error pf); discriminate.
Qed.

End ListEntryFacts.

(** *** The instance of the item parsers *)

Section PackageSpecFacts.
Import Parse.

Lemma skip_tabs_spaces_le p : (remaining (skip_tabs_spaces p).2 <= remaining p)%nat.
Proof. apply match_zero_or_more_le. Qed.

Lemma parse_name_forward what p :
  (remaining (PackageSpec.parse_name what p).2 <= remaining p)%nat.
Proof.
  unfold PackageSpec.parse_name.
  pose proof (match_zero_or_more_le PackageSpec.is_package_name_char p) as H.
  destruct (match_zero_or_more _ p) as [ret p1]. cbn [snd] in H.
  destruct (bool_decide _); cbn [snd]; [|exact H].
  unfold add_error. rewrite add_error_at_remaining. lia.
Qed.

Lemma parse_name_error what p :
  (PackageSpec.parse_name what p).1 = None ->
  m_err (PackageSpec.parse_name what p).2 <> None.
Proof.
  unfold PackageSpec.parse_name.
  destruct (match_zero_or_more _ p) as [ret p1].
  destruct (bool_decide _); cbn [fst snd]; [|discriminate].
  intros _. apply add_error_at_err.
Qed.

Lemma parse_feature_list_forward fuel :
  forall features p,
    (remaining (PackageSpec.parse_feature_list fuel features p).2 <= remaining p)%nat
    /\ ((PackageSpec.parse_feature_list fuel features p).1 = None ->
        m_err (PackageSpec.parse_feature_list fuel features p).2 <> None).
Proof.
  induction fuel as [|fuel IH]; intros features p; cbn [PackageSpec.parse_feature_list].
  { cbn [fst snd]. split; [|intros _; apply add_error_at_err].
    unfold add_error. rewrite add_error_at_remaining. lia. }
  pose proof (next_le p) as H1.
  pose proof (skip_tabs_spaces_le (next p)) as H2.
  unfold PackageSpec.parse_feature_name.
  pose proof (parse_name_forward "feature name" (skip_tabs_spaces (next p)).2) as H3.
  pose proof (parse_name_error "feature name" (skip_tabs_spaces (next p)).2) as E3.
  destruct (PackageSpec.parse_name "feature name" (skip_tabs_spaces (next p)).2)
    as [[feature|] p3]; cbn [fst snd] in *.
  2: { split; [lia|intros _; now apply E3]. }
  pose proof (skip_tabs_spaces_le p3) as H4.
  destruct (cur_is (skip_tabs_spaces p3).2 "]").
  { cbn [fst snd]. split; [|discriminate].
    pose proof (next_le (skip_tabs_spaces p3).2). lia. }
  destruct (cur_is (skip_tabs_spaces p3).2 ",").
  { destruct (IH (features ++ [feature]) (skip_tabs_spaces p3).2) as [Ha Hb].
    split; [lia|exact Hb]. }
  cbn [fst snd]. split; [|intros _; apply add_error_at_err].
  unfold add_error. rewrite add_error_at_remaining. lia.
Qed.

Lemma parse_qualifier_forward fuel :
  forall depth acc p,
    (remaining (PackageSpec.parse_qualifier fuel depth acc p).2 <= remaining p)%nat.
Proof.
  induction fuel as [|fuel IH]; intros depth acc p; cbn [PackageSpec.parse_qualifier];
    [cbn [snd]; lia|].
  pose proof (next_le p) as H1.
  destruct (cur p) as [ch|]; [|cbn [snd]; lia].
  destruct (Ascii.eqb ch ")").
  { destruct depth as [|depth']; [cbn [snd]; lia|].
    etransitivity; [apply IH|exact H1]. }
  destruct (Ascii.eqb ch "("); (etransitivity; [apply IH|exact H1]).
Qed.

Lemma parse_triplet_forward p :
  (remaining (PackageSpec.parse_triplet p).2 <= remaining p)%nat
  /\ ((PackageSpec.parse_triplet p).1 = None ->
      m_err (PackageSpec.parse_triplet p).2 <> None).
Proof.
  unfold PackageSpec.parse_triplet.
  pose proof (next_le p) as H1.
  pose proof (match_zero_or_more_le PackageSpec.is_package_name_char (next p)) as H2.
  destruct (match_zero_or_more _ (next p)) as [triplet p1]. cbn [snd] in H2.
  destruct (bool_decide _); cbn [fst snd].
  - split; [|intros _; apply add_error_at_err].
    unfold add_error. rewrite add_error_at_remaining. lia.
  - split; [lia|discriminate].
Qed.

Lemma parse_qualified_specifier_forward p :
  (remaining (PackageSpec.parse_qualified_specifier p).2 <= remaining p)%nat
  /\ ((PackageSpec.parse_qualified_specifier p).1 = None ->
      m_err (PackageSpec.parse_qualified_specifier p).2 <> None).
Proof.
  unfold PackageSpec.parse_qualified_specifier, PackageSpec.parse_package_name.
  pose proof (parse_name_forward "package name" p) as H1.
  pose proof (parse_name_error "package name" p) as E1.
  destruct (PackageSpec.parse_name "package name" p) as [[name|] p1]; cbn [fst snd] in *.
  2: { split; [lia|intros _; now apply E1]. }
  match goal with
  | |- context [if cur_is p1 "[" then ?a else ?b] =>
      assert (Hst : (remaining (if cur_is p1 "[" then a else b).2 <= remaining p1)%nat
                    /\ ((if cur_is p1 "[" then a else b).1 = None ->
                        m_err (if cur_is p1 "[" then a else b).2 <> None));
        [|destruct (if cur_is p1 "[" then a else b) as [[features|] p2];
          cbn [fst snd] in Hst; destruct Hst as [H2 E2]]
  end.
  { destruct (cur_is p1 "["); [|cbn [fst snd]; split; [lia|discriminate]].
    destruct (parse_feature_list_forward (String.length (m_rest p1)) [] p1) as [Ha Hb].
    destruct (PackageSpec.parse_feature_list _ _ _) as [[fs|] q]; cbn [fst snd option_map] in *;
      split; try lia; try discriminate. intros _. now apply Hb. }
  2: { cbn [fst snd]. split; [lia|intros _; now apply E2]. }
  match goal with
  | |- context [if cur_is p2 ":" then ?a else ?b] =>
      assert (Hst : (remaining (if cur_is p2 ":" then a else b).2 <= remaining p2)%nat
                    /\ ((if cur_is p2 ":" then a else b).1 = None ->
                        m_err (if cur_is p2 ":" then a else b).2 <> None));
        [|destruct (if cur_is p2 ":" then a else b) as [[triplet|] p3];
          cbn [fst snd] in Hst; destruct Hst as [H3 E3]]
  end.
  { destruct (cur_is p2 ":"); [|cbn [fst snd]; split; [lia|discriminate]].
    destruct (parse_triplet_forward p2) as [Ha Hb].
    destruct (PackageSpec.parse_triplet p2) as [[tr|] q]; cbn [fst snd option_map] in *;
      split; try lia; try discriminate. intros _. now apply Hb. }
  2: { cbn [fst snd]. split; [lia|intros _; now apply E3]. }
  pose proof (skip_tabs_spaces_le p3) as H4.
  match goal with
  | |- context [if cur_is ?q "(" then ?a else ?b] =>
      assert (Hst : (remaining (if cur_is q "(" then a else b).2 <= remaining q)%nat);
        [|destruct (if cur_is q "(" then a else b) as [[platform|] p5];
          cbn [fst snd] in Hst]
  end.
  { destruct (cur_is (skip_tabs_spaces p3).2 "("); [|cbn [snd]; lia].
    pose proof (next_le (skip_tabs_spaces p3).2) as Hn.
    pose proof (parse_qualifier_forward (String.length (m_rest (skip_tabs_spaces p3).2))
                  0 EmptyString (next (skip_tabs_spaces p3).2)) as Hq.
    destruct (PackageSpec.parse_qualifier _ _ _ _) as [pl q]. cbn [snd] in *. lia. }
  - cbn [fst snd]. split; [|discriminate].
    pose proof (skip_tabs_spaces_le p5). lia.
  - cbn [fst snd]. split; [|intros _; apply add_error_at_err].
    rewrite add_error_at_remaining. lia.
Qed.

End PackageSpecFacts.

(** *** The list parsers on every text of the instance *)

Lemma list_parsers_return_witness :
  (exists r, parse_default_features_list PackageSpec.parse_feature_name
               "core, tools,, x" "CONTROL" {| Parse.row := 4; Parse.column := 19 |}
             = Returns r)
  /\ (exists r, parse_qualified_specifier_list PackageSpec.parse_qualified_specifier
                  "zlib[core:x64 (windows" "CONTROL" {| Parse.row := 0; Parse.column := 0 |}
                = Returns r)
  /\ (exists r, parse_dependencies_list EmptyString PackageSpec.parse_qualified_specifier
                  "zlib[core:x64 (windows" "CONTROL" {| Parse.row := 0; Parse.column := 0 |}
                = Returns r).
Proof.
  pose proof (fun str origin rc =>
                list_parsers_return EmptyString PackageSpec.parse_feature_name
                  PackageSpec.parse_qualified_specifier str origin rc
                  (parse_name_forward "feature name")
                  (parse_name_error "feature name")
                  (fun p => proj1 (parse_qualified_specifier_forward p))
                  (fun p => proj2 (parse_qualified_specifier_forward p))) as H.
  split; [|split].
  - exact (proj1 (H "core, tools,, x" "CONTROL" {| Parse.row := 4; Parse.column := 19 |})).
  - exact (proj1 (proj2 (H "zlib[core:x64 (windows" "CONTROL"
                           {| Parse.row := 0; Parse.column := 0 |}))).
  - exact (proj2 (proj2 (H "zlib[core:x64 (windows" "CONTROL"
                           {| Parse.row := 0; Parse.column := 0 |}))).
Defined.

Lemma dependencies_come_from_specifiers_witness :
  exists l,
    parse_qualified_specifier_list PackageSpec.parse_qualified_specifier
      "zlib, curl[ssl] (windows)" "CONTROL" {| Parse.row := 0; Parse.column := 0 |}
    = Returns (inl l)
    /\ Forall (fun pqs => ParsedQualifiedSpecifier.triplet pqs = None) l
    /\ [ {| Dependency.name := "zlib"; Dependency.features := [];
            Dependency.platform := EmptyString |};
         {| Dependency.name := "curl"; Dependency.features := ["ssl"];
            Dependency.platform := "windows" |} ]
       = map (to_dependency EmptyString) l.
Proof.
  apply (dependencies_come_from_specifiers EmptyString
           PackageSpec.parse_qualified_specifier
           "zlib, curl[ssl] (windows)" "CONTROL" {| Parse.row := 0; Parse.column := 0 |}).
  reflexivity.
Defined.

(** ** Extracting the fields of a schema *)

Section SchemaFacts.
Import ParagraphParser.

Lemma required_field_fields fieldname out pp :
  fields (required_field fieldname out pp).2 = delete fieldname (fields pp).
Proof.
  unfold required_field, remove_field.
  destruct (fields pp !! fieldname) eqn:E; cbn [snd fields]; [reflexivity|].
  now rewrite delete_id.
Qed.

Lemma required_field_missing fieldname out pp :
  missing_fields (required_field fieldname out pp).2
  = missing_fields pp ++ (if absent (fields pp) fieldname then [fieldname] else []).
Proof.
  unfold required_field, remove_field, absent.
  destruct (fields pp !! fieldname); cbn [snd missing_fields]; [|reflexivity].
  now rewrite app_nil_r.
Qed.

Lemma optional_field_fields fieldname out pp :
  fields (optional_field fieldname out pp).2 = delete fieldname (fields pp).
Proof.
  unfold optional_field, remove_field.
  destruct (fields pp !! fieldname) eqn:E; cbn [snd fields]; [reflexivity|].
  now rewrite delete_id.
Qed.

Lemma optional_field_missing fieldname out pp :
  missing_fields (optional_field fieldname out pp).2 = missing_fields pp.
Proof.
  unfold optional_field, remove_field.
  now destruct (fields pp !! fieldname).
Qed.

Lemma require_all_cons a names pp :
  require_all (a :: names) pp
  = require_all names (required_field a (EmptyString, ignore) pp).2.
Proof. reflexivity. Qed.

Lemma allow_all_cons a names pp :
  allow_all (a :: names) pp
  = allow_all names (optional_field a (EmptyString, ignore) pp).2.
Proof. reflexivity. Qed.

Lemma require_all_fields names : forall pp k,
  fields (require_all names pp) !! k
  = if bool_decide (k ∈ names) then None else fields pp !! k.
Proof.
  induction names as [|a names IH]; intros pp k; [reflexivity|].
  rewrite require_all_cons. rewrite IH, required_field_fields.
  destruct (decide (k = a)) as [->|Hne].
  - rewrite lookup_delete_eq. rewrite (bool_decide_eq_true_2 (a ∈ a :: names));
      [now destruct (bool_decide _)|apply list_elem_of_here].
  - rewrite lookup_delete_ne by congruence.
    destruct (decide (k ∈ names)) as [Hin|Hnot].
    + rewrite !bool_decide_eq_true_2; [reflexivity|now apply list_elem_of_further|exact Hin].
    + rewrite !bool_decide_eq_false_2; [reflexivity| |exact Hnot].
      intros H. apply elem_of_cons in H as [?|?]; congruence.
Qed.

Lemma allow_all_fields names : forall pp k,
  fields (allow_all names pp) !! k
  = if bool_decide (k ∈ names) then None else fields pp !! k.
Proof.
  induction names as [|a names IH]; intros pp k; [reflexivity|].
  rewrite allow_all_cons. rewrite IH, optional_field_fields.
  destruct (decide (k = a)) as [->|Hne].
  - rewrite lookup_delete_eq. rewrite (bool_decide_eq_true_2 (a ∈ a :: names));
      [now destruct (bool_decide _)|apply list_elem_of_here].
  - rewrite lookup_delete_ne by congruence.
    destruct (decide (k ∈ names)) as [Hin|Hnot].
    + rewrite !bool_decide_eq_true_2; [reflexivity|now apply list_elem_of_further|exact Hin].
    + rewrite !bool_decide_eq_false_2; [reflexivity| |exact Hnot].
      intros H. apply elem_of_cons in H as [?|?]; congruence.
Qed.

Lemma allow_all_missing names : forall pp,
  missing_fields (allow_all names pp) = missing_fields pp.
Proof.
  induction names as [|a names IH]; intros pp; [reflexivity|].
  rewrite allow_all_cons. now rewrite IH, optional_field_missing.
Qed.

Lemma require_all_missing names : forall pp,
  NoDup names ->
  missing_fields (require_all names pp)
  = missing_fields pp ++ List.filter (absent (fields pp)) names.
Proof.
  induction names as [|a names IH]; intros pp Hnd; [now rewrite app_nil_r|].
  apply NoDup_cons in Hnd as [Ha Hnd].
  rewrite require_all_cons.
  rewrite IH by exact Hnd. rewrite required_field_missing, required_field_fields.
  rewrite <- app_assoc. f_equal. cbn [List.filter].
  assert (Hext : List.filter (absent (delete a (fields pp))) names
                 = List.filter (absent (fields pp)) names).
  { apply List.filter_ext_in. intros n Hn. unfold absent.
    rewrite lookup_delete_ne; [reflexivity|].
    intros ->. apply Ha. now apply list_elem_of_In. }
  rewrite Hext. now destruct (absent (fields pp) a).
Qed.

Lemma error_info_none name pp :
  error_info name pp = None <-> fields pp = ∅ /\ missing_fields pp = [].
Proof.
  unfold error_info, is_empty.
  destruct (decide (fields pp = ∅)) as [He|He];
    destruct (decide (missing_fields pp = [])) as [Hm|Hm];
    rewrite ?(bool_decide_eq_true_2 _ He), ?(bool_decide_eq_false_2 _ He),
      ?(bool_decide_eq_true_2 _ Hm), ?(bool_decide_eq_false_2 _ Hm); cbn [negb orb];
    split; try discriminate; try tauto; intros [? ?]; contradiction.
Qed.

(** X10. A paragraph is checked against a schema by asking for its required
    fields, whose names differ, and then for its optional fields. After
    that the missing list holds the required names that the paragraph did
    not have, in the order asked; the fields left are those whose names
    were not asked for; and [error_info] reports nothing exactly when every
    required field was there and every field of the paragraph was asked
    for. A name that is required a second time is recorded as missing even
    if the paragraph had it. *)
Theorem extraction_checks_the_schema
  (name : string) (required optional : list string) (pp : t) :
  NoDup required ->
  missing_fields pp = [] ->
  missing_fields (allow_all optional (require_all required pp))
  = List.filter (absent (fields pp)) required
  /\ (forall k, fields (allow_all optional (require_all required pp)) !! k
                = if bool_decide (k ∈ required ++ optional) then None
                  else fields pp !! k)
  /\ (error_info name (allow_all optional (require_all required pp)) = None
      <-> (forall k, k ∈ required -> is_Some (fields pp !! k))
          /\ (forall k, is_Some (fields pp !! k) -> k ∈ required ++ optional))
  /\ (forall fieldname out out',
        missing_fields (required_field fieldname out'
                          (required_field fieldname out pp).2).2
        = missing_fields (required_field fieldname out pp).2 ++ [fieldname]).
Proof.
  intros Hnd Hmiss.
  assert (H1 : missing_fields (allow_all optional (require_all required pp))
               = List.filter (absent (fields pp)) required).
  { rewrite allow_all_missing, require_all_missing by exact Hnd. now rewrite Hmiss. }
  assert (H2 : forall k, fields (allow_all optional (require_all required pp)) !! k
                         = if bool_decide (k ∈ required ++ optional) then None
                           else fields pp !! k).
  { intros k. rewrite allow_all_fields, require_all_fields.
    destruct (decide (k ∈ required)) as [Hr|Hr];
      destruct (decide (k ∈ optional)) as [Ho|Ho];
      rewrite ?(bool_decide_eq_true_2 _ Hr), ?(bool_decide_eq_false_2 _ Hr),
        ?(bool_decide_eq_true_2 _ Ho), ?(bool_decide_eq_false_2 _ Ho).
    - rewrite bool_decide_eq_true_2; [reflexivity|apply elem_of_app; now left].
    - rewrite bool_decide_eq_true_2; [reflexivity|apply elem_of_app; now left].
    - rewrite bool_decide_eq_true_2; [reflexivity|apply elem_of_app; now right].
    - rewrite bool_decide_eq_false_2; [reflexivity|].
      intros H. apply elem_of_app in H as [?|?]; contradiction. }
  split; [exact H1|]. split; [exact H2|]. split.
  - rewrite error_info_none, H1, map_empty. split.
    + intros [Hf Hm]. split.
      * intros k Hk. destruct (fields pp !! k) eqn:E; [now eexists|].
        assert (Hin : In k (List.filter (absent (fields pp)) required)).
        { apply List.filter_In. split; [now apply list_elem_of_In|].
          unfold absent. now rewrite E. }
        rewrite Hm in Hin. destruct Hin.
      * intros k [v Hv]. specialize (Hf k). rewrite H2 in Hf.
        destruct (decide (k ∈ required ++ optional)) as [Hin|Hnot]; [exact Hin|].
        rewrite bool_decide_eq_false_2 in Hf by exact Hnot. congruence.
    + intros [Hreq Hall]. split.
      * intros k. rewrite H2.
        destruct (decide (k ∈ required ++ optional)) as [Hin|Hnot].
        -- now rewrite bool_decide_eq_true_2.
        -- rewrite bool_decide_eq_false_2 by exact Hnot.
           destruct (fields pp !! k) eqn:E; [|reflexivity].
           destruct Hnot. apply Hall. rewrite E. now eexists.
      * destruct (List.filter (absent (fields pp)) required) as [|k l] eqn:E;
          [reflexivity|].
        assert (Hin : In k (List.filter (absent (fields pp)) required))
          by (rewrite E; now left).
        apply List.filter_In in Hin as [Hin Habs].
        apply list_elem_of_In in Hin. destruct (Hreq k Hin) as [v Hv].
        unfold absent in Habs. rewrite Hv in Habs. discriminate.
  - intros fieldname out out'.
    rewrite (required_field_missing fieldname out'), required_field_fields.
    unfold absent. now rewrite lookup_delete_eq.
Qed.

End SchemaFacts.

Lemma extraction_checks_the_schema_witness :
  ParagraphParser.missing_fields
    (allow_all ["Description"]
       (require_all ["Source"; "Version"; "Port-Version"]
          {| ParagraphParser.fields :=
               {["Source" := ("zlib", ParagraphParser.ignore);
                 "Homepage" := ("zlib.net", ParagraphParser.ignore)]};
             ParagraphParser.missing_fields := [];
             ParagraphParser.expected_types := [] |}))
  = ["Version"; "Port-Version"].
Proof.
  assert (Hnd : NoDup ["Source"; "Version"; "Port-Version"]).
  { repeat (apply NoDup_cons_2;
            [intros H; repeat (apply elem_of_cons in H as [H|H]; [discriminate|]);
             inversion H|]).
    apply NoDup_nil_2. }
  etransitivity.
  - apply (proj1 (extraction_checks_the_schema "zlib"
                    ["Source"; "Version"; "Port-Version"] ["Description"]
                    {| ParagraphParser.fields :=
                         {["Source" := ("zlib", ParagraphParser.ignore);
                           "Homepage" := ("zlib.net", ParagraphParser.ignore)]};
                       ParagraphParser.missing_fields := [];
                       ParagraphParser.expected_types := [] |}
                    Hnd eq_refl)).
  - vm_compute. reflexivity.
Defined.

(** ** Sorting the names *)

Section SortFacts.
Import Paragraphs.

Lemma leb_le a b : String.leb a b = true <-> String.le a b.
Proof. unfold String.le. split; [apply Is_true_true_2|apply Is_true_true_1]. Qed.

Lemma insert_sorted_perm x l : insert_sorted x l ≡ₚ x :: l.
Proof.
  induction l as [|y l IH]; [reflexivity|]. cbn [insert_sorted].
  destruct (String.leb x y); [reflexivity|]. rewrite IH. apply Permutation_swap.
Qed.

Lemma sort_perm l : sort l ≡ₚ l.
Proof.
  induction l as [|x l IH]; [reflexivity|]. cbn [sort foldr]. fold (sort l).
  rewrite insert_sorted_perm. now constructor.
Qed.

Lemma insert_sorted_sorted x l :
  Sorted String.le l -> Sorted String.le (insert_sorted x l).
Proof.
  induction l as [|y l IH]; intros Hs; [repeat constructor|].
  cbn [insert_sorted]. destruct (String.leb x y) eqn:E.
  { constructor; [exact Hs|]. constructor. now apply leb_le. }
  assert (Hyx : String.le y x).
  { destruct (String.leb_total x y) as [H|H]; [congruence|now apply leb_le]. }
  apply Sorted_inv in Hs as [Hs Hhd]. constructor; [now apply IH|].
  destruct l as [|z l]; [now constructor|]. cbn [insert_sorted].
  destruct (String.leb x z); constructor; [exact Hyx|].
  now apply HdRel_inv in Hhd.
Qed.

Lemma sort_sorted l : Sorted String.le (sort l).
Proof.
  induction l as [|x l IH]; [constructor|]. cbn [sort foldr]. fold (sort l).
  now apply insert_sorted_sorted.
Qed.

Lemma sort_strongly_sorted l : StronglySorted String.le (sort l).
Proof. apply Sorted_StronglySorted; [apply _|apply sort_sorted]. Qed.

Lemma unique_cons_cons a b l :
  unique (a :: b :: l)
  = if String.eqb a b then unique (b :: l) else a :: unique (b :: l).
Proof. reflexivity. Qed.

Lemma unique_elem l : forall x, x ∈ unique l <-> x ∈ l.
Proof.
  induction l as [|a l IH]; intros x; [reflexivity|].
  destruct l as [|b l]; [reflexivity|]. rewrite unique_cons_cons.
  destruct (String.eqb_spec a b) as [->|Hne].
  - rewrite IH. rewrite !elem_of_cons. tauto.
  - rewrite (elem_of_cons (unique _)), IH. rewrite !elem_of_cons. tauto.
Qed.

Lemma unique_strict l :
  StronglySorted String.le l -> StronglySorted (strict String.le) (unique l).
Proof.
  induction l as [|a l IH]; intros Hs; [constructor|].
  apply StronglySorted_cons in Hs as [Hall Hs].
  destruct l as [|b l]; [repeat constructor|]. rewrite unique_cons_cons.
  destruct (String.eqb_spec a b) as [->|Hne]; [now apply IH|].
  apply StronglySorted_cons. split; [|now apply IH].
  apply Forall_forall. intros x Hx. apply (proj1 (unique_elem _ _)) in Hx.
  rewrite Forall_forall in Hall. split; [now apply Hall|].
  intros Hxa. assert (x = a) as -> by (apply (anti_symm String.le); auto).
  apply elem_of_cons in Hx as [?|Hx]; [congruence|].
  apply StronglySorted_cons in Hs as [Hb _]. rewrite Forall_forall in Hb.
  apply Hne, (anti_symm String.le); [apply Hall; left|now apply Hb].
Qed.

Lemma strict_sorted_NoDup (l : list string) :
  StronglySorted (strict String.le) l -> NoDup l.
Proof.
  induction l as [|a l IH]; intros Hs; [constructor|].
  apply StronglySorted_cons in Hs as [Hall Hs].
  apply NoDup_cons. split; [|now apply IH].
  intros Hin. rewrite Forall_forall in Hall. destruct (Hall _ Hin) as [H1 H2]. auto.
Qed.

Lemma sort_unique_erase_sorted l :
  StronglySorted (strict String.le) (sort_unique_erase l).
Proof. apply unique_strict, sort_strongly_sorted. Qed.

Lemma sort_unique_erase_elem l x : x ∈ sort_unique_erase l <-> x ∈ l.
Proof. unfold sort_unique_erase. now rewrite unique_elem, sort_perm. Qed.


Lemma filter_permutation {A} (keep : A -> bool) (l l' : list A) :
  l ≡ₚ l' -> List.filter keep l ≡ₚ List.filter keep l'.
Proof.
  induction 1 as [|x l l' _ IH|x y l|l1 l2 l3 _ IH1 _ IH2]; cbn [List.filter].
  - reflexivity.
  - destruct (keep x); [now constructor|exact IH].
  - destruct (keep x), (keep y); try reflexivity. apply Permutation_swap.
  - now transitivity (List.filter keep l2).
Qed.

Lemma filter_strongly_sorted {A} (R : relation A) (keep : A -> bool) (l : list A) :
  StronglySorted R l -> StronglySorted R (List.filter keep l).
Proof.
  induction l as [|x l IH]; intros Hs; [constructor|].
  apply StronglySorted_cons in Hs as [Hall Hs]. cbn [List.filter].
  destruct (keep x); [|now apply IH].
  apply StronglySorted_cons. split; [|now apply IH].
  rewrite Forall_forall in *. intros y Hy. apply Hall.
  apply list_elem_of_In in Hy. apply List.filter_In in Hy as [Hy _].
  now apply list_elem_of_In.
Qed.

Lemma foldl_packages (regs : list Registry) : forall acc,
  foldl (fun ports registry => ports ++ packages registry) acc regs
  = acc ++ concat (map packages regs).
Proof.
  induction regs as [|r regs IH]; intros acc; [now rewrite app_nil_r|].
  cbn [foldl map concat]. now rewrite IH, app_assoc.
Qed.

Lemma candidate_ports_declared regs :
  candidate_ports regs = sort_unique_erase (declared_ports regs).
Proof.
  unfold candidate_ports, declared_ports. now rewrite foldl_packages.
Qed.

(** X11. The names that [try_load_all_registry_ports] goes through are the
    names that the registries declare, each of them once however often it
    is declared, in strictly ascending order. *)
Theorem candidate_ports_are_distinct (regs : RegistrySet) :
  NoDup (candidate_ports regs)
  /\ StronglySorted (strict String.le) (candidate_ports regs)
  /\ forall port_name,
       port_name ∈ candidate_ports regs <-> port_name ∈ declared_ports regs.
Proof.
  rewrite candidate_ports_declared. split; [|split].
  - apply strict_sorted_NoDup, sort_unique_erase_sorted.
  - apply sort_unique_erase_sorted.
  - intros port_name. apply sort_unique_erase_elem.
Qed.

(** X12. [load_overlay_ports] goes through the directories that the file
    system lists, each as often as it is listed, in ascending order of
    their paths, the entries named [.DS_Store] left out. *)
Theorem overlay_directories (fs : Filesystem) (directory : Path) (listed : list Path) :
  get_directories_non_recursive fs directory = Returns listed ->
  exists port_dirs,
    overlay_port_dirs fs directory = Returns port_dirs
    /\ port_dirs ≡ₚ List.filter is_overlay_entry listed
    /\ StronglySorted String.le port_dirs
    /\ forall path,
         path ∈ port_dirs <-> path ∈ listed /\ filename path <> ".DS_Store".
Proof.
  intros Hlist. unfold overlay_port_dirs. rewrite Hlist. cbn [mbind Outcome_bind].
  eexists. split; [reflexivity|].
  fold is_overlay_entry.
  change (fun port_dir_entry => negb (String.eqb (filename port_dir_entry) ".DS_Store"))
    with is_overlay_entry.
  split; [apply filter_permutation, sort_perm|].
  split; [apply filter_strongly_sorted, sort_strongly_sorted|].
  intros path. rewrite list_elem_of_In, List.filter_In, <- list_elem_of_In, sort_perm.
  unfold is_overlay_entry. rewrite negb_true_iff, String.eqb_neq. reflexivity.
Qed.

End SortFacts.

Lemma overlay_directories_witness :
  exists port_dirs,
    Paragraphs.overlay_port_dirs fs_ports "overlay" = Returns port_dirs
    /\ port_dirs
       ≡ₚ List.filter is_overlay_entry ["overlay/b"; "overlay/.DS_Store"; "overlay/a"]
    /\ StronglySorted String.le port_dirs
    /\ forall path,
         path ∈ port_dirs
         <-> path ∈ ["overlay/b"; "overlay/.DS_Store"; "overlay/a"]
             /\ Paragraphs.filename path <> ".DS_Store".
Proof.
  apply (overlay_directories fs_ports "overlay"
           ["overlay/b"; "overlay/.DS_Store"; "overlay/a"]).
  reflexivity.
Defined.

(** ** More on the loaders *)

Section LoaderFacts.
Import Parse Paragraphs.
Context {SourceControlFile JsonValue JsonObject : Type}.
Variable Json_parse : string -> JsonValue + string.
Variable is_object : JsonValue -> bool.
Variable object : JsonValue -> JsonObject.
Variable parse_manifest_object : string -> JsonObject -> ParseExpected SourceControlFile.
Variable parse_control_file : string -> list Paragraph -> ParseExpected SourceControlFile.
Variable g_debugging : bool.
Variable print_error_message : list ParseControlErrorInfo.t -> list string.

Local Abbreviation load_port :=
  (try_load_port Json_parse is_object object parse_manifest_object parse_control_file).
Local Abbreviation load_port_text :=
  (try_load_port_text Json_parse is_object object parse_manifest_object
     parse_control_file).
Local Abbreviation overlay_loop :=
  (load_overlay_ports_loop Json_parse is_object object parse_manifest_object
     parse_control_file).
Local Abbreviation registry_loop :=
  (load_registry_ports_loop Json_parse is_object object parse_manifest_object
     parse_control_file).
Local Abbreviation load_all_registry :=
  (try_load_all_registry_ports Json_parse is_object object parse_manifest_object
     parse_control_file).

Lemma try_load_port_conflict (fs : Filesystem) (port_directory : Path) :
  both_files fs port_directory = true ->
  load_port fs port_directory = Exits (both_files_message port_directory).
Proof.
  unfold both_files, try_load_port. intros H.
  destruct (read_contents fs (path_join port_directory "vcpkg.json")); [|discriminate].
  now rewrite H.
Qed.

(** The loop over directories stops at the first one that holds both
    files. *)
Lemma load_overlay_ports_loop_conflict (fs : Filesystem)
  (before : list Path) (conflict : Path) (after : list Path) :
  Forall (fun path => both_files fs path = false) before ->
  both_files fs conflict = true ->
  forall ret,
    overlay_loop fs (before ++ conflict :: after) ret
    = Exits (both_files_message conflict).
Proof.
  intros Hbefore Hconflict.
  induction Hbefore as [|path before Hpath _ IH]; intros ret;
    cbn [app load_overlay_ports_loop].
  - now rewrite (try_load_port_conflict _ _ Hconflict).
  - destruct (try_load_port_no_conflict Json_parse is_object object parse_manifest_object
                parse_control_file fs path Hpath) as [r Hr].
    rewrite Hr. cbn [mbind Outcome_bind]. destruct r; apply IH.
Qed.

(** X13. A directory that holds both a readable manifest and a control
    file ends the whole batch: when it is the first such directory among
    those that a batch loader goes through, the loader ends the run with the
    message that names it, whatever the directories before it gave and
    whatever comes after it. *)
Theorem conflict_ends_the_batch (fs : Filesystem)
  (before : list Path) (conflict : Path) (after : list Path) :
  Forall (fun path => both_files fs path = false) before ->
  both_files fs conflict = true ->
  (forall regs,
      attempted regs = before ++ conflict :: after ->
      load_all_registry fs regs = Exits (both_files_message conflict)
      /\ load_all_registry_ports Json_parse is_object object parse_manifest_object
           parse_control_file g_debugging print_error_message fs regs
         = Exits (both_files_message conflict))
  /\ (forall directory,
        overlay_port_dirs fs directory = Returns (before ++ conflict :: after) ->
        load_overlay_ports Json_parse is_object object parse_manifest_object
          parse_control_file g_debugging print_error_message fs directory
        = Exits (both_files_message conflict)).
Proof.
  intros Hbefore Hconflict. split.
  - intros regs Hattempted.
    assert (H : load_all_registry fs regs = Exits (both_files_message conflict)).
    { unfold try_load_all_registry_ports.
      rewrite (load_registry_ports_loop_paths Json_parse is_object object
                 parse_manifest_object parse_control_file).
      fold (attempted regs). rewrite Hattempted.
      now apply load_overlay_ports_loop_conflict. }
    split; [exact H|]. unfold load_all_registry_ports. now rewrite H.
  - intros directory Hdirs.
    unfold load_overlay_ports, load_overlay_ports_results. rewrite Hdirs.
    cbn [mbind Outcome_bind].
    now rewrite (load_overlay_ports_loop_conflict fs before conflict after
                   Hbefore Hconflict).
Qed.



(** X15. Where [is_port_directory] says no, on a file system that never
    reads a manifest which does not exist, [try_load_port] returns an error
    named after the directory: that neither file was found when the
    directory exists, that the directory does not exist otherwise. So a
    port that loads is in a port directory. *)
Theorem try_load_port_outside_port_directory (fs : Filesystem) (port_directory : Path) :
  is_port_directory fs port_directory = false ->
  (forall contents,
      read_contents fs (path_join port_directory "vcpkg.json") = inl contents ->
      exists_ fs (path_join port_directory "vcpkg.json") = true) ->
  load_port fs port_directory
  = Returns (inr (error_named (filename port_directory)
                    (if exists_ fs port_directory
                     then "Failed to find either a CONTROL file or vcpkg.json file."
                     else "The port directory (" +:+ port_directory
                            +:+ ") does not exist"))).
Proof.
  unfold is_port_directory. intros Hno Hread.
  apply orb_false_iff in Hno as [Hcontrol Hmanifest].
  unfold try_load_port, try_load_port_control.
  destruct (read_contents fs (path_join port_directory "vcpkg.json")) as [contents|msg].
  { specialize (Hread contents eq_refl). congruence. }
  rewrite Hmanifest, Hcontrol. now destruct (exists_ fs port_directory).
Qed.

(** X16. A directory without manifest whose control file exists: when the
    control file can be read, [try_load_port] gives what
    [try_load_port_text] gives on its text, the record of
    [parse_control_file] when the text parses, except that a parse error is
    named after the directory where [try_load_port_text] names it after the
    path of the file; when it cannot be read, the error holds the message
    of the file system and is named after the directory. *)
Theorem try_load_port_control_file (fs : Filesystem) (port_directory : Path)
  (message : string) :
  read_contents fs (path_join port_directory "vcpkg.json") = inr message ->
  exists_ fs (path_join port_directory "vcpkg.json") = false ->
  exists_ fs (path_join port_directory "CONTROL") = true ->
  match read_contents fs (path_join port_directory "CONTROL") with
  | inl text =>
      exists r,
        parse_paragraphs text (path_join port_directory "CONTROL") = Returns r
        /\ load_port fs port_directory
           = Returns match r with
                     | inl pghs =>
                         parse_control_file (path_join port_directory "CONTROL") pghs
                     | inr e => inr (error_named (filename port_directory) e)
                     end
        /\ load_port_text text (path_join port_directory "CONTROL") false
           = Returns match r with
                     | inl pghs =>
                         parse_control_file (path_join port_directory "CONTROL") pghs
                     | inr e => inr (error_named (path_join port_directory "CONTROL") e)
                     end
  | inr ec_message =>
      load_port fs port_directory
      = Returns (inr (error_named (filename port_directory) ec_message))
  end.
Proof.
  intros Hread Hmanifest Hcontrol.
  unfold try_load_port, try_load_port_control, try_load_port_text, get_paragraphs,
    get_paragraphs_text.
  rewrite Hread, Hmanifest, Hcontrol.
  destruct (read_contents fs (path_join port_directory "CONTROL")) as [text|ec];
    [|reflexivity].
  destruct (get_paragraphs_total text (path_join port_directory "CONTROL")) as [r Hr].
  exists r. unfold parse_paragraphs. rewrite Hr. cbn [mbind Outcome_bind].
  split; [reflexivity|]. split; now destruct r.
Qed.

End LoaderFacts.

Section CachedPackageFacts.
Import Parse Paragraphs.
Context {BinaryParagraph PackageSpec : Type}.
Variable BinaryParagraph_of : Paragraph -> BinaryParagraph.
Variable spec_of : BinaryParagraph -> PackageSpec.
Variable spec_eqb : PackageSpec -> PackageSpec -> bool.
Variable spec_to_string : PackageSpec -> string.

Local Abbreviation load_cached :=
  (try_load_cached_package BinaryParagraph_of spec_of spec_eqb spec_to_string).

(** X17. What [try_load_cached_package] does, case by case. A control file
    that cannot be read gives the message of the file system. A control file
    of white space is the one case where the front of an empty vector is
    taken. Every other text makes the loader return: the parse error, or,
    for the paragraphs that the text parses to, the control file made of
    the first paragraph and of the others as features when the spec of the
    first is the one asked for, and the error on mismatched specs
    otherwise. *)
Theorem try_load_cached_package_outcomes
  (fs : Filesystem) (package_dir : Path) (spec : PackageSpec) :
  match read_contents fs (path_join package_dir "CONTROL") with
  | inr ec_message => load_cached fs package_dir spec = Returns (inr ec_message)
  | inl text =>
      if all_chars is_whitespace text
      then load_cached fs package_dir spec = Undefined "front() of an empty vector"
      else
        (exists e,
           parse_paragraphs text (path_join package_dir "CONTROL") = Returns (inr e)
           /\ load_cached fs package_dir spec = Returns (inr e))
        \/ (exists first rest,
              parse_paragraphs text (path_join package_dir "CONTROL")
              = Returns (inl (first :: rest))
              /\ load_cached fs package_dir spec
                 = Returns
                     (if spec_eqb (spec_of (BinaryParagraph_of first)) spec
                      then inl {| BinaryControlFile.core_paragraph :=
                                    BinaryParagraph_of first;
                                  BinaryControlFile.features :=
                                    map BinaryParagraph_of rest |}
                      else inr ("Mismatched spec in package at " +:+ package_dir
                                  +:+ ": expected " +:+ spec_to_string spec
                                  +:+ ", actual "
                                  +:+ spec_to_string
                                        (spec_of (BinaryParagraph_of first)))))
  end.
Proof.
  unfold try_load_cached_package, get_paragraphs.
  destruct (read_contents fs (path_join package_dir "CONTROL")) as [text|ec];
    [|reflexivity].
  destruct (all_chars is_whitespace text) eqn:Ews.
  { now rewrite (parse_paragraphs_whitespace _ _ Ews). }
  destruct (get_paragraphs_total text (path_join package_dir "CONTROL")) as [r Hr].
  fold (parse_paragraphs text (path_join package_dir "CONTROL")) in Hr.
  rewrite Hr. cbn [mbind Outcome_bind].
  destruct r as [[|first rest]|e].
  - apply empty_document_whitespace in Hr. congruence.
  - right. exists first, rest. split; [reflexivity|]. cbn [front mbind Outcome_bind tl].
    now destruct (spec_eqb _ _).
  - left. exists e. now split.
Qed.

End CachedPackageFacts.

(** *** More on the loaders, on the example inputs *)

Lemma conflict_ends_the_batch_witness :
  Demo.try_load_all_registry_ports fs_conflict registries_conflict
  = Exits "Found both manifest and CONTROL file in port overlay/c; please rename one or the other"
  /\ Demo.load_overlay_ports fs_conflict "overlay"
     = Exits "Found both manifest and CONTROL file in port overlay/c; please rename one or the other".
Proof.
  destruct (conflict_ends_the_batch Demo.Json_parse Demo.is_object Demo.object
              Demo.parse_manifest_object Demo.parse_control_file false
              Demo.print_error_message fs_conflict ["overlay/a"] "overlay/c" ["overlay/d"])
    as [Hreg Hov].
  - repeat constructor.
  - reflexivity.
  - split.
    + exact (proj1 (Hreg registries_conflict eq_refl)).
    + exact (Hov "overlay" eq_refl).
Defined.


Lemma try_load_port_outside_port_directory_witness :
  Paragraphs.is_port_directory fs_ports "overlay/b" = false
  /\ Demo.try_load_port fs_ports "overlay/b"
     = Returns (inr (Paragraphs.error_named "b"
                       "Failed to find either a CONTROL file or vcpkg.json file."))
  /\ Demo.try_load_port fs_ports "overlay/x"
     = Returns (inr (Paragraphs.error_named "x"
                       "The port directory (overlay/x) does not exist")).
Proof.
  split; [reflexivity|]. split.
  - apply (try_load_port_outside_port_directory Demo.Json_parse Demo.is_object
             Demo.object Demo.parse_manifest_object Demo.parse_control_file
             fs_ports "overlay/b"); [reflexivity|discriminate].
  - apply (try_load_port_outside_port_directory Demo.Json_parse Demo.is_object
             Demo.object Demo.parse_manifest_object Demo.parse_control_file
             fs_ports "overlay/x"); [reflexivity|discriminate].
Defined.

Lemma try_load_port_control_file_witness :
  exists r,
    Paragraphs.parse_paragraphs ("Source: a" +:+ Paragraphs.PghParser.newline)
      "overlay/a/CONTROL" = Returns r
    /\ Demo.try_load_port fs_ports "overlay/a"
       = Returns match r with
                 | inl pghs => Demo.parse_control_file "overlay/a/CONTROL" pghs
                 | inr e => inr (Paragraphs.error_named "a" e)
                 end
    /\ Paragraphs.try_load_port_text Demo.Json_parse Demo.is_object Demo.object
         Demo.parse_manifest_object Demo.parse_control_file
         ("Source: a" +:+ Paragraphs.PghParser.newline) "overlay/a/CONTROL" false
       = Returns match r with
                 | inl pghs => Demo.parse_control_file "overlay/a/CONTROL" pghs
                 | inr e => inr (Paragraphs.error_named "overlay/a/CONTROL" e)
                 end.
Proof.
  apply (try_load_port_control_file Demo.Json_parse Demo.is_object Demo.object
           Demo.parse_manifest_object Demo.parse_control_file fs_ports "overlay/a"
           "No such file or directory"); reflexivity.
Defined.
